(** * bpf-exp-rp: a TLS-terminating proxy with kernel (sockmap) forwarding

    Shallow embedding of [main.go] (redirect-key derivation, [HandleConn])
    and [tls.go] (the peek-and-replay connection wrapper and the SNI
    sniffer), followed by the properties proved about them.

    Conventions.
    - Go's [int] is the 64-bit two's-complement integer of linux/amd64 and
      linux/arm64; [uint32], [uint64] and [byte] are unsigned.  All of them
      are carried by [Z] with the wrap-around written out.
    - Calls into the Go standard library, the kernel and cilium/ebpf are the
      environment: their results are supplied by a type class ([NetLib],
      [IoReader], [SniffLib]) or by an oracle record ([Env]). *)

From Stdlib Require Import ZArith Lia.
From Stdlib Require Import Strings.Byte Strings.Ascii.
From stdpp Require Import gmap strings list.

Local Open Scope Z_scope.

(** ** Go integer types *)

Module GoInt.

(** Conversion to [byte] (uint8): keep the low 8 bits. *)
Definition to_byte (v : Z) : Z := v mod 2 ^ 8.

(** Conversion to [uint32]: keep the low 32 bits. *)
Definition to_uint32 (v : Z) : Z := v mod 2 ^ 32.

(** Conversion to [uint64]: keep the low 64 bits. *)
Definition to_uint64 (v : Z) : Z := v mod 2 ^ 64.

(** A mathematical integer brought back into the range of [int]. *)
Definition to_int (v : Z) : Z := (v + 2 ^ 63) mod 2 ^ 64 - 2 ^ 63.

(** [x << k] on [int]: the shift is exact, the result wraps. *)
Definition int_shl (x k : Z) : Z := to_int (Z.shiftl x k).

(** [x << k] on [uint32]. *)
Definition uint32_shl (x k : Z) : Z := to_uint32 (Z.shiftl x k).

End GoInt.

(** ** encoding/binary on a [[4]byte] array *)

Record byte4 : Type := Byte4 { el0 : Z; el1 : Z; el2 : Z; el3 : Z }.

(** [binary.BigEndian.PutUint32(b[:], v)]: most significant byte first. *)
Definition BigEndian_PutUint32 (v : Z) : byte4 :=
  {| el0 := GoInt.to_byte (Z.shiftr v 24);
     el1 := GoInt.to_byte (Z.shiftr v 16);
     el2 := GoInt.to_byte (Z.shiftr v 8);
     el3 := GoInt.to_byte v |}.

(** [binary.LittleEndian.Uint32(b[:])]: least significant byte first. *)
Definition LittleEndian_Uint32 (b : byte4) : Z :=
  Z.lor (Z.lor (Z.lor (el0 b) (GoInt.uint32_shl (el1 b) 8))
               (GoInt.uint32_shl (el2 b) 16))
        (GoInt.uint32_shl (el3 b) 24).

(** [be32] of main.go. *)
Definition be32 (n : Z) : Z :=
  let b := BigEndian_PutUint32 (GoInt.to_uint32 n) in
  LittleEndian_Uint32 b.

(** ** Library calls used by [getKey] *)

(** A Go [error] value, identified with the text it prints. *)
Definition error : Type := string.

(** [net.SplitHostPort] and [strconv.Atoi].  [inl e] is a non-nil error. *)
Class NetLib : Type := {
  SplitHostPort : string → error + (string * string);
  Atoi : string → error + Z
}.

(** A [*net.TCPConn]: its descriptor and the printed form of its two
    addresses ([conn.LocalAddr().String()], [conn.RemoteAddr().String()]). *)
Record TCPConn : Type := {
  conn_fd : Z;
  LocalAddr : string;
  RemoteAddr : string
}.

(** ** The redirect map (cilium/ebpf [*ebpf.Map]) as an in-memory double

    Keys are [uint64], values [uint32].  [map_rejects] is the injected
    failure: an [Update] of a rejected key returns an error and changes
    nothing. *)

Record EbpfMap : Type := {
  map_entries : gmap Z Z;
  map_rejects : Z → bool
}.

Definition ErrKeyNotExist : error := "key does not exist".
Definition ErrUpdate : error := "update failed".

(** [m.Update(key, value, ebpf.UpdateAny)]: create or overwrite. *)
Definition Map_Update (m : EbpfMap) (key value : Z) : option error * EbpfMap :=
  if map_rejects m key then (Some ErrUpdate, m)
  else (None, {| map_entries := <[key := value]> (map_entries m);
                 map_rejects := map_rejects m |}).

(** [m.Delete(key)]: an absent key gives [ErrKeyNotExist]. *)
Definition Map_Delete (m : EbpfMap) (key : Z) : option error * EbpfMap :=
  match map_entries m !! key with
  | None => (Some ErrKeyNotExist, m)
  | Some _ => (None, {| map_entries := delete key (map_entries m);
                        map_rejects := map_rejects m |})
  end.

(** ** Observable actions of a connection handler *)

Inductive Direction : Type := TLS_TX | TLS_RX.

Inductive SockOpt : Type := TCP_ULP | SO_SNDBUF | SO_RCVBUF.

Inductive Event : Type :=
  | EvEpollCreate
  | EvLog (args : list string)
  | EvHandshake (fd : Z)
  | EvDial
  | EvMapUpdate (key value : Z) (err : option error)
  | EvMapDelete (key : Z) (err : option error)
  | EvSetsockopt (fd : Z) (opt : SockOpt)
  | EvKTLSEnable (fd : Z) (dir : Direction)
  | EvSpawnDrain (fd : Z)
  | EvEpollCtl (epfd fd : Z)
  | EvEpollWait (epfd : Z)
  | EvConnClose (fd : Z)
  | EvSyscallClose (fd : Z).

(** The state a handler acts on: the process-wide map and the history of
    what has been done so far, oldest first. *)
Record World : Type := {
  hashMap : EbpfMap;
  trace : list Event
}.

(** How a piece of [HandleConn] ends: it falls through with a value, it
    executes [return], it calls [log.Fatal] (the process exits with
    status 1, deferred calls do not run), or it sits in a system call that
    never comes back. *)
Inductive Outcome (A : Type) : Type :=
  | Ok (a : A)
  | Returned
  | Fatal
  | Blocked.
Arguments Ok {A} a.
Arguments Returned {A}.
Arguments Fatal {A}.
Arguments Blocked {A}.

Definition M (A : Type) : Type := World → Outcome A * World.

#[export] Instance M_ret : MRet M := λ A a w, (Ok a, w).

#[export] Instance M_bind : MBind M := λ A B f m w,
  match m w with
  | (Ok a, w') => f a w'
  | (Returned, w') => (Returned, w')
  | (Fatal, w') => (Fatal, w')
  | (Blocked, w') => (Blocked, w')
  end.

Definition emit (e : Event) : M unit := λ w,
  (Ok tt, {| hashMap := hashMap w; trace := trace w ++ [e] |}).

Definition log_Println (args : list string) : M unit := emit (EvLog args).

Definition log_Fatal {A : Type} (args : list string) : M A := λ w,
  (Fatal, {| hashMap := hashMap w; trace := trace w ++ [EvLog args] |}).

Definition go_return {A : Type} : M A := λ w, (Returned, w).

Definition block_forever {A : Type} : M A := λ w, (Blocked, w).

(** [defer f()]: [f] runs when the body returns, by [return] or by reaching
    its end; it does not run on [log.Fatal] nor while the body is blocked. *)
Definition with_defer (deferred : M unit) (body : M unit) : M unit := λ w,
  match body w with
  | (Ok tt, w') => deferred w'
  | (Returned, w') =>
      match deferred w' with
      | (Ok tt, w'') => (Returned, w'')
      | other => other
      end
  | other => other
  end.

Definition hashMap_Update (key value : Z) : M (option error) := λ w,
  let '(err, m) := Map_Update (hashMap w) key value in
  (Ok err, {| hashMap := m; trace := trace w ++ [EvMapUpdate key value err] |}).

Definition hashMap_Delete (key : Z) : M (option error) := λ w,
  let '(err, m) := Map_Delete (hashMap w) key in
  (Ok err, {| hashMap := m; trace := trace w ++ [EvMapDelete key err] |}).

(** ** Key derivation (main.go, [getKey]) *)

Definition getKey {L : NetLib} (conn : TCPConn) : M Z :=
  match SplitHostPort (LocalAddr conn) with
  | inl err => log_Println [err];; mret 0
  | inr (_, local_port) =>
  match SplitHostPort (RemoteAddr conn) with
  | inl err => log_Println [err];; mret 0
  | inr (_, remote_port) =>
  match Atoi local_port with
  | inl err => log_Println [err];; mret 0
  | inr ilocal_port =>
  match Atoi remote_port with
  | inl err => log_Println [err];; mret 0
  | inr iremote_port =>
      let key := Z.lor (GoInt.to_uint64 (GoInt.int_shl ilocal_port 32))
                       (GoInt.to_uint64 (be32 iremote_port)) in
      mret key
  end end end end.

(** ** The environment of one [HandleConn] call

    Every call that leaves the program has its result fixed here.
    [None] stands for a nil error.  [kTLSEnable] is defined in a file of the
    repository that is not part of the sources at hand; only the error it
    returns matters to [HandleConn]. *)

Inductive WaitResult : Type :=
  | WaitNil
  | WaitErrno (errno : Z)
  | WaitOther (err : error).

Definition EINTR : Z := 4.

Record Env : Type := {
  env_EpollCreate1 : error + Z;
  env_LoadX509KeyPair : option error;
  env_Handshake : option error;
  env_ResolveTCPAddr : option error;
  env_DialTCP : error + TCPConn;
  env_SyscallConn : TCPConn → option error;
  env_Control : TCPConn → option error;
  env_SetsockoptString : option error;
  env_kTLSEnable : Direction → option error;
  env_SetsockoptInt : SockOpt → option error;
  env_EpollCtl : nat → option error;
  env_EpollWait : list WaitResult
}.

(** [if err != nil { log.Fatal(err) }] *)
Definition fatal_on (err : option error) : M unit :=
  match err with
  | Some e => log_Fatal [e]
  | None => mret tt
  end.

(** [getFD] of main.go. *)
Definition getFD (env : Env) (conn : TCPConn) : M Z :=
  fatal_on (env_SyscallConn env conn);;
  fatal_on (env_Control env conn);;
  mret (conn_fd conn).

(** Lines 86-98: certificate loading and the server-side handshake. *)
Definition handshake_gate (env : Env) (inconn : TCPConn) : M unit :=
  fatal_on (env_LoadX509KeyPair env);;
  emit (EvHandshake (conn_fd inconn));;
  match env_Handshake env with
  | Some err => log_Println ["Handshake"; err];; go_return
  | None => mret tt
  end.

(** Lines 100-108: the dial to the fixed backend. *)
Definition backend_pairing (env : Env) : M TCPConn :=
  fatal_on (env_ResolveTCPAddr env);;
  emit EvDial;;
  match env_DialTCP env with
  | inl err => log_Fatal [err]
  | inr outconn => mret outconn
  end.

(** Lines 110-121: both descriptors, then the two map insertions. *)
Definition install_redirect {L : NetLib} (env : Env) (inconn outconn : TCPConn)
  : M (Z * Z) :=
  ofd ← getFD env outconn;
  ifd ← getFD env inconn;
  kout ← getKey outconn;
  err ← hashMap_Update kout (GoInt.to_uint32 ifd);
  fatal_on err;;
  kin ← getKey inconn;
  err ← hashMap_Update kin (GoInt.to_uint32 ofd);
  fatal_on err;;
  mret (ifd, ofd).

(** Lines 123-136: the TLS upper-layer protocol, then kernel TLS for the
    transmit and the receive direction. *)
Definition enable_ktls (env : Env) (ifd : Z) : M unit :=
  emit (EvSetsockopt ifd TCP_ULP);;
  match env_SetsockoptString env with
  | Some err => log_Println ["kTLS: setsockopt(SOL_TCP, TCP_ULP) failed:"; err]
  | None => mret tt
  end;;
  emit (EvKTLSEnable ifd TLS_TX);;
  match env_kTLSEnable env TLS_TX with
  | Some err => log_Fatal ["ktls"; err]
  | None => mret tt
  end;;
  emit (EvKTLSEnable ifd TLS_RX);;
  match env_kTLSEnable env TLS_RX with
  | Some err => log_Fatal ["ktls"; err]
  | None => mret tt
  end.

(** Lines 139-147: enlarged send and receive buffers.  The value returned
    is the last error, which the retry loop below inherits in [err]. *)
Definition tune_buffers (env : Env) (ifd : Z) : M (option error) :=
  emit (EvSetsockopt ifd SO_SNDBUF);;
  match env_SetsockoptInt env SO_SNDBUF with
  | Some err => log_Println ["kTLS: setsockopt(SOL_SOCKET, SNDBUF) failed:"; err]
  | None => mret tt
  end;;
  emit (EvSetsockopt ifd SO_RCVBUF);;
  match env_SetsockoptInt env SO_RCVBUF with
  | Some err => log_Println ["kTLS: setsockopt(SOL_SOCKET, SNDBUF) failed:"; err]
  | None => mret tt
  end;;
  mret (env_SetsockoptInt env SO_RCVBUF).

(** Lines 163-168: [for i := 0; i < 5; i++], with [n] iterations left. *)
Fixpoint epoll_ctl_loop (env : Env) (epfd ifd : Z) (n i : nat)
  (err : option error) : M (option error) :=
  match n with
  | O => mret err
  | S n' =>
      emit (EvEpollCtl epfd ifd);;
      match env_EpollCtl env i with
      | None => mret None
      | Some e => epoll_ctl_loop env epfd ifd n' (S i) (Some e)
      end
  end.

(** Lines 162-171: registration for the peer-closed event. *)
Definition register_rdhup (env : Env) (epfd ifd : Z) (err : option error)
  : M unit :=
  err ← epoll_ctl_loop env epfd ifd 5 0 err;
  fatal_on err.

(** Lines 173-183: the wait, once per scripted result of [EpollWait]; an
    exhausted script is a wait that never returns. *)
Fixpoint epoll_wait_loop (epfd : Z) (script : list WaitResult) : M unit :=
  match script with
  | [] => emit (EvEpollWait epfd);; block_forever
  | r :: rest =>
      emit (EvEpollWait epfd);;
      match r with
      | WaitNil => mret tt
      | WaitErrno errno =>
          if errno =? EINTR
          then log_Println ["interrupted syscall, retry"];;
               epoll_wait_loop epfd rest
          else log_Fatal ["errno"]
      | WaitOther err => log_Fatal [err]
      end
  end.

(** Lines 187-190: the teardown.  The errors of [Delete] and [Close] are
    dropped. *)
Definition teardown {L : NetLib} (inconn outconn : TCPConn) : M unit :=
  kin ← getKey inconn;
  hashMap_Delete kin;;
  kout ← getKey outconn;
  hashMap_Delete kout;;
  emit (EvConnClose (conn_fd inconn));;
  emit (EvConnClose (conn_fd outconn)).

(** Lines 86-121: handshake gate, backend pairing and map installation.
    The values are [outconn], [ifd] and [ofd]. *)
Definition HandleConn_setup {L : NetLib} (env : Env) (inconn : TCPConn)
  : M (TCPConn * Z * Z) :=
  handshake_gate env inconn;;
  outconn ← backend_pairing env;
  '(ifd, ofd) ← install_redirect env inconn outconn;
  mret (outconn, ifd, ofd).

(** Lines 123-190: kernel TLS, buffers, the wait for the peer to close and
    the teardown.  The goroutine of lines 149-159 only reads and discards;
    it is recorded as one event.  Lines 184-186 test an [err] that is nil
    whenever the loop before them is left, and do nothing. *)
Definition HandleConn_handoff {L : NetLib} (env : Env) (inconn outconn : TCPConn)
  (epfd ifd : Z) : M unit :=
  enable_ktls env ifd;;
  err ← tune_buffers env ifd;
  emit (EvSpawnDrain (conn_fd inconn));;
  register_rdhup env epfd ifd err;;
  epoll_wait_loop epfd (env_EpollWait env);;
  teardown inconn outconn.

(** Lines 86-190, everything after [defer syscall.Close(epfd)]. *)
Definition HandleConn_body {L : NetLib} (env : Env) (inconn : TCPConn) (epfd : Z)
  : M unit :=
  '(outconn, ifd, _) ← HandleConn_setup env inconn;
  HandleConn_handoff env inconn outconn epfd ifd.

(** [HandleConn] of main.go. *)
Definition HandleConn {L : NetLib} (env : Env) (inconn : TCPConn) : M unit :=
  emit EvEpollCreate;;
  match env_EpollCreate1 env with
  | inl err => log_Fatal [err]
  | inr epfd =>
      with_defer (emit (EvSyscallClose epfd)) (HandleConn_body env inconn epfd)
  end.

(** ** tls.go: readers *)

(** [io.Reader]: [io_Read r n] is [r.Read(p)] with [len(p) = n]; it gives
    the bytes stored at the front of [p], the error, and the reader
    afterwards. *)
Class IoReader (R : Type) : Type :=
  io_Read : R → nat → list byte * option error * R.

(** *** The peek-and-replay wrapper ([Conn]) *)

(** [Peeked] is a slice: [None] is nil, [Some []] is empty but not nil. *)
Record Conn (C : Type) : Type := {
  Peeked : option (list byte);
  Conn_inner : C
}.
Arguments Peeked {C} _.
Arguments Conn_inner {C} _.

(** [len(s)] of a slice. *)
Definition slice_len (s : option (list byte)) : nat :=
  match s with
  | None => O
  | Some l => length l
  end.

(** [(c *Conn) Read(p)] with [len(p) = n]. *)
Definition Conn_Read {C : Type} {Rd : IoReader C} (c : Conn C) (n : nat)
  : list byte * option error * Conn C :=
  if decide (0 < slice_len (Peeked c))%nat then
    let pk := default [] (Peeked c) in
    let k := Nat.min n (length pk) in
    let rest := drop k pk in
    (take k pk, None,
     {| Peeked := if decide (length rest = 0)%nat then None else Some rest;
        Conn_inner := Conn_inner c |})
  else
    let '(data, err, inner) := io_Read (Conn_inner c) n in
    (data, err, {| Peeked := Peeked c; Conn_inner := inner |}).

(** Successive [Read] calls with buffers of the given lengths: the bytes
    they deliver, in order, and the wrapper afterwards. *)
Fixpoint Conn_Reads {C : Type} {Rd : IoReader C} (c : Conn C) (sizes : list nat)
  : list byte * Conn C :=
  match sizes with
  | [] => ([], c)
  | n :: sizes' =>
      let '(data, _, c') := Conn_Read c n in
      let '(more, c'') := Conn_Reads c' sizes' in
      (data ++ more, c'')
  end.

(** *** bufio.Reader

    [rd_buffered] is [b.buf[b.r:b.w]], [rd_size] is [len(b.buf)], [rd_err]
    is [b.err].  Peek, fill, Read and Buffered depend on the two indices
    only through that window. *)
Record Reader (R : Type) : Type := {
  rd_size : nat;
  rd_buffered : list byte;
  rd_err : option error;
  rd_src : R
}.
Arguments rd_size {R} _.
Arguments rd_buffered {R} _.
Arguments rd_err {R} _.
Arguments rd_src {R} _.

Definition ErrBufferFull : error := "bufio: buffer full".
Definition ErrNoProgress : error := "multiple Read calls return no data or error".

Definition maxConsecutiveEmptyReads : nat := 100.
Definition minReadBufferSize : nat := 16.
Definition defaultBufSize : nat := 4096.

Section Bufio.
Context {R : Type} {Rd : IoReader R}.

(** [b.Buffered()] *)
Definition Buffered (b : Reader R) : nat := length (rd_buffered b).

(** [b.readErr()]: hand out [b.err] and reset it. *)
Definition readErr (b : Reader R) : option error * Reader R :=
  (rd_err b,
   {| rd_size := rd_size b; rd_buffered := rd_buffered b;
      rd_err := None; rd_src := rd_src b |}).

(** The read loop of [b.fill()], with [i] attempts left. *)
Fixpoint fill_loop (i : nat) (b : Reader R) : Reader R :=
  match i with
  | O => {| rd_size := rd_size b; rd_buffered := rd_buffered b;
            rd_err := Some ErrNoProgress; rd_src := rd_src b |}
  | S i' =>
      let '(data, err, src) :=
        io_Read (rd_src b) (rd_size b - length (rd_buffered b)) in
      let b' := {| rd_size := rd_size b;
                   rd_buffered := rd_buffered b ++ data;
                   rd_err := rd_err b; rd_src := src |} in
      match err with
      | Some e => {| rd_size := rd_size b';
                     rd_buffered := rd_buffered b';
                     rd_err := Some e; rd_src := rd_src b' |}
      | None =>
          if decide (0 < length data)%nat then b' else fill_loop i' b'
      end
  end.

(** [b.fill()] *)
Definition fill (b : Reader R) : Reader R :=
  fill_loop maxConsecutiveEmptyReads b.

(** Guard of the loop in [Peek]. *)
Definition peek_more (n : nat) (b : Reader R) : bool :=
  bool_decide (Buffered b < n)%nat
  && bool_decide (Buffered b < rd_size b)%nat
  && bool_decide (rd_err b = None).

(** The loop of [Peek]; every round adds a byte or sets [b.err], so [n]
    rounds are enough (see [peek_loop_done]). *)
Fixpoint peek_loop (fuel n : nat) (b : Reader R) : Reader R :=
  match fuel with
  | O => b
  | S fuel' => if peek_more n b then peek_loop fuel' n (fill b) else b
  end.

(** [b.Peek(n)] for [n >= 0]. *)
Definition bufio_Peek (b : Reader R) (n : nat)
  : list byte * option error * Reader R :=
  let b := peek_loop n n b in
  if decide (rd_size b < n)%nat then (rd_buffered b, Some ErrBufferFull, b)
  else if decide (Buffered b < n)%nat then
    let '(err, b') := readErr b in
    (rd_buffered b,
     match err with Some e => Some e | None => Some ErrBufferFull end, b')
  else (take n (rd_buffered b), None, b).

(** [b.Read(p)] with [len(p) = n]. *)
Definition bufio_Read (b : Reader R) (n : nat)
  : list byte * option error * Reader R :=
  if decide (n = 0)%nat then
    if decide (0 < Buffered b)%nat then ([], None, b)
    else let '(err, b') := readErr b in ([], err, b')
  else
    let copy_out (b : Reader R) :=
      let k := Nat.min n (length (rd_buffered b)) in
      (take k (rd_buffered b), None,
       {| rd_size := rd_size b; rd_buffered := drop k (rd_buffered b);
          rd_err := rd_err b; rd_src := rd_src b |}) in
    if decide (Buffered b = 0)%nat then
      if decide (rd_err b = None) then
        if decide (rd_size b ≤ n)%nat then
          let '(data, err, src) := io_Read (rd_src b) n in
          (data, err,
           {| rd_size := rd_size b; rd_buffered := [];
              rd_err := None; rd_src := src |})
        else
          let '(data, err, src) := io_Read (rd_src b) (rd_size b) in
          let b' := {| rd_size := rd_size b; rd_buffered := data;
                       rd_err := err; rd_src := src |} in
          if decide (length data = 0)%nat then
            let '(err', b'') := readErr b' in ([], err', b'')
          else copy_out b'
      else let '(err, b') := readErr b in ([], err, b')
    else copy_out b.

(** [bufio.NewReader]-style construction of a fresh reader. *)
Definition new_Reader (size : nat) (src : R) : Reader R :=
  {| rd_size := Nat.max size minReadBufferSize; rd_buffered := [];
     rd_err := None; rd_src := src |}.

End Bufio.

(** A [*bufio.Reader] is an [io.Reader]. *)
#[export] Instance Reader_IoReader {R : Type} {Rd : IoReader R}
  : IoReader (Reader R) := bufio_Read.

(** *** SNI extraction ([clientHelloServerName]) *)

(** What the sniffer needs from crypto/tls and errors:
    - [tls_ServerName bytes] is the [ServerName] that reaches
      [GetConfigForClient] when a throwaway [tls.Server] handshake reads
      [bytes] (empty if the callback is never reached);
    - [errors_Is_EOF err] is [errors.Is(err, io.EOF)];
    - [errors_As_OpError err] is [Some t] when [errors.As] finds a
      [*net.OpError], [t] being its [Timeout()]. *)
Class SniffLib : Type := {
  tls_ServerName : list byte → string;
  errors_Is_EOF : error → bool;
  errors_As_OpError : error → option bool
}.

Definition recordTypeSSLv2 : byte := x80.
Definition recordTypeHandshake : byte := x16.
Definition recordHeaderLen : nat := 5.

(** [int(b)] for a byte. *)
Definition byte_to_int (b : byte) : Z := Z.of_N (Byte.to_N b).

(** [s[i]] for an index that is in range; every use below follows a [Peek]
    of more than [i] bytes that returned a nil error. *)
Definition index (s : list byte) (i : nat) : byte := nth i s x00.

(** The four results of [clientHelloServerName]. *)
Record SniffResult : Type := {
  res_sni : string;
  res_isTLS : bool;
  res_peeked : string;
  res_err : option error
}.

(** [getPeeked] of tls.go. *)
Definition getPeeked {R : Type} {Rd : IoReader R} (br : Reader R)
  : string * Reader R :=
  let '(peeked, err, br) := bufio_Peek br (Buffered br) in
  match err with
  | Some _ => (EmptyString, br)
  | None => (String.string_of_list_byte peeked, br)
  end.

(** Lines 52-66 of tls.go, for the reader [br] stands for at that point. *)
Definition sniff_hello {R : Type} {Rd : IoReader R} {Sn : SniffLib}
  (br : Reader R) (total : nat) : SniffResult * Reader R :=
  let '(helloBytes, err, br) := bufio_Peek br total in
  match err with
  | Some _ =>
      let '(peeked, br) := getPeeked br in
      ({| res_sni := ""; res_isTLS := true; res_peeked := peeked;
          res_err := None |}, br)
  | None =>
      let sni := tls_ServerName helloBytes in
      let '(peeked, br) := getPeeked br in
      ({| res_sni := sni; res_isTLS := true; res_peeked := peeked;
          res_err := None |}, br)
  end.

(** [clientHelloServerName] of tls.go.  Besides the four results it gives
    the caller's reader afterwards and the lines written to the log. *)
Definition clientHelloServerName {R : Type} {Rd : IoReader R} {Sn : SniffLib}
  (br : Reader R) : SniffResult * Reader R * list (list string) :=
  let '(hdr, err, br) := bufio_Peek br 1 in
  match err with
  | Some e =>
      let logs :=
        if negb (errors_Is_EOF e)
           && match errors_As_OpError e with
              | None => true
              | Some timeout => timeout
              end
        then [["Error while peeking bytes"]] else [] in
      ({| res_sni := ""; res_isTLS := false; res_peeked := "";
          res_err := Some e |}, br, logs)
  | None =>
      if negb (Byte.eqb (index hdr 0) recordTypeHandshake) then
        if Byte.eqb (index hdr 0) recordTypeSSLv2 then
          let '(peeked, br) := getPeeked br in
          ({| res_sni := ""; res_isTLS := true; res_peeked := peeked;
              res_err := None |}, br, [])
        else
          let '(peeked, br) := getPeeked br in
          ({| res_sni := ""; res_isTLS := false; res_peeked := peeked;
              res_err := None |}, br, [])
      else
        let '(hdr, err, br) := bufio_Peek br recordHeaderLen in
        match err with
        | Some e =>
            let '(peeked, br) := getPeeked br in
            ({| res_sni := ""; res_isTLS := false; res_peeked := peeked;
                res_err := None |}, br, [["Error while Peeking hello:"; e]])
        | None =>
            let recLen :=
              Z.to_nat (Z.lor (Z.shiftl (byte_to_int (index hdr 3)) 8)
                              (byte_to_int (index hdr 4))) in
            let total := (recordHeaderLen + recLen)%nat in
            if decide (defaultBufSize < total)%nat then
              if decide (total ≤ rd_size br)%nat then
                (sniff_hello br total, [])
              else
                let '(res, outer) := sniff_hello (new_Reader total br) total in
                (res, rd_src outer, [])
            else (sniff_hello br total, [])
        end
  end.

(** ** main.go: the process ([main], [nc])

    What the process does outside its connection handlers is recorded as
    a history of its own, oldest action first. *)

Inductive SkProgram : Type := ProgVerdict | ProgParser.

Inductive Action : Type :=
  | AcRemoveMemlock
  | AcLoadBpfObjects
  | AcRawAttachProgram (prog : SkProgram)
  | AcGoNc
  | AcResolveTCPAddr (addr : string)
  | AcListenTCP
  | AcAcceptTCP
  | AcGoHandleConn (inconn : TCPConn)
  | AcObjsClose
  | AcListenerClose
  | AcListen (addr : string)
  | AcAccept
  | AcGoReader (nth : nat)
  | AcLog (args : list string)
  | AcLogRead (n : nat) (bytes : list byte).

Definition Proc (A : Type) : Type := list Action → Outcome A * list Action.

Definition proc_ret {A : Type} (a : A) : Proc A := λ t, (Ok a, t).

Definition proc_bind {A B : Type} (m : Proc A) (k : A → Proc B) : Proc B :=
  λ t,
  match m t with
  | (Ok a, t') => k a t'
  | (Returned, t') => (Returned, t')
  | (Fatal, t') => (Fatal, t')
  | (Blocked, t') => (Blocked, t')
  end.

Declare Scope proc_scope.
Delimit Scope proc_scope with proc.
Bind Scope proc_scope with Proc.
Notation "m ;; k" := (proc_bind m (λ _, k))
  (at level 100, k at level 200, right associativity) : proc_scope.

Definition act (a : Action) : Proc unit := λ t, (Ok tt, t ++ [a]).

(** [log.Fatal] and [log.Fatalf]: the line, then exit status 1. *)
Definition proc_Fatal {A : Type} (args : list string) : Proc A := λ t,
  (Fatal, t ++ [AcLog args]).

Definition proc_return {A : Type} : Proc A := λ t, (Returned, t).

Definition proc_block {A : Type} : Proc A := λ t, (Blocked, t).

(** [if err != nil { log.Fatal(err) }] *)
Definition proc_fatal_on (err : option error) : Proc unit :=
  match err with
  | Some e => proc_Fatal [e]
  | None => proc_ret tt
  end.

(** [defer f()] in [main]; see [with_defer]. *)
Definition proc_defer (deferred : Proc unit) (body : Proc unit) : Proc unit :=
  λ t,
  match body t with
  | (Ok tt, t') => deferred t'
  | (Returned, t') =>
      match deferred t' with
      | (Ok tt, t'') => (Returned, t'')
      | other => other
      end
  | other => other
  end.

(** What [main] is told by the calls it makes.  [menv_AcceptTCP] lists
    the answers of the successive [AcceptTCP] calls; the call after the
    last of them does not come back. *)
Record MainEnv : Type := {
  menv_RemoveMemlock : option error;
  menv_loadBpfObjects : option error;
  menv_RawAttachProgram : SkProgram → option error;
  menv_ResolveTCPAddr : option error;
  menv_ListenTCP : option error;
  menv_AcceptTCP : list (TCPConn + error)
}.

(** The [for] loop of [main]. *)
Fixpoint accept_loop (answers : list (TCPConn + error)) : Proc unit :=
  (act AcAcceptTCP;;
   match answers with
   | [] => proc_block
   | inr err :: _ => proc_Fatal [err]
   | inl inconn :: answers' =>
       act (AcGoHandleConn inconn);;
       accept_loop answers'
   end)%proc.

(** [main] of main.go. *)
Definition main (env : MainEnv) : Proc unit :=
  (act AcRemoveMemlock;;
   proc_fatal_on (menv_RemoveMemlock env);;
   act AcLoadBpfObjects;;
   match menv_loadBpfObjects env with
   | Some err => proc_Fatal ["loading objects:"; err]
   | None => proc_ret tt
   end;;
   proc_defer (act AcObjsClose)
     (act (AcRawAttachProgram ProgVerdict);;
      proc_fatal_on (menv_RawAttachProgram env ProgVerdict);;
      act (AcRawAttachProgram ProgParser);;
      proc_fatal_on (menv_RawAttachProgram env ProgParser);;
      act AcGoNc;;
      act (AcResolveTCPAddr ":443");;
      proc_fatal_on (menv_ResolveTCPAddr env);;
      act AcListenTCP;;
      proc_fatal_on (menv_ListenTCP env);;
      proc_defer (act AcListenerClose)
        (accept_loop (menv_AcceptTCP env))))%proc.

(** The [for] loop of [nc], with [nth] connections accepted so far.  An
    answer [None] of [Accept] is a connection. *)
Fixpoint nc_loop (answers : list (option error)) (nth : nat) : Proc unit :=
  (act AcAccept;;
   match answers with
   | [] => proc_block
   | Some err :: _ => act (AcLog [err]);; proc_return
   | None :: answers' =>
       act (AcGoReader nth);;
       nc_loop answers' (S nth)
   end)%proc.

(** [nc] of main.go. *)
Definition nc (listen : option error) (answers : list (option error))
  : Proc unit :=
  (act (AcListen ":8080");;
   proc_fatal_on listen;;
   nc_loop answers 0)%proc.

(** The goroutine [nc] starts for a connection, for at most [rounds]
    rounds of its loop: the lines it logs, whether it has returned, and
    the connection afterwards. *)
Fixpoint nc_reader {C : Type} {Rd : IoReader C} (rounds : nat) (conn : C)
  : list Action * bool * C :=
  match rounds with
  | O => ([], false, conn)
  | S rounds' =>
      let '(bytes, err, conn) := io_Read conn 1024 in
      match err with
      | Some e => ([AcLog [e]], true, conn)
      | None =>
          let '(lines, returned, conn) := nc_reader rounds' conn in
          (AcLogRead (length bytes) bytes :: lines, returned, conn)
      end
  end.

(** ** Concrete environments, used to run the definitions *)

(** A source that answers successive [Read] calls from a script of chunks
    and then fails with [src_err] for good. *)
Record ScriptSource : Type := {
  src_chunks : list (list byte);
  src_err : error
}.

#[export] Instance ScriptSource_IoReader : IoReader ScriptSource := λ s n,
  match src_chunks s with
  | [] => ([], Some (src_err s), s)
  | c :: rest =>
      (take n c, None,
       {| src_chunks := match drop n c with
                        | [] => rest
                        | c' => c' :: rest
                        end;
          src_err := src_err s |})
  end.

Definition EOF : error := "EOF".

(** A stand-in for crypto/tls: no name is ever recovered. *)
Definition no_sniff : SniffLib :=
  {| tls_ServerName := λ _, EmptyString;
     errors_Is_EOF := λ e, bool_decide (e = EOF);
     errors_As_OpError := λ _, None |}.

(** A reference [net.SplitHostPort] and [strconv.Atoi], following the Go
    standard library, for running [getKey] on printed addresses. *)
Module GoNet.

Fixpoint index_of (c : Ascii.ascii) (s : list Ascii.ascii) : option nat :=
  match s with
  | [] => None
  | x :: s' => if Ascii.eqb x c then Some O else S <$> index_of c s'
  end.

Definition last_index_of (c : Ascii.ascii) (s : list Ascii.ascii) : option nat :=
  (λ i, length s - 1 - i)%nat <$> index_of c (rev s).

Definition present (c : Ascii.ascii) (s : list Ascii.ascii) : bool :=
  bool_decide (is_Some (index_of c s)).

Definition split (hostport : string) : error + (string * string) :=
  let hp := String.list_ascii_of_string hostport in
  match last_index_of ":" hp with
  | None => inl "missing port in address"
  | Some i =>
      let finish (host : list Ascii.ascii) (j k : nat) :=
        if present "[" (drop j hp) then inl "unexpected '[' in address"
        else if present "]" (drop k hp) then inl "unexpected ']' in address"
        else inr (String.string_of_list_ascii host,
                  String.string_of_list_ascii (drop (S i) hp)) in
      if bool_decide (hp !! O = Some "["%char) then
        match index_of "]" hp with
        | None => inl "missing ']' in address"
        | Some e =>
            if decide (S e = length hp) then inl "missing port in address"
            else if decide (S e = i) then finish (take (e - 1) (drop 1 hp)) 1%nat (S e)
            else if bool_decide (hp !! S e = Some ":"%char)
                 then inl "too many colons in address"
                 else inl "missing port in address"
        end
      else
        let host := take i hp in
        if present ":" host then inl "too many colons in address"
        else finish host O O
  end.

Fixpoint digits (s : list Ascii.ascii) (acc : Z) : option Z :=
  match s with
  | [] => Some acc
  | c :: s' =>
      let d := Z.of_nat (Ascii.nat_of_ascii c) - 48 in
      if (0 <=? d) && (d <=? 9) then digits s' (10 * acc + d) else None
  end.

Definition atoi (s : string) : error + Z :=
  let bad : error + Z := inl "strconv.Atoi: invalid syntax" in
  let unsigned (ds : list Ascii.ascii) : option Z :=
    match ds with [] => None | _ => digits ds 0 end in
  let in_range (v : Z) : error + Z :=
    if (- 2 ^ 63 <=? v) && (v <? 2 ^ 63) then inr v
    else inl "strconv.Atoi: value out of range" in
  match String.list_ascii_of_string s with
  | "+"%char :: ds => from_option in_range bad (unsigned ds)
  | "-"%char :: ds => from_option (λ v, in_range (- v)) bad (unsigned ds)
  | ds => from_option in_range bad (unsigned ds)
  end.

Definition lib : NetLib := {| SplitHostPort := split; Atoi := atoi |}.

End GoNet.

(** ** The wording of the specification, for comparison with the code *)

Module Spec.

(** A TCP port number. *)
Definition valid_port (p : Z) : Prop := 0 <= p < 2 ^ 16.

(** The four bytes of a 32-bit number, most significant first. *)
Definition big_endian_bytes (v : Z) : list Z :=
  [ (v / 2 ^ 24) mod 256; (v / 2 ^ 16) mod 256; (v / 2 ^ 8) mod 256;
    v mod 256 ].

(** The number a byte sequence denotes when its first byte is the least
    significant one. *)
Fixpoint little_endian_value (bs : list Z) : Z :=
  match bs with
  | [] => 0
  | b :: bs' => b + 256 * little_endian_value bs'
  end.

(** The same four bytes in the opposite order. *)
Definition byte_swap32 (v : Z) : Z :=
  Z.lor (Z.lor (Z.shiftl (Z.land v 255) 24)
               (Z.shiftl (Z.land v 65280) 8))
        (Z.lor (Z.land (Z.shiftr v 8) 65280)
               (Z.land (Z.shiftr v 24) 255)).

(** "the local port (high 32 bits) and its remote port rendered as the
    big-endian representation of that port number reinterpreted as a
    little-endian integer" *)
Definition redirect_key (local remote : Z) : Z :=
  Z.lor (Z.shiftl local 32)
        (little_endian_value (big_endian_bytes remote)).

End Spec.

(** The port pair [getKey] reads off a connection, when both addresses
    split and both ports are numbers. *)
Definition port_pair {L : NetLib} (conn : TCPConn) : option (Z * Z) :=
  match SplitHostPort (LocalAddr conn), SplitHostPort (RemoteAddr conn) with
  | inr (_, lp), inr (_, rp) =>
      match Atoi lp, Atoi rp with
      | inr l, inr r => Some (l, r)
      | _, _ => None
      end
  | _, _ => None
  end.

(** The entries of the map. *)
Definition entries (w : World) : gmap Z Z := map_entries (hashMap w).

(** The descriptors a trace has closed with [Close] on a connection. *)
Definition closed_conns (t : list Event) : list Z :=
  omap (λ e, match e with EvConnClose fd => Some fd | _ => None end) t.

(** ** Vocabulary of the statements *)

(** The world after some more events. *)
Definition add_events (w : World) (es : list Event) : World :=
  {| hashMap := hashMap w; trace := trace w ++ es |}.

(** The world after an accepted [Update]. *)
Definition updated (w : World) (key value : Z) : World :=
  {| hashMap := {| map_entries := <[key := value]> (entries w);
                   map_rejects := map_rejects (hashMap w) |};
     trace := trace w ++ [EvMapUpdate key value None] |}.

(** The error of a [Delete] in a given world. *)
Definition delete_error (w : World) (key : Z) : option error :=
  match entries w !! key with
  | None => Some ErrKeyNotExist
  | Some _ => None
  end.

(** The world after a [Delete]. *)
Definition deleted (w : World) (key : Z) : World :=
  {| hashMap := {| map_entries := delete key (entries w);
                   map_rejects := map_rejects (hashMap w) |};
     trace := trace w ++ [EvMapDelete key (delete_error w key)] |}.

(** The key expression of [getKey], line 230. *)
Definition key_of_ports (ilocal_port iremote_port : Z) : Z :=
  Z.lor (GoInt.to_uint64 (GoInt.int_shl ilocal_port 32))
        (GoInt.to_uint64 (be32 iremote_port)).

(** The value [getKey] returns for a connection. *)
Definition conn_key {L : NetLib} (conn : TCPConn) : Z :=
  match port_pair conn with
  | Some (l, r) => key_of_ports l r
  | None => 0
  end.

(** What [getKey] writes to the log for a connection. *)
Definition getKey_log {L : NetLib} (conn : TCPConn) : list Event :=
  match SplitHostPort (LocalAddr conn) with
  | inl err => [EvLog [err]]
  | inr (_, local_port) =>
  match SplitHostPort (RemoteAddr conn) with
  | inl err => [EvLog [err]]
  | inr (_, remote_port) =>
  match Atoi local_port with
  | inl err => [EvLog [err]]
  | inr _ =>
  match Atoi remote_port with
  | inl err => [EvLog [err]]
  | inr _ => []
  end end end end.

(** An established TCP connection of this process: its descriptor is a
    small non-negative integer and both of its addresses carry a port
    number. *)
Definition established {L : NetLib} (conn : TCPConn) : Prop :=
  0 <= conn_fd conn < 2 ^ 31
  ∧ ∃ l r, port_pair conn = Some (l, r)
           ∧ Spec.valid_port l ∧ Spec.valid_port r.

(** The environment lets [HandleConn] get as far as the handshake. *)
Definition set_up (env : Env) (epfd : Z) : Prop :=
  env_EpollCreate1 env = inr epfd ∧ env_LoadX509KeyPair env = None.

(** Handshake and dial both succeeded, giving [outconn], and both
    descriptors can be read off. *)
Definition paired (env : Env) (inconn outconn : TCPConn) : Prop :=
  env_Handshake env = None
  ∧ env_ResolveTCPAddr env = None
  ∧ env_DialTCP env = inr outconn
  ∧ env_SyscallConn env outconn = None ∧ env_Control env outconn = None
  ∧ env_SyscallConn env inconn = None ∧ env_Control env inconn = None.

(** Both insertions of the pair are accepted by the map. *)
Definition accepts_pair {L : NetLib} (m : EbpfMap) (inconn outconn : TCPConn)
  : Prop :=
  map_rejects m (conn_key outconn) = false
  ∧ map_rejects m (conn_key inconn) = false.

(** The world once lines 86-121 have run to their end. *)
Definition installed {L : NetLib} (w : World) (inconn outconn : TCPConn) : World :=
  updated
    (add_events
       (updated
          (add_events
             (add_events w [EvHandshake (conn_fd inconn); EvDial])
             (getKey_log outconn))
          (conn_key outconn) (GoInt.to_uint32 (conn_fd inconn)))
       (getKey_log inconn))
    (conn_key inconn) (GoInt.to_uint32 (conn_fd outconn)).

(** Kernel TLS fails in one of the two directions, with error [e]. *)
Definition ktls_fails (env : Env) (e : error) : Prop :=
  env_kTLSEnable env TLS_TX = Some e
  ∨ (env_kTLSEnable env TLS_TX = None ∧ env_kTLSEnable env TLS_RX = Some e).

(** The wait is interrupted [n] times and the event never comes. *)
Definition peer_stays (env : Env) (n : nat) : Prop :=
  env_EpollWait env = replicate n (WaitErrno EINTR).

(** Kernel TLS can be enabled in both directions. *)
Definition ktls_ok (env : Env) : Prop :=
  env_kTLSEnable env TLS_TX = None ∧ env_kTLSEnable env TLS_RX = None.

(** One of the five registration attempts succeeds. *)
Definition registers (env : Env) : Prop :=
  ∃ i, (i < 5)%nat ∧ env_EpollCtl env i = None.

(** The wait is interrupted [n] times and then reports the event. *)
Definition peer_closes (env : Env) (n : nat) : Prop :=
  ∃ rest, env_EpollWait env = replicate n (WaitErrno EINTR) ++ WaitNil :: rest.

(** Events that neither close a connection nor touch the map. *)
Definition calm_event (e : Event) : bool :=
  match e with
  | EvConnClose _ | EvMapDelete _ _ | EvMapUpdate _ _ _ => false
  | _ => true
  end.

Definition calm (es : list Event) : Prop := Forall (λ e, calm_event e = true) es.

(** Events that are not a [Close] of a connection. *)
Definition not_close (e : Event) : bool :=
  match e with
  | EvConnClose _ => false
  | _ => true
  end.

(** What an [io.Reader] still has to deliver, and the two facts about
    [Read] the statements rely on: it stores at most [len(p)] bytes, and
    they are the next bytes of the input. *)
Class IoReaderLaws (R : Type) {Rd : IoReader R} : Type := {
  io_pending : R → list byte;
  io_Read_fits : ∀ r n data err r',
    io_Read r n = (data, err, r') → (length data ≤ n)%nat;
  io_Read_pending : ∀ r n data err r',
    io_Read r n = (data, err, r') → io_pending r = data ++ io_pending r'
}.

(** The input as seen through a [bufio.Reader]: what it has buffered, then
    what its source still holds. *)
Definition reader_pending {R : Type} {Rd : IoReader R} {Laws : IoReaderLaws R} (br : Reader R)
  : list byte :=
  rd_buffered br ++ io_pending (rd_src br).

(** The window of a [bufio.Reader] lies within its buffer. *)
Definition reader_wf {R : Type} (br : Reader R) : Prop :=
  (length (rd_buffered br) ≤ rd_size br)%nat.

(** What [fill] and [Peek] keep: the size of the buffer, the window
    within it, the bytes already buffered at its front, and the input as
    a whole. *)
Definition extends {R : Type} {Rd : IoReader R} {Laws : IoReaderLaws R} (b b' : Reader R) : Prop :=
  rd_size b' = rd_size b
  ∧ reader_wf b'
  ∧ rd_buffered b `prefix_of` rd_buffered b'
  ∧ reader_pending b' = reader_pending b.

(** ** Sample data *)

Module Sample.

Definition inconn : TCPConn :=
  {| conn_fd := 7; LocalAddr := "10.0.0.1:443";
     RemoteAddr := "10.0.0.9:51000" |}.

Definition outconn : TCPConn :=
  {| conn_fd := 8; LocalAddr := "127.0.0.1:40000";
     RemoteAddr := "127.0.0.1:8080" |}.

(** A connection whose addresses do not print as host:port. *)
Definition unparsed (fd : Z) : TCPConn :=
  {| conn_fd := fd; LocalAddr := "<nil>"; RemoteAddr := "<nil>" |}.

(** Everything succeeds; the wait is interrupted once. *)
Definition env : Env :=
  {| env_EpollCreate1 := inr 5;
     env_LoadX509KeyPair := None;
     env_Handshake := None;
     env_ResolveTCPAddr := None;
     env_DialTCP := inr outconn;
     env_SyscallConn := λ _, None;
     env_Control := λ _, None;
     env_SetsockoptString := None;
     env_kTLSEnable := λ _, None;
     env_SetsockoptInt := λ _, None;
     env_EpollCtl := λ _, None;
     env_EpollWait := [WaitErrno EINTR; WaitNil] |}.

Definition with_Handshake (e : Env) (r : option error) : Env :=
  {| env_EpollCreate1 := env_EpollCreate1 e;
     env_LoadX509KeyPair := env_LoadX509KeyPair e;
     env_Handshake := r;
     env_ResolveTCPAddr := env_ResolveTCPAddr e;
     env_DialTCP := env_DialTCP e;
     env_SyscallConn := env_SyscallConn e;
     env_Control := env_Control e;
     env_SetsockoptString := env_SetsockoptString e;
     env_kTLSEnable := env_kTLSEnable e;
     env_SetsockoptInt := env_SetsockoptInt e;
     env_EpollCtl := env_EpollCtl e;
     env_EpollWait := env_EpollWait e |}.

Definition with_DialTCP (e : Env) (r : error + TCPConn) : Env :=
  {| env_EpollCreate1 := env_EpollCreate1 e;
     env_LoadX509KeyPair := env_LoadX509KeyPair e;
     env_Handshake := env_Handshake e;
     env_ResolveTCPAddr := env_ResolveTCPAddr e;
     env_DialTCP := r;
     env_SyscallConn := env_SyscallConn e;
     env_Control := env_Control e;
     env_SetsockoptString := env_SetsockoptString e;
     env_kTLSEnable := env_kTLSEnable e;
     env_SetsockoptInt := env_SetsockoptInt e;
     env_EpollCtl := env_EpollCtl e;
     env_EpollWait := env_EpollWait e |}.

Definition with_kTLSEnable (e : Env) (r : Direction → option error) : Env :=
  {| env_EpollCreate1 := env_EpollCreate1 e;
     env_LoadX509KeyPair := env_LoadX509KeyPair e;
     env_Handshake := env_Handshake e;
     env_ResolveTCPAddr := env_ResolveTCPAddr e;
     env_DialTCP := env_DialTCP e;
     env_SyscallConn := env_SyscallConn e;
     env_Control := env_Control e;
     env_SetsockoptString := env_SetsockoptString e;
     env_kTLSEnable := r;
     env_SetsockoptInt := env_SetsockoptInt e;
     env_EpollCtl := env_EpollCtl e;
     env_EpollWait := env_EpollWait e |}.

Definition with_SetsockoptInt (e : Env) (r : SockOpt → option error) : Env :=
  {| env_EpollCreate1 := env_EpollCreate1 e;
     env_LoadX509KeyPair := env_LoadX509KeyPair e;
     env_Handshake := env_Handshake e;
     env_ResolveTCPAddr := env_ResolveTCPAddr e;
     env_DialTCP := env_DialTCP e;
     env_SyscallConn := env_SyscallConn e;
     env_Control := env_Control e;
     env_SetsockoptString := env_SetsockoptString e;
     env_kTLSEnable := env_kTLSEnable e;
     env_SetsockoptInt := r;
     env_EpollCtl := env_EpollCtl e;
     env_EpollWait := env_EpollWait e |}.

Definition with_EpollWait (e : Env) (r : list WaitResult) : Env :=
  {| env_EpollCreate1 := env_EpollCreate1 e;
     env_LoadX509KeyPair := env_LoadX509KeyPair e;
     env_Handshake := env_Handshake e;
     env_ResolveTCPAddr := env_ResolveTCPAddr e;
     env_DialTCP := env_DialTCP e;
     env_SyscallConn := env_SyscallConn e;
     env_Control := env_Control e;
     env_SetsockoptString := env_SetsockoptString e;
     env_kTLSEnable := env_kTLSEnable e;
     env_SetsockoptInt := env_SetsockoptInt e;
     env_EpollCtl := env_EpollCtl e;
     env_EpollWait := r |}.

(** Kernel TLS cannot be enabled. *)
Definition env_no_ktls : Env := with_kTLSEnable env (λ _, Some "ENOENT").

(** Both buffer-size calls fail and the peer never closes. *)
Definition env_no_buffers : Env :=
  with_EpollWait (with_SetsockoptInt env (λ _, Some "EPERM")) [].

(** A wrapped connection with three peeked bytes. *)
Definition wrapped : Conn ScriptSource :=
  {| Peeked := Some [x16; x03; x01];
     Conn_inner := {| src_chunks := [[x00; x2a]]; src_err := EOF |} |}.

(** An empty map that accepts every key. *)
Definition world : World :=
  {| hashMap := {| map_entries := ∅; map_rejects := λ _, false |};
     trace := [] |}.

(** An empty map that rejects exactly [key]. *)
Definition world_rejecting (key : Z) : World :=
  {| hashMap := {| map_entries := ∅; map_rejects := λ k, k =? key |};
     trace := [] |}.

(** A fresh reader of the default size over [src]. *)
Definition reader_over (src : ScriptSource) : Reader ScriptSource :=
  new_Reader defaultBufSize src.

(** The first bytes of an SSLv2-style hello, in two segments. *)
Definition sslv2_source : ScriptSource :=
  {| src_chunks := [[x80; x2e; x01]; [x00; x02]]; src_err := EOF |}.

(** Plain text. *)
Definition plain_source : ScriptSource :=
  {| src_chunks := [[x00; x47; x45; x54]]; src_err := EOF |}.

(** [reader_over sslv2_source] after its first segment was buffered. *)
Definition sslv2_buffered : Reader ScriptSource :=
  {| rd_size := defaultBufSize; rd_buffered := [x80; x2e; x01];
     rd_err := None;
     rd_src := {| src_chunks := [[x00; x02]]; src_err := EOF |} |}.

(** [reader_over plain_source] after its only segment was buffered. *)
Definition plain_buffered : Reader ScriptSource :=
  {| rd_size := defaultBufSize; rd_buffered := [x00; x47; x45; x54];
     rd_err := None;
     rd_src := {| src_chunks := []; src_err := EOF |} |}.

(** A connection whose local port, as printed, is 443 + 2^32. *)
Definition far_port : TCPConn :=
  {| conn_fd := 9; LocalAddr := "10.0.0.1:4294967739";
     RemoteAddr := "10.0.0.9:51000" |}.

Definition with_Control (e : Env) (r : TCPConn → option error) : Env :=
  {| env_EpollCreate1 := env_EpollCreate1 e;
     env_LoadX509KeyPair := env_LoadX509KeyPair e;
     env_Handshake := env_Handshake e;
     env_ResolveTCPAddr := env_ResolveTCPAddr e;
     env_DialTCP := env_DialTCP e;
     env_SyscallConn := env_SyscallConn e;
     env_Control := r;
     env_SetsockoptString := env_SetsockoptString e;
     env_kTLSEnable := env_kTLSEnable e;
     env_SetsockoptInt := env_SetsockoptInt e;
     env_EpollCtl := env_EpollCtl e;
     env_EpollWait := env_EpollWait e |}.

Definition with_EpollCtl (e : Env) (r : nat → option error) : Env :=
  {| env_EpollCreate1 := env_EpollCreate1 e;
     env_LoadX509KeyPair := env_LoadX509KeyPair e;
     env_Handshake := env_Handshake e;
     env_ResolveTCPAddr := env_ResolveTCPAddr e;
     env_DialTCP := env_DialTCP e;
     env_SyscallConn := env_SyscallConn e;
     env_Control := env_Control e;
     env_SetsockoptString := env_SetsockoptString e;
     env_kTLSEnable := env_kTLSEnable e;
     env_SetsockoptInt := env_SetsockoptInt e;
     env_EpollCtl := r;
     env_EpollWait := env_EpollWait e |}.

(** No registration attempt succeeds. *)
Definition env_no_register : Env := with_EpollCtl env (λ _, Some "EEXIST").

(** The third registration attempt succeeds; the peer never closes. *)
Definition env_third_attempt : Env :=
  with_EpollWait
    (with_EpollCtl env (λ i, if (i <? 2)%nat then Some "ENOMEM" else None)) [].

(** The wait is interrupted once and then fails with EBADF. *)
Definition env_wait_fails : Env :=
  with_EpollWait env [WaitErrno EINTR; WaitErrno 9].

(** The descriptor of a connection cannot be read off. *)
Definition env_no_fd : Env :=
  with_Control env (λ _, Some "use of closed network connection").

(** A handshake record type and one more byte, then the end of input. *)
Definition short_source : ScriptSource :=
  {| src_chunks := [[x16; x03]]; src_err := EOF |}.

(** [reader_over short_source] after its only segment was buffered and
    the end of input was met and handed out. *)
Definition short_buffered : Reader ScriptSource :=
  {| rd_size := defaultBufSize; rd_buffered := [x16; x03];
     rd_err := None;
     rd_src := {| src_chunks := []; src_err := EOF |} |}.

(** A handshake record with a body of two bytes. *)
Definition small_record : list byte := [x16; x03; x01; x00; x02; xaa; xbb].

(** [small_record] and one byte more, in two segments. *)
Definition record_source : ScriptSource :=
  {| src_chunks := [[x16; x03; x01; x00; x02; xaa]; [xbb; x47]];
     src_err := EOF |}.

(** [reader_over record_source] with the first, and with both segments
    buffered. *)
Definition record_buffered_one : Reader ScriptSource :=
  {| rd_size := defaultBufSize;
     rd_buffered := [x16; x03; x01; x00; x02; xaa];
     rd_err := None;
     rd_src := {| src_chunks := [[xbb; x47]]; src_err := EOF |} |}.

Definition record_buffered : Reader ScriptSource :=
  {| rd_size := defaultBufSize;
     rd_buffered := [x16; x03; x01; x00; x02; xaa; xbb; x47];
     rd_err := None;
     rd_src := {| src_chunks := []; src_err := EOF |} |}.

(** A stand-in for crypto/tls that knows one hello. *)
Definition one_name : SniffLib :=
  {| tls_ServerName := λ bytes,
       if String.eqb (String.string_of_list_byte bytes)
                     (String.string_of_list_byte small_record)
       then "example.test" else "";
     errors_Is_EOF := λ e, bool_decide (e = EOF);
     errors_As_OpError := λ _, None |}.

(** The header of a handshake record of 4096 bytes, of which two have
    arrived when the input ends. *)
Definition large_source : ScriptSource :=
  {| src_chunks := [[x16; x03; x01; x10; x00; xaa]; [xbb]];
     src_err := EOF |}.

(** Everything [large_source] delivers. *)
Definition large_peeked : list byte := [x16; x03; x01; x10; x00; xaa; xbb].

(** [reader_over large_source] after a reader put in front of it has
    read it empty. *)
Definition large_drained : Reader ScriptSource :=
  {| rd_size := defaultBufSize; rd_buffered := []; rd_err := None;
     rd_src := {| src_chunks := []; src_err := EOF |} |}.

(** Everything succeeds; two connections arrive, then [AcceptTCP]
    fails. *)
Definition main_env : MainEnv :=
  {| menv_RemoveMemlock := None;
     menv_loadBpfObjects := None;
     menv_RawAttachProgram := λ _, None;
     menv_ResolveTCPAddr := None;
     menv_ListenTCP := None;
     menv_AcceptTCP := [inl inconn; inl far_port; inr "EMFILE"] |}.

(** The events of the handler for [inconn] in [env], from [world]. *)
Definition full_trace : list Event :=
  [EvEpollCreate; EvHandshake 7; EvDial;
   EvMapUpdate 171801109790720 7 None; EvMapUpdate 1903623077888 8 None;
   EvSetsockopt 7 TCP_ULP; EvKTLSEnable 7 TLS_TX; EvKTLSEnable 7 TLS_RX;
   EvSetsockopt 7 SO_SNDBUF; EvSetsockopt 7 SO_RCVBUF; EvSpawnDrain 7;
   EvEpollCtl 5 7; EvEpollWait 5; EvLog ["interrupted syscall, retry"];
   EvEpollWait 5; EvMapDelete 1903623077888 None;
   EvMapDelete 171801109790720 None; EvConnClose 7; EvConnClose 8;
   EvSyscallClose 5].

End Sample.

(** ** Vocabulary for whole runs *)

(** Events that close a descriptor. *)
Definition closing (e : Event) : bool :=
  match e with
  | EvConnClose _ | EvSyscallClose _ => true
  | _ => false
  end.

(** Enabling kernel TLS. *)
Definition is_ktls (e : Event) : bool :=
  match e with
  | EvKTLSEnable _ _ => true
  | _ => false
  end.

(** Whatever the world, [m] only appends events that satisfy [P], leaves
    the injected failures of the map alone, changes the map at keys in [K]
    only, and falls through with values in [V] only. *)
Definition keeps {A : Type} (P : Event → Prop) (K : Z → Prop) (V : A → Prop)
  (m : M A) : Prop :=
  ∀ w, ∃ es,
    trace (m w).2 = trace w ++ es
    ∧ Forall P es
    ∧ map_rejects (hashMap (m w).2) = map_rejects (hashMap w)
    ∧ (∀ k, ¬ K k → entries (m w).2 !! k = entries w !! k)
    ∧ (∀ a, (m w).1 = Ok a → V a).

(** The events lines 86-121 can produce. *)
Definition setup_event (e : Event) : bool :=
  match e with
  | EvLog _ | EvHandshake _ | EvDial | EvMapUpdate _ _ _ => true
  | _ => false
  end.

(** The events lines 123-183 can produce. *)
Definition handoff_event (e : Event) : bool :=
  match e with
  | EvLog _ | EvSetsockopt _ _ | EvKTLSEnable _ _ | EvSpawnDrain _
  | EvEpollCtl _ _ | EvEpollWait _ => true
  | _ => false
  end.

(** The events lines 187-190 can produce. *)
Definition teardown_event (e : Event) : bool :=
  match e with
  | EvLog _ | EvMapDelete _ _ | EvConnClose _ => true
  | _ => false
  end.

(** Lines 123-183: everything between the insertions and the teardown. *)
Definition handoff_wait (env : Env) (inconn : TCPConn) (epfd ifd : Z)
  : M unit :=
  enable_ktls env ifd;;
  err ← tune_buffers env ifd;
  emit (EvSpawnDrain (conn_fd inconn));;
  register_rdhup env epfd ifd err;;
  epoll_wait_loop epfd (env_EpollWait env).

(** Lines 86-183: the handler up to the teardown; the value is [outconn]. *)
Definition HandleConn_until_close {L : NetLib} (env : Env) (inconn : TCPConn)
  (epfd : Z) : M TCPConn :=
  '(outconn, ifd, _) ← HandleConn_setup env inconn;
  handoff_wait env inconn epfd ifd;;
  mret outconn.

(** The keys a handler for [inconn] may write: the key of [inconn] and the
    key of the connection the dial returns. *)
Definition pair_keys {L : NetLib} (env : Env) (inconn : TCPConn) (k : Z)
  : Prop :=
  k = conn_key inconn
  ∨ ∃ outconn, env_DialTCP env = inr outconn ∧ k = conn_key outconn.

(** The first of the four descriptor look-ups of lines 110-111 that fails,
    in the order the code makes them. *)
Definition getFD_error (env : Env) (inconn outconn : TCPConn) : option error :=
  match env_SyscallConn env outconn with
  | Some e => Some e
  | None =>
  match env_Control env outconn with
  | Some e => Some e
  | None =>
  match env_SyscallConn env inconn with
  | Some e => Some e
  | None => env_Control env inconn
  end end end.

(** All five registration attempts fail. *)
Definition never_registers (env : Env) : Prop :=
  ∀ i, (i < 5)%nat → env_EpollCtl env i ≠ None.

(** The wait is interrupted [n] times and then fails with [r], which is
    not an interruption. *)
Definition wait_fails (env : Env) (n : nat) (r : WaitResult) : Prop :=
  (∃ rest, env_EpollWait env = replicate n (WaitErrno EINTR) ++ r :: rest)
  ∧ match r with
    | WaitNil => False
    | WaitErrno errno => errno ≠ EINTR
    | WaitOther _ => True
    end.

(** What [log.Fatal] prints for a failed wait. *)
Definition wait_error_text (r : WaitResult) : list string :=
  match r with
  | WaitOther err => [err]
  | _ => ["errno"]
  end.

(** The wrapper [Conn] as a whole stream: the peeked bytes, then what the
    connection below still holds. *)
Definition conn_pending {C : Type} {Rd : IoReader C} {Laws : IoReaderLaws C}
  (c : Conn C) : list byte :=
  default [] (Peeked c) ++ io_pending (Conn_inner c).

(** The connections a handler was started for, in order. *)
Definition handlers (t : list Action) : list TCPConn :=
  omap (λ a, match a with AcGoHandleConn c => Some c | _ => None end) t.

(** The connections accepted before [AcceptTCP] fails for the first
    time. *)
Fixpoint accepted (answers : list (TCPConn + error)) : list TCPConn :=
  match answers with
  | inl c :: answers' => c :: accepted answers'
  | _ => []
  end.

(** Some [AcceptTCP] call fails. *)
Definition accept_fails (answers : list (TCPConn + error)) : bool :=
  existsb (λ a, match a with inr _ => true | inl _ => false end) answers.

(** The programs are loaded and attached. *)
Definition attached (env : MainEnv) : Prop :=
  menv_RemoveMemlock env = None
  ∧ menv_loadBpfObjects env = None
  ∧ menv_RawAttachProgram env ProgVerdict = None
  ∧ menv_RawAttachProgram env ProgParser = None.

(** Every call of [main] before its loop succeeds. *)
Definition listening (env : MainEnv) : Prop :=
  attached env
  ∧ menv_ResolveTCPAddr env = None
  ∧ menv_ListenTCP env = None.

(** One of the two deferred calls of [main]. *)
Definition is_close (a : Action) : bool :=
  match a with
  | AcObjsClose | AcListenerClose => true
  | _ => false
  end.

(** The readers [nc] started, by number. *)
Definition readers (t : list Action) : list nat :=
  omap (λ a, match a with AcGoReader i => Some i | _ => None end) t.

(** The connections [nc] accepts before [Accept] fails for the first
    time, counted. *)
Fixpoint nc_accepted (answers : list (option error)) : nat :=
  match answers with
  | None :: answers' => S (nc_accepted answers')
  | _ => O
  end.

Definition nc_accept_fails (answers : list (option error)) : bool :=
  existsb (λ a, match a with Some _ => true | None => false end) answers.

(** The bytes in the lines a reader of [nc] has logged, in order. *)
Definition logged_bytes (lines : list Action) : list byte :=
  concat (omap (λ a, match a with AcLogRead _ b => Some b | _ => None end)
               lines).

(** A line [log.Printf("8080: %d / %s", n, b[:n])] of a reader of [nc]:
    the number is the number of bytes shown, at most the 1024 of [b]. *)
Definition read_line (a : Action) : Prop :=
  match a with
  | AcLogRead n bytes => n = length bytes ∧ (n ≤ 1024)%nat
  | _ => False
  end.

(** [recordHeaderLen + recLen] for a record header, as a number. *)
Definition record_total (hdr : list byte) : nat :=
  5 + 256 * N.to_nat (Byte.to_N (index hdr 3))
    + N.to_nat (Byte.to_N (index hdr 4)).

(** * Properties *)

(** ** Arithmetic of the key *)

Section KeyArithmetic.

Lemma land_below_shiftl (a b k : Z) :
  0 <= k → 0 <= a < 2 ^ k → Z.land a (Z.shiftl b k) = 0.
Proof.
  intros Hk Ha. apply Z.bits_inj'. intros i Hi.
  rewrite Z.land_spec, Z.bits_0.
  destruct (Z.lt_ge_cases i k) as [Hlt | Hge].
  - rewrite Z.shiftl_spec_low by lia. apply andb_false_r.
  - rewrite <- (Z.mod_small a (2 ^ k)) by lia.
    rewrite Z.mod_pow2_bits_high by lia. reflexivity.
Qed.

Lemma lor_shiftl_add (a b k : Z) :
  0 <= k → 0 <= a < 2 ^ k → Z.lor a (Z.shiftl b k) = a + b * 2 ^ k.
Proof.
  intros Hk Ha.
  pose proof (Z.add_lor_land a (Z.shiftl b k)) as Hadd.
  rewrite land_below_shiftl in Hadd by assumption.
  rewrite <- (Z.shiftl_mul_pow2 b k) by assumption. lia.
Qed.

Lemma lor_mul_add_l (a b k : Z) :
  0 <= k → 0 <= a < 2 ^ k → Z.lor (b * 2 ^ k) a = a + b * 2 ^ k.
Proof.
  intros Hk Ha. rewrite Z.lor_comm.
  rewrite <- (lor_shiftl_add a b k) by assumption.
  now rewrite Z.shiftl_mul_pow2.
Qed.

Lemma land_shifted_mask (v m k : Z) :
  0 <= k → Z.land v (Z.shiftl m k) = Z.shiftl (Z.land (Z.shiftr v k) m) k.
Proof.
  intros Hk. apply Z.bits_inj'. intros i Hi.
  rewrite Z.land_spec.
  destruct (Z.lt_ge_cases i k) as [Hlt | Hge].
  - rewrite !Z.shiftl_spec_low by lia. apply andb_false_r.
  - rewrite !Z.shiftl_spec by lia. rewrite Z.land_spec.
    rewrite Z.shiftr_spec by lia. do 2 f_equal. lia.
Qed.

Lemma byte_bounds (v : Z) : 0 <= v mod 256 < 256.
Proof. apply Z.mod_pos_bound. lia. Qed.

(** The little-endian reading of four bytes as [LittleEndian_Uint32]
    computes it. *)
Lemma LittleEndian_Uint32_value (b : byte4) :
  0 <= el0 b < 256 → 0 <= el1 b < 256 →
  0 <= el2 b < 256 → 0 <= el3 b < 256 →
  LittleEndian_Uint32 b
  = Spec.little_endian_value [el0 b; el1 b; el2 b; el3 b].
Proof.
  intros H0 H1 H2 H3.
  unfold LittleEndian_Uint32, GoInt.uint32_shl, GoInt.to_uint32.
  rewrite !Z.shiftl_mul_pow2 by lia.
  rewrite !Z.mod_small by lia.
  rewrite <- !Z.shiftl_mul_pow2 by lia.
  rewrite (lor_shiftl_add (el0 b) (el1 b) 8) by lia.
  rewrite (lor_shiftl_add _ (el2 b) 16) by lia.
  rewrite (lor_shiftl_add _ (el3 b) 24) by lia.
  simpl Spec.little_endian_value. lia.
Qed.

Lemma BigEndian_PutUint32_bytes (v : Z) :
  let b := BigEndian_PutUint32 v in
  [el0 b; el1 b; el2 b; el3 b] = Spec.big_endian_bytes v.
Proof.
  simpl. unfold GoInt.to_byte, Spec.big_endian_bytes.
  rewrite !Z.shiftr_div_pow2 by lia. reflexivity.
Qed.

(** [be32] is the specification's "big-endian bytes read as
    little-endian". *)
Lemma be32_value (n : Z) :
  0 <= n < 2 ^ 32 →
  be32 n = Spec.little_endian_value (Spec.big_endian_bytes n).
Proof.
  intros Hn. unfold be32, GoInt.to_uint32. rewrite Z.mod_small by lia.
  rewrite LittleEndian_Uint32_value; cbn [BigEndian_PutUint32 el0 el1 el2 el3];
    unfold GoInt.to_byte; try apply byte_bounds.
  apply (f_equal Spec.little_endian_value), BigEndian_PutUint32_bytes.
Qed.

Lemma swapped_value_range (n : Z) :
  0 <= Spec.little_endian_value (Spec.big_endian_bytes n) < 2 ^ 32.
Proof.
  unfold Spec.big_endian_bytes. simpl Spec.little_endian_value.
  pose proof (byte_bounds (n / 2 ^ 24)). pose proof (byte_bounds (n / 2 ^ 16)).
  pose proof (byte_bounds (n / 2 ^ 8)). pose proof (byte_bounds n). lia.
Qed.

(** ... and that is a byte swap. *)
Lemma swapped_value_byte_swap (n : Z) :
  Spec.little_endian_value (Spec.big_endian_bytes n) = Spec.byte_swap32 n.
Proof.
  unfold Spec.byte_swap32.
  change 65280 with (Z.shiftl 255 8). rewrite !land_shifted_mask by lia.
  change 255 with (Z.ones 8). rewrite !Z.land_ones by lia.
  rewrite !Z.shiftr_shiftr by lia. rewrite !Z.shiftl_shiftl by lia.
  rewrite !Z.shiftr_div_pow2 by lia. rewrite !Z.shiftl_mul_pow2 by lia.
  change (8 + 8) with 16.
  pose proof (byte_bounds (n / 2 ^ 24)). pose proof (byte_bounds (n / 2 ^ 16)).
  pose proof (byte_bounds (n / 2 ^ 8)). pose proof (byte_bounds n).
  change 256 with (2 ^ 8) in *.
  rewrite (lor_mul_add_l ((n / 2 ^ 8) mod 2 ^ 8 * 2 ^ 16) (n mod 2 ^ 8) 24) by lia.
  rewrite (lor_mul_add_l ((n / 2 ^ 24) mod 2 ^ 8) ((n / 2 ^ 16) mod 2 ^ 8) 8) by lia.
  replace ((n / 2 ^ 8) mod 2 ^ 8 * 2 ^ 16 + n mod 2 ^ 8 * 2 ^ 24)
    with (((n / 2 ^ 8) mod 2 ^ 8 + n mod 2 ^ 8 * 2 ^ 8) * 2 ^ 16) by lia.
  rewrite lor_mul_add_l by lia.
  unfold Spec.big_endian_bytes. simpl Spec.little_endian_value.
  change 256 with (2 ^ 8). lia.
Qed.

(** The key of a valid port pair, as a sum. *)
Lemma redirect_key_sum (l r : Z) :
  0 <= l →
  Spec.redirect_key l r
  = l * 2 ^ 32 + Spec.little_endian_value (Spec.big_endian_bytes r).
Proof.
  intros Hl. unfold Spec.redirect_key.
  pose proof (swapped_value_range r).
  rewrite Z.lor_comm, lor_shiftl_add by lia. lia.
Qed.

Lemma swapped_port (r : Z) :
  Spec.valid_port r →
  Spec.little_endian_value (Spec.big_endian_bytes r)
  = (r / 256) * 2 ^ 16 + (r mod 256) * 2 ^ 24.
Proof.
  intros Hr. unfold Spec.valid_port in Hr.
  unfold Spec.big_endian_bytes. simpl Spec.little_endian_value.
  rewrite (Z.div_small r (2 ^ 24)), (Z.div_small r (2 ^ 16)) by lia.
  change (2 ^ 8) with 256.
  rewrite (Z.mod_small (r / 256) 256)
    by (split; [apply Z.div_pos; lia | apply Z.div_lt_upper_bound; lia]).
  rewrite Z.mod_0_l by lia. lia.
Qed.

(** Distinct valid port pairs have distinct keys. *)
Lemma redirect_key_inj (l1 r1 l2 r2 : Z) :
  Spec.valid_port l1 → Spec.valid_port r1 →
  Spec.valid_port l2 → Spec.valid_port r2 →
  Spec.redirect_key l1 r1 = Spec.redirect_key l2 r2 →
  l1 = l2 ∧ r1 = r2.
Proof.
  intros Hl1 Hr1 Hl2 Hr2.
  rewrite !redirect_key_sum by (unfold Spec.valid_port in *; lia).
  rewrite !swapped_port by assumption.
  unfold Spec.valid_port in *.
  pose proof (byte_bounds r1). pose proof (byte_bounds r2).
  pose proof (Z.div_mod r1 256 ltac:(lia)).
  pose proof (Z.div_mod r2 256 ltac:(lia)).
  assert (0 <= r1 / 256 < 256)
    by (split; [apply Z.div_pos; lia | apply Z.div_lt_upper_bound; lia]).
  assert (0 <= r2 / 256 < 256)
    by (split; [apply Z.div_pos; lia | apply Z.div_lt_upper_bound; lia]).
  lia.
Qed.

End KeyArithmetic.

(** ** Running the handler *)

Section Primitives.

Lemma add_events_nil (w : World) : add_events w [] = w.
Proof. destruct w. unfold add_events. simpl. now rewrite app_nil_r. Qed.

Lemma add_events_app (w : World) (es es' : list Event) :
  add_events (add_events w es) es' = add_events w (es ++ es').
Proof. unfold add_events. simpl. now rewrite app_assoc. Qed.

Lemma bind_run {A B : Type} (m : M A) (f : A → M B) (w : World) :
  (m ≫= f) w
  = match m w with
    | (Ok a, w') => f a w'
    | (Returned, w') => (Returned, w')
    | (Fatal, w') => (Fatal, w')
    | (Blocked, w') => (Blocked, w')
    end.
Proof. reflexivity. Qed.

Lemma ret_run {A : Type} (a : A) (w : World) :
  (mret a : M A) w = (Ok a, w).
Proof. reflexivity. Qed.

Lemma emit_run (e : Event) (w : World) :
  emit e w = (Ok tt, add_events w [e]).
Proof. reflexivity. Qed.

Lemma log_Println_run (args : list string) (w : World) :
  log_Println args w = (Ok tt, add_events w [EvLog args]).
Proof. reflexivity. Qed.

Lemma log_Fatal_run {A : Type} (args : list string) (w : World) :
  log_Fatal (A := A) args w = (Fatal, add_events w [EvLog args]).
Proof. reflexivity. Qed.

Lemma go_return_run {A : Type} (w : World) :
  go_return (A := A) w = (Returned, w).
Proof. reflexivity. Qed.

Lemma block_forever_run {A : Type} (w : World) :
  block_forever (A := A) w = (Blocked, w).
Proof. reflexivity. Qed.

Lemma fatal_on_None (w : World) : fatal_on None w = (Ok tt, w).
Proof. reflexivity. Qed.

Lemma fatal_on_Some (e : error) (w : World) :
  fatal_on (Some e) w = (Fatal, add_events w [EvLog [e]]).
Proof. reflexivity. Qed.

End Primitives.

(** One step of symbolic execution after another. *)
Ltac run_steps :=
  repeat (rewrite ?bind_run, ?ret_run, ?fatal_on_None, ?fatal_on_Some,
            ?emit_run, ?log_Println_run, ?log_Fatal_run, ?go_return_run,
            ?block_forever_run;
          cbn beta iota);
  rewrite ?add_events_app; cbn [app].

Section Running.
Context {L : NetLib}.

(** [getKey] always comes back, with [conn_key] and at most a log line. *)
Lemma getKey_run (conn : TCPConn) (w : World) :
  getKey conn w = (Ok (conn_key conn), add_events w (getKey_log conn)).
Proof.
  unfold getKey, conn_key, port_pair, getKey_log, key_of_ports.
  destruct (SplitHostPort (LocalAddr conn)) as [e | [h lp]]; [reflexivity |].
  destruct (SplitHostPort (RemoteAddr conn)) as [e | [h' rp]]; [reflexivity |].
  destruct (Atoi lp) as [e | l].
  { destruct (Atoi rp); reflexivity. }
  destruct (Atoi rp) as [e | r]; [reflexivity |].
  now rewrite add_events_nil.
Qed.

Lemma getKey_log_port_pair (conn : TCPConn) (p : Z * Z) :
  port_pair conn = Some p → getKey_log conn = [].
Proof.
  unfold port_pair, getKey_log.
  destruct (SplitHostPort (LocalAddr conn)) as [e | [h lp]]; [discriminate |].
  destruct (SplitHostPort (RemoteAddr conn)) as [e | [h' rp]]; [discriminate |].
  destruct (Atoi lp) as [e | l]; [discriminate |].
  destruct (Atoi rp) as [e | r]; [discriminate | reflexivity].
Qed.

Lemma getKey_log_no_pair (conn : TCPConn) :
  port_pair conn = None → ∃ err, getKey_log conn = [EvLog [err]].
Proof.
  unfold port_pair, getKey_log.
  destruct (SplitHostPort (LocalAddr conn)) as [e | [h lp]]; [eauto |].
  destruct (SplitHostPort (RemoteAddr conn)) as [e | [h' rp]]; [eauto |].
  destruct (Atoi lp) as [e | l]; [eauto |].
  destruct (Atoi rp) as [e | r]; [eauto | discriminate].
Qed.

(** The key expression on valid ports is the key of the specification. *)
Lemma key_of_ports_valid (l r : Z) :
  Spec.valid_port l → Spec.valid_port r →
  key_of_ports l r = Spec.redirect_key l r.
Proof.
  unfold Spec.valid_port. intros Hl Hr.
  unfold key_of_ports, Spec.redirect_key.
  rewrite be32_value by lia.
  pose proof (swapped_value_range r) as Hsw.
  unfold GoInt.int_shl, GoInt.to_int, GoInt.to_uint64.
  rewrite Z.shiftl_mul_pow2 by lia.
  rewrite (Z.mod_small (l * 2 ^ 32 + 2 ^ 63)) by lia.
  rewrite !Z.mod_small by lia.
  do 2 f_equal. lia.
Qed.

Lemma conn_key_established (conn : TCPConn) (l r : Z) :
  port_pair conn = Some (l, r) → Spec.valid_port l → Spec.valid_port r →
  conn_key conn = Spec.redirect_key l r.
Proof.
  intros Hp Hl Hr. unfold conn_key. rewrite Hp.
  now apply key_of_ports_valid.
Qed.

Lemma hashMap_Update_accepted (key value : Z) (w : World) :
  map_rejects (hashMap w) key = false →
  hashMap_Update key value w = (Ok None, updated w key value).
Proof.
  intros Hr. unfold hashMap_Update, Map_Update. now rewrite Hr.
Qed.

Lemma hashMap_Update_rejected (key value : Z) (w : World) :
  map_rejects (hashMap w) key = true →
  hashMap_Update key value w
  = (Ok (Some ErrUpdate),
     add_events w [EvMapUpdate key value (Some ErrUpdate)]).
Proof.
  intros Hr. unfold hashMap_Update, Map_Update. now rewrite Hr.
Qed.

(** [Delete] gives its result and never stops the caller. *)
Lemma hashMap_Delete_run (key : Z) (w : World) :
  hashMap_Delete key w = (Ok (delete_error w key), deleted w key).
Proof.
  unfold hashMap_Delete, Map_Delete, deleted, delete_error, entries.
  destruct (map_entries (hashMap w) !! key) eqn:Hk; [reflexivity |].
  rewrite delete_id by assumption. now destruct w as [[m r] t].
Qed.

(** Lines 110-121 when both descriptors are available and the map takes
    both keys. *)
Lemma install_redirect_accepted (env : Env) (inconn outconn : TCPConn)
  (w : World) :
  paired env inconn outconn →
  accepts_pair (hashMap w) inconn outconn →
  install_redirect env inconn outconn w
  = (Ok (conn_fd inconn, conn_fd outconn),
     updated (add_events
                (updated (add_events w (getKey_log outconn))
                   (conn_key outconn) (GoInt.to_uint32 (conn_fd inconn)))
                (getKey_log inconn))
       (conn_key inconn) (GoInt.to_uint32 (conn_fd outconn))).
Proof.
  intros (Hhs & Hres & Hdial & Ho1 & Ho2 & Hi1 & Hi2) [Hao Hai].
  unfold install_redirect, getFD. rewrite Ho1, Ho2, Hi1, Hi2.
  repeat (rewrite ?bind_run, ?fatal_on_None, ?ret_run, ?getKey_run;
          cbn beta iota).
  rewrite hashMap_Update_accepted by exact Hao. cbn beta iota.
  repeat (rewrite ?bind_run, ?fatal_on_None, ?ret_run, ?getKey_run;
          cbn beta iota).
  rewrite hashMap_Update_accepted by exact Hai. reflexivity.
Qed.

(** Lines 110-121 when the map takes the first key and rejects the
    second: [log.Fatal], with the first entry left in the map. *)
Lemma install_redirect_second_rejected (env : Env)
  (inconn outconn : TCPConn) (w : World) :
  paired env inconn outconn →
  map_rejects (hashMap w) (conn_key outconn) = false →
  map_rejects (hashMap w) (conn_key inconn) = true →
  install_redirect env inconn outconn w
  = (Fatal,
     add_events
       (updated (add_events w (getKey_log outconn))
          (conn_key outconn) (GoInt.to_uint32 (conn_fd inconn)))
       (getKey_log inconn
        ++ [EvMapUpdate (conn_key inconn)
              (GoInt.to_uint32 (conn_fd outconn)) (Some ErrUpdate);
            EvLog [ErrUpdate]])).
Proof.
  intros (Hhs & Hres & Hdial & Ho1 & Ho2 & Hi1 & Hi2) Hao Hai.
  unfold install_redirect, getFD. rewrite Ho1, Ho2, Hi1, Hi2.
  repeat (rewrite ?bind_run, ?fatal_on_None, ?ret_run, ?getKey_run;
          cbn beta iota).
  rewrite hashMap_Update_accepted by exact Hao. cbn beta iota.
  repeat (rewrite ?bind_run, ?fatal_on_None, ?ret_run, ?getKey_run;
          cbn beta iota).
  rewrite hashMap_Update_rejected by exact Hai. cbn beta iota.
  rewrite bind_run, fatal_on_Some. now rewrite !add_events_app.
Qed.

Lemma handshake_gate_ok (env : Env) (inconn : TCPConn) (w : World) :
  env_LoadX509KeyPair env = None → env_Handshake env = None →
  handshake_gate env inconn w
  = (Ok tt, add_events w [EvHandshake (conn_fd inconn)]).
Proof.
  intros Hc Hh. unfold handshake_gate. rewrite Hc, Hh. now run_steps.
Qed.

Lemma handshake_gate_failed (env : Env) (inconn : TCPConn) (w : World)
  (err : error) :
  env_LoadX509KeyPair env = None → env_Handshake env = Some err →
  handshake_gate env inconn w
  = (Returned,
     add_events w [EvHandshake (conn_fd inconn); EvLog ["Handshake"; err]]).
Proof.
  intros Hc Hh. unfold handshake_gate. rewrite Hc, Hh.
  now run_steps.
Qed.

Lemma backend_pairing_ok (env : Env) (outconn : TCPConn) (w : World) :
  env_ResolveTCPAddr env = None → env_DialTCP env = inr outconn →
  backend_pairing env w = (Ok outconn, add_events w [EvDial]).
Proof.
  intros Hr Hd. unfold backend_pairing. rewrite Hr, Hd. now run_steps.
Qed.

Lemma backend_pairing_failed (env : Env) (err : error) (w : World) :
  env_ResolveTCPAddr env = None → env_DialTCP env = inl err →
  backend_pairing env w = (Fatal, add_events w [EvDial; EvLog [err]]).
Proof.
  intros Hr Hd. unfold backend_pairing. rewrite Hr, Hd.
  now run_steps.
Qed.

(** Lines 86-121 when everything up to the second insertion succeeds. *)
Lemma HandleConn_setup_ok (env : Env) (inconn outconn : TCPConn)
  (w : World) :
  env_LoadX509KeyPair env = None →
  paired env inconn outconn →
  accepts_pair (hashMap w) inconn outconn →
  HandleConn_setup env inconn w
  = (Ok (outconn, conn_fd inconn, conn_fd outconn),
     installed w inconn outconn).
Proof.
  intros Hc Hp Ha. pose proof Hp as (Hhs & Hres & Hdial & _).
  unfold HandleConn_setup.
  rewrite bind_run, handshake_gate_ok by assumption. cbn beta iota.
  rewrite bind_run, (backend_pairing_ok _ outconn) by assumption.
  cbn beta iota.
  rewrite bind_run, install_redirect_accepted by assumption.
  cbn beta iota. rewrite ret_run. unfold installed.
  now rewrite (add_events_app w [_] [_]).
Qed.

Lemma calm_nil : calm [].
Proof. constructor. Qed.

Lemma calm_cons (e : Event) (es : list Event) :
  calm_event e = true → calm es → calm (e :: es).
Proof. intros He Hes. now constructor. Qed.

Lemma calm_app (es es' : list Event) : calm es → calm es' → calm (es ++ es').
Proof. unfold calm. intros. now apply Forall_app. Qed.

Lemma enable_ktls_ok (env : Env) (ifd : Z) (w : World) :
  ktls_ok env →
  ∃ es, calm es ∧ enable_ktls env ifd w = (Ok tt, add_events w es).
Proof.
  intros [Htx Hrx]. unfold enable_ktls. rewrite Htx, Hrx.
  destruct (env_SetsockoptString env) as [e |];
    run_steps; (eexists; split; [| reflexivity]);
    repeat (apply calm_cons; [reflexivity |]); apply calm_nil.
Qed.

Lemma enable_ktls_failed (env : Env) (ifd : Z) (w : World) (e : error) :
  ktls_fails env e →
  ∃ es, calm es ∧ enable_ktls env ifd w = (Fatal, add_events w es).
Proof.
  intros [Htx | [Htx Hrx]]; unfold enable_ktls; rewrite Htx, ?Hrx;
    destruct (env_SetsockoptString env) as [e' |];
    run_steps; (eexists; split; [| reflexivity]);
    repeat (apply calm_cons; [reflexivity |]); apply calm_nil.
Qed.

(** Lines 139-147 never stop the handler. *)
Lemma tune_buffers_run (env : Env) (ifd : Z) (w : World) :
  ∃ es, calm es
        ∧ tune_buffers env ifd w
          = (Ok (env_SetsockoptInt env SO_RCVBUF), add_events w es).
Proof.
  unfold tune_buffers.
  destruct (env_SetsockoptInt env SO_SNDBUF) as [e |];
    destruct (env_SetsockoptInt env SO_RCVBUF) as [e' |];
    run_steps; (eexists; split; [| reflexivity]);
    repeat (apply calm_cons; [reflexivity |]); apply calm_nil.
Qed.

Lemma epoll_ctl_loop_succeeds (env : Env) (epfd ifd : Z) (n : nat) :
  ∀ (i0 : nat) (err : option error) (w : World),
    (∃ i, (i0 ≤ i < i0 + n)%nat ∧ env_EpollCtl env i = None) →
    ∃ es, calm es
          ∧ epoll_ctl_loop env epfd ifd n i0 err w
            = (Ok None, add_events w es).
Proof.
  induction n as [| n IH]; intros i0 err w (i & Hi & Hnone).
  - lia.
  - cbn [epoll_ctl_loop]. rewrite bind_run, emit_run. cbn beta iota.
    destruct (env_EpollCtl env i0) as [e |] eqn:Hi0.
    + destruct (IH (S i0) (Some e) (add_events w [EvEpollCtl epfd ifd]))
        as (es & Hcalm & Hrun).
      { exists i. split; [| assumption].
        assert (i ≠ i0) by congruence. lia. }
      exists (EvEpollCtl epfd ifd :: es). split.
      * now apply calm_cons.
      * rewrite Hrun. now rewrite add_events_app.
    + exists [EvEpollCtl epfd ifd]. split; [| reflexivity].
      apply calm_cons; [reflexivity | apply calm_nil].
Qed.

Lemma register_rdhup_ok (env : Env) (epfd ifd : Z) (err : option error)
  (w : World) :
  registers env →
  ∃ es, calm es ∧ register_rdhup env epfd ifd err w = (Ok tt, add_events w es).
Proof.
  intros (i & Hi & Hnone). unfold register_rdhup.
  destruct (epoll_ctl_loop_succeeds env epfd ifd 5 0 err w)
    as (es & Hcalm & Hrun).
  { exists i. split; [lia | assumption]. }
  exists es. split; [assumption |].
  rewrite bind_run, Hrun. reflexivity.
Qed.

Lemma epoll_wait_loop_ready (epfd : Z) (n : nat) (rest : list WaitResult) :
  ∀ w, ∃ es, calm es
             ∧ epoll_wait_loop epfd
                 (replicate n (WaitErrno EINTR) ++ WaitNil :: rest) w
               = (Ok tt, add_events w es).
Proof.
  induction n as [| n IH]; intros w.
  - exists [EvEpollWait epfd]. split; [| reflexivity].
    apply calm_cons; [reflexivity | apply calm_nil].
  - destruct (IH (add_events w [EvEpollWait epfd;
                                EvLog ["interrupted syscall, retry"]]))
      as (es & Hcalm & Hrun).
    exists ([EvEpollWait epfd; EvLog ["interrupted syscall, retry"]] ++ es).
    split.
    + apply calm_app; [| assumption].
      repeat (apply calm_cons; [reflexivity |]); apply calm_nil.
    + rewrite <- add_events_app, <- Hrun. cbn [replicate app epoll_wait_loop].
      rewrite bind_run, emit_run. cbn beta iota.
      change (EINTR =? EINTR) with true. cbn beta iota.
      rewrite bind_run, log_Println_run. cbn beta iota.
      now rewrite add_events_app.
Qed.

Lemma epoll_wait_loop_pending (epfd : Z) (n : nat) :
  ∀ w, ∃ es, calm es
             ∧ epoll_wait_loop epfd (replicate n (WaitErrno EINTR)) w
               = (Blocked, add_events w es).
Proof.
  induction n as [| n IH]; intros w.
  - exists [EvEpollWait epfd]. split; [| reflexivity].
    apply calm_cons; [reflexivity | apply calm_nil].
  - destruct (IH (add_events w [EvEpollWait epfd;
                                EvLog ["interrupted syscall, retry"]]))
      as (es & Hcalm & Hrun).
    exists ([EvEpollWait epfd; EvLog ["interrupted syscall, retry"]] ++ es).
    split.
    + apply calm_app; [| assumption].
      repeat (apply calm_cons; [reflexivity |]); apply calm_nil.
    + rewrite <- add_events_app, <- Hrun. cbn [replicate epoll_wait_loop].
      rewrite bind_run, emit_run. cbn beta iota.
      change (EINTR =? EINTR) with true. cbn beta iota.
      rewrite bind_run, log_Println_run. cbn beta iota.
      now rewrite add_events_app.
Qed.

(** Lines 187-190 from any world: two deletions, then two closes. *)
Lemma teardown_run (inconn outconn : TCPConn) (w : World) :
  teardown inconn outconn w
  = (Ok tt,
     add_events
       (deleted
          (add_events (deleted (add_events w (getKey_log inconn))
                         (conn_key inconn))
             (getKey_log outconn))
          (conn_key outconn))
       [EvConnClose (conn_fd inconn); EvConnClose (conn_fd outconn)]).
Proof.
  unfold teardown.
  repeat (rewrite ?bind_run, ?getKey_run, ?hashMap_Delete_run, ?emit_run;
          cbn beta iota).
  now rewrite add_events_app.
Qed.

End Running.

(** ** Key derivation *)

Section KeyDerivation.
Context {L : NetLib}.

(** C3.  For a connection whose addresses carry the valid port pair
    [(l, r)], [getKey] returns, without any effect on the world, the key
    of the specification: [l] shifted into the high 32 bits, or-ed with
    the big-endian bytes of [r] read as a little-endian number, which is
    the byte swap of [r].  The high half of the key is [l], the low half
    the swapped [r], and every connection with the same port pair gets
    the same key. *)
Theorem getKey_redirect_key (conn : TCPConn) (l r : Z) (w : World) :
  port_pair conn = Some (l, r) →
  Spec.valid_port l → Spec.valid_port r →
  getKey conn w = (Ok (Spec.redirect_key l r), w)
  ∧ Spec.redirect_key l r = Z.lor (Z.shiftl l 32) (Spec.byte_swap32 r)
  ∧ Spec.redirect_key l r / 2 ^ 32 = l
  ∧ Spec.redirect_key l r mod 2 ^ 32 = Spec.byte_swap32 r
  ∧ ∀ conn' w', port_pair conn' = Some (l, r) →
                fst (getKey conn' w') = Ok (Spec.redirect_key l r).
Proof.
  intros Hp Hl Hr.
  pose proof (swapped_value_range r) as Hrange.
  assert (Hl0 : 0 <= l) by (unfold Spec.valid_port in Hl; lia).
  repeat split.
  - rewrite getKey_run, (getKey_log_port_pair _ _ Hp), add_events_nil.
    now rewrite (conn_key_established _ _ _ Hp Hl Hr).
  - unfold Spec.redirect_key. now rewrite swapped_value_byte_swap.
  - rewrite redirect_key_sum by assumption.
    rewrite Z.add_comm, Z.div_add by lia.
    rewrite Z.div_small by lia. lia.
  - rewrite redirect_key_sum by assumption.
    rewrite Z.add_comm, Z.mod_add by lia.
    rewrite Z.mod_small by lia. apply swapped_value_byte_swap.
  - intros conn' w' Hp'. rewrite getKey_run. cbn [fst].
    now rewrite (conn_key_established _ _ _ Hp' Hl Hr).
Qed.

(** C10.  When the port pair of a connection cannot be read off its
    addresses, [getKey] hands the caller the key 0 and no error: all that
    happens is one line in the log.  Any other such connection gets the
    same key. *)
Theorem getKey_unparsed_zero (conn : TCPConn) (w : World) :
  port_pair conn = None →
  (∃ err, getKey conn w = (Ok 0, add_events w [EvLog [err]]))
  ∧ ∀ conn' w', port_pair conn' = None →
                fst (getKey conn' w') = Ok 0
                ∧ fst (getKey conn' w') = fst (getKey conn w).
Proof.
  intros Hp. split.
  - destruct (getKey_log_no_pair _ Hp) as [err Hlog].
    exists err. rewrite getKey_run, Hlog. unfold conn_key. now rewrite Hp.
  - intros conn' w' Hp'. rewrite !getKey_run. cbn [fst].
    unfold conn_key. now rewrite Hp, Hp'.
Qed.

End KeyDerivation.

Lemma getKey_redirect_key_witness :
  getKey (L := GoNet.lib) Sample.inconn Sample.world
  = (Ok (Spec.redirect_key 443 51000), Sample.world)
  ∧ Spec.redirect_key 443 51000
    = Z.lor (Z.shiftl 443 32) (Spec.byte_swap32 51000)
  ∧ Spec.redirect_key 443 51000 / 2 ^ 32 = 443
  ∧ Spec.redirect_key 443 51000 mod 2 ^ 32 = Spec.byte_swap32 51000
  ∧ ∀ conn' w', port_pair (L := GoNet.lib) conn' = Some (443, 51000) →
                fst (getKey (L := GoNet.lib) conn' w')
                = Ok (Spec.redirect_key 443 51000).
Proof.
  apply (getKey_redirect_key (L := GoNet.lib) Sample.inconn 443 51000
           Sample.world).
  - reflexivity.
  - unfold Spec.valid_port. lia.
  - unfold Spec.valid_port. lia.
Defined.

Lemma getKey_unparsed_zero_witness :
  (∃ err, getKey (L := GoNet.lib) (Sample.unparsed 9) Sample.world
          = (Ok 0, add_events Sample.world [EvLog [err]]))
  ∧ ∀ conn' w', port_pair (L := GoNet.lib) conn' = None →
                fst (getKey (L := GoNet.lib) conn' w') = Ok 0
                ∧ fst (getKey (L := GoNet.lib) conn' w')
                  = fst (getKey (L := GoNet.lib) (Sample.unparsed 9)
                           Sample.world).
Proof.
  apply (getKey_unparsed_zero (L := GoNet.lib) (Sample.unparsed 9) Sample.world).
  reflexivity.
Defined.

(** ** The connection handler *)

Section Handler.
Context {L : NetLib}.

Lemma HandleConn_run (env : Env) (inconn : TCPConn) (epfd : Z) (w : World) :
  set_up env epfd →
  HandleConn env inconn w
  = with_defer (emit (EvSyscallClose epfd))
      (HandleConn_body env inconn epfd) (add_events w [EvEpollCreate]).
Proof.
  intros [Hep _]. unfold HandleConn. rewrite Hep. now run_steps.
Qed.

Lemma with_defer_bind {A : Type} (d : M unit) (m : M A) (f : A → M unit)
  (w w' : World) (a : A) :
  m w = (Ok a, w') → with_defer d (m ≫= f) w = with_defer d (f a) w'.
Proof.
  intros Hm. unfold with_defer. now rewrite bind_run, Hm.
Qed.

Lemma with_defer_stopped {A : Type} (d : M unit) (m : M A) (f : A → M unit)
  (w w' : World) (o : Outcome A) :
  m w = (o, w') → o = Fatal ∨ o = Blocked →
  with_defer d (m ≫= f) w
  = (match o with Fatal => Fatal | _ => Blocked end, w').
Proof.
  intros Hm [-> | ->]; unfold with_defer; now rewrite bind_run, Hm.
Qed.

(** With both insertions accepted the handler reaches line 123 in the
    world [installed]. *)
Lemma HandleConn_reaches_handoff (env : Env) (inconn outconn : TCPConn)
  (epfd : Z) (w : World) :
  set_up env epfd →
  paired env inconn outconn →
  accepts_pair (hashMap w) inconn outconn →
  HandleConn env inconn w
  = with_defer (emit (EvSyscallClose epfd))
      (HandleConn_handoff env inconn outconn epfd (conn_fd inconn))
      (installed (add_events w [EvEpollCreate]) inconn outconn).
Proof.
  intros Hs Hp Ha. rewrite (HandleConn_run _ _ epfd) by assumption.
  destruct Hs as [_ Hc]. unfold HandleConn_body.
  now rewrite (with_defer_bind _ _ _ _ _ _
                 (HandleConn_setup_ok env inconn outconn
                    (add_events w [EvEpollCreate]) Hc Hp Ha)).
Qed.

Lemma entries_installed (w : World) (inconn outconn : TCPConn) :
  entries (installed w inconn outconn)
  = <[conn_key inconn := GoInt.to_uint32 (conn_fd outconn)]>
      (<[conn_key outconn := GoInt.to_uint32 (conn_fd inconn)]> (entries w)).
Proof. reflexivity. Qed.

Lemma to_uint32_fd (conn : TCPConn) :
  established conn → GoInt.to_uint32 (conn_fd conn) = conn_fd conn.
Proof.
  intros [Hfd _]. unfold GoInt.to_uint32. apply Z.mod_small. lia.
Qed.

(** Established connections with different port pairs have different
    keys. *)
Lemma conn_key_distinct (c1 c2 : TCPConn) :
  established c1 → established c2 →
  port_pair c1 ≠ port_pair c2 → conn_key c1 ≠ conn_key c2.
Proof.
  intros (_ & l1 & r1 & Hp1 & Hl1 & Hr1) (_ & l2 & r2 & Hp2 & Hl2 & Hr2) Hne.
  rewrite (conn_key_established _ _ _ Hp1 Hl1 Hr1).
  rewrite (conn_key_established _ _ _ Hp2 Hl2 Hr2).
  intros Heq. apply redirect_key_inj in Heq as [-> ->]; try assumption.
  apply Hne. now rewrite Hp1, Hp2.
Qed.

(** C2.  When handshake and dial have succeeded and the map has taken
    both insertions, the handler arrives at line 123 with the key of the
    backend connection mapped to the client descriptor and the key of
    the client connection mapped to the backend descriptor.  The two
    keys differ, so these are two entries; no other key has changed; and
    neither key leads to the descriptor of its own connection. *)
Theorem HandleConn_installs_pair (env : Env) (inconn outconn : TCPConn)
  (epfd : Z) (w : World) :
  set_up env epfd →
  paired env inconn outconn →
  accepts_pair (hashMap w) inconn outconn →
  established inconn → established outconn →
  port_pair inconn ≠ port_pair outconn →
  conn_fd inconn ≠ conn_fd outconn →
  ∃ w',
    HandleConn env inconn w
    = with_defer (emit (EvSyscallClose epfd))
        (HandleConn_handoff env inconn outconn epfd (conn_fd inconn)) w'
    ∧ conn_key inconn ≠ conn_key outconn
    ∧ entries w' !! conn_key outconn = Some (conn_fd inconn)
    ∧ entries w' !! conn_key inconn = Some (conn_fd outconn)
    ∧ (∀ k, k ≠ conn_key inconn → k ≠ conn_key outconn →
            entries w' !! k = entries w !! k)
    ∧ entries w' !! conn_key outconn ≠ Some (conn_fd outconn)
    ∧ entries w' !! conn_key inconn ≠ Some (conn_fd inconn).
Proof.
  intros Hs Hp Ha Hin Hout Hports Hfds.
  pose proof (conn_key_distinct _ _ Hin Hout Hports) as Hkeys.
  exists (installed (add_events w [EvEpollCreate]) inconn outconn).
  split; [now apply HandleConn_reaches_handoff |].
  rewrite entries_installed.
  rewrite (to_uint32_fd _ Hin), (to_uint32_fd _ Hout).
  change (entries (add_events w [EvEpollCreate])) with (entries w).
  split; [assumption |].
  rewrite lookup_insert_ne, !lookup_insert_eq by assumption.
  repeat split; try congruence.
  intros k Hk1 Hk2. now rewrite !lookup_insert_ne by congruence.
Qed.

(** C6 (what the code does).  When the handshake fails the handler logs
    the error and returns.  The deferred close of the epoll descriptor is
    the only close: no [Close] of the client connection is issued, and
    the map is as before. *)
Theorem HandleConn_handshake_failure (env : Env) (inconn : TCPConn)
  (epfd : Z) (err : error) (w : World) :
  set_up env epfd →
  env_Handshake env = Some err →
  HandleConn env inconn w
  = (Returned,
     add_events w [EvEpollCreate; EvHandshake (conn_fd inconn);
                   EvLog ["Handshake"; err]; EvSyscallClose epfd]).
Proof.
  intros Hs Hh. rewrite (HandleConn_run _ _ epfd) by assumption.
  destruct Hs as [_ Hc].
  unfold with_defer, HandleConn_body, HandleConn_setup.
  rewrite !bind_run, (handshake_gate_failed _ _ _ err) by assumption.
  cbn beta iota. now run_steps.
Qed.

(** C4 (as amended).  When the dial fails after a successful handshake
    the handler calls [log.Fatal]: the whole process exits.  Up to that
    point nothing was written to the map and no descriptor was closed. *)
Theorem HandleConn_dial_failure (env : Env) (inconn : TCPConn)
  (epfd : Z) (err : error) (w : World) :
  set_up env epfd →
  env_Handshake env = None →
  env_ResolveTCPAddr env = None →
  env_DialTCP env = inl err →
  HandleConn env inconn w
  = (Fatal,
     add_events w [EvEpollCreate; EvHandshake (conn_fd inconn);
                   EvDial; EvLog [err]]).
Proof.
  intros Hs Hh Hr Hd. rewrite (HandleConn_run _ _ epfd) by assumption.
  destruct Hs as [_ Hc].
  unfold with_defer, HandleConn_body, HandleConn_setup.
  rewrite !bind_run, handshake_gate_ok by assumption. cbn beta iota.
  rewrite !bind_run, (backend_pairing_failed _ err) by assumption.
  cbn beta iota. now run_steps.
Qed.

(** C1 (as amended).  When the map takes the first insertion and rejects
    the second, the handler calls [log.Fatal] and the process exits; the
    first insertion is not undone, so the key of the backend connection
    still leads to the client descriptor, and every other key is as
    before. *)
Theorem HandleConn_second_insert_failure (env : Env)
  (inconn outconn : TCPConn) (epfd : Z) (w : World) :
  set_up env epfd →
  paired env inconn outconn →
  map_rejects (hashMap w) (conn_key outconn) = false →
  map_rejects (hashMap w) (conn_key inconn) = true →
  ∃ w',
    HandleConn env inconn w = (Fatal, w')
    ∧ entries w'
      = <[conn_key outconn := GoInt.to_uint32 (conn_fd inconn)]> (entries w)
    ∧ ∃ es, trace w' = trace w ++ es
            ∧ Forall (λ e, ∀ k err, e ≠ EvMapDelete k err) es.
Proof.
  intros Hs Hp Hao Hai. rewrite (HandleConn_run _ _ epfd) by assumption.
  destruct Hs as [_ Hc]. pose proof Hp as (Hhs & Hres & Hdial & _).
  unfold with_defer, HandleConn_body, HandleConn_setup.
  rewrite !bind_run, handshake_gate_ok by assumption. cbn beta iota.
  rewrite !bind_run, (backend_pairing_ok _ outconn) by assumption.
  cbn beta iota.
  rewrite !bind_run, install_redirect_second_rejected by assumption.
  cbn beta iota. eexists. split; [reflexivity |].
  split; [reflexivity |].
  cbn [trace add_events updated]. rewrite <- !app_assoc.
  eexists. split; [reflexivity |].
  repeat (apply Forall_app; split); repeat constructor; try discriminate.
  all: unfold getKey_log; repeat case_match; repeat constructor;
    discriminate.
Qed.

Lemma handoff_ktls_failed (env : Env) (inconn outconn : TCPConn)
  (epfd ifd : Z) (e : error) (w : World) :
  ktls_fails env e →
  ∃ es, calm es
        ∧ HandleConn_handoff env inconn outconn epfd ifd w
          = (Fatal, add_events w es).
Proof.
  intros Hk. destruct (enable_ktls_failed env ifd w e Hk) as (es & Hc & Hrun).
  exists es. split; [assumption |].
  unfold HandleConn_handoff. now rewrite bind_run, Hrun.
Qed.

(** Lines 123-171: from kernel TLS to the registration. *)
Lemma handoff_registered (env : Env) (inconn : TCPConn) (epfd ifd : Z)
  (w : World) :
  ktls_ok env → registers env →
  ∃ es, calm es
        ∧ (enable_ktls env ifd;;
           err ← tune_buffers env ifd;
           emit (EvSpawnDrain (conn_fd inconn));;
           register_rdhup env epfd ifd err) w
          = (Ok tt, add_events w es).
Proof.
  intros Hk Hr.
  destruct (enable_ktls_ok env ifd w Hk) as (es1 & Hc1 & Hrun1).
  destruct (tune_buffers_run env ifd (add_events w es1))
    as (es2 & Hc2 & Hrun2).
  destruct (register_rdhup_ok env epfd ifd (env_SetsockoptInt env SO_RCVBUF)
              (add_events (add_events (add_events w es1) es2)
                 [EvSpawnDrain (conn_fd inconn)]) Hr)
    as (es3 & Hc3 & Hrun3).
  exists (es1 ++ es2 ++ [EvSpawnDrain (conn_fd inconn)] ++ es3). split.
  - repeat apply calm_app; try assumption.
    apply calm_cons; [reflexivity | apply calm_nil].
  - rewrite bind_run, Hrun1. cbn beta iota.
    rewrite bind_run, Hrun2. cbn beta iota.
    rewrite bind_run, emit_run. cbn beta iota.
    rewrite Hrun3. now rewrite !add_events_app.
Qed.

Lemma handoff_split (env : Env) (inconn outconn : TCPConn) (epfd ifd : Z)
  (w : World) :
  HandleConn_handoff env inconn outconn epfd ifd w
  = match (enable_ktls env ifd;;
           err ← tune_buffers env ifd;
           emit (EvSpawnDrain (conn_fd inconn));;
           register_rdhup env epfd ifd err) w with
    | (Ok _, w') =>
        (epoll_wait_loop epfd (env_EpollWait env);;
         teardown inconn outconn) w'
    | (Returned, w') => (Returned, w')
    | (Fatal, w') => (Fatal, w')
    | (Blocked, w') => (Blocked, w')
    end.
Proof.
  unfold HandleConn_handoff, mbind, M_bind.
  destruct (enable_ktls env ifd w) as [[[] | | |] w1]; try reflexivity.
  destruct (tune_buffers env ifd w1) as [[err | | |] w2]; reflexivity.
Qed.

(** Lines 123-183 when the event never comes: the handler stays in the
    wait. *)
Lemma handoff_pending (env : Env) (inconn outconn : TCPConn) (epfd ifd : Z)
  (n : nat) (w : World) :
  ktls_ok env → registers env → peer_stays env n →
  ∃ es, calm es
        ∧ HandleConn_handoff env inconn outconn epfd ifd w
          = (Blocked, add_events w es).
Proof.
  intros Hk Hr Hw.
  destruct (handoff_registered env inconn epfd ifd w Hk Hr)
    as (es1 & Hc1 & Hrun1).
  destruct (epoll_wait_loop_pending epfd n (add_events w es1))
    as (es2 & Hc2 & Hrun2).
  exists (es1 ++ es2). split; [now apply calm_app |].
  rewrite handoff_split, Hrun1, bind_run, Hw, Hrun2.
  now rewrite add_events_app.
Qed.

(** Lines 123-190 when the event comes after [n] interruptions. *)
Lemma handoff_closed (env : Env) (inconn outconn : TCPConn) (epfd ifd : Z)
  (n : nat) (w : World) :
  ktls_ok env → registers env → peer_closes env n →
  ∃ es, calm es
        ∧ HandleConn_handoff env inconn outconn epfd ifd w
          = teardown inconn outconn (add_events w es).
Proof.
  intros Hk Hr (rest & Hw).
  destruct (handoff_registered env inconn epfd ifd w Hk Hr)
    as (es1 & Hc1 & Hrun1).
  destruct (epoll_wait_loop_ready epfd n rest (add_events w es1))
    as (es2 & Hc2 & Hrun2).
  exists (es1 ++ es2). split; [now apply calm_app |].
  rewrite handoff_split, Hrun1, bind_run, Hw, Hrun2.
  now rewrite add_events_app.
Qed.

Lemma calm_not_close (es : list Event) :
  calm es → Forall (λ e, not_close e = true) es.
Proof.
  unfold calm. intros Hc. eapply Forall_impl; [exact Hc |]. now intros [].
Qed.

Lemma getKey_log_calm (conn : TCPConn) : calm (getKey_log conn).
Proof.
  unfold getKey_log. repeat case_match;
    repeat (apply calm_cons; [reflexivity |]); apply calm_nil.
Qed.

(** C5 (as amended).  With the pair installed:
    - if kernel TLS cannot be enabled, the handler calls [log.Fatal], the
      process exits, and both entries of the pair are still in the map;
    - the results of the two buffer-size calls are only logged: whatever
      they are, the handler goes on to wait for the peer-closed event,
      with both entries in the map. *)
Theorem HandleConn_ktls_or_buffer_failure (env : Env)
  (inconn outconn : TCPConn) (epfd : Z) (w : World) :
  set_up env epfd →
  paired env inconn outconn →
  accepts_pair (hashMap w) inconn outconn →
  (∀ e, ktls_fails env e →
        ∃ w', HandleConn env inconn w = (Fatal, w')
              ∧ entries w' = entries (installed w inconn outconn))
  ∧ (∀ n, ktls_ok env → registers env → peer_stays env n →
          ∃ w', HandleConn env inconn w = (Blocked, w')
                ∧ entries w' = entries (installed w inconn outconn)).
Proof.
  intros Hs Hp Ha.
  pose proof (HandleConn_reaches_handoff env inconn outconn epfd w Hs Hp Ha)
    as Hrun.
  split.
  - intros e Hk.
    destruct (handoff_ktls_failed env inconn outconn epfd (conn_fd inconn) e
                (installed (add_events w [EvEpollCreate]) inconn outconn) Hk)
      as (es & _ & Hh).
    eexists. split.
    + rewrite Hrun. unfold with_defer. rewrite Hh. reflexivity.
    + reflexivity.
  - intros n Hk Hr Hw.
    destruct (handoff_pending env inconn outconn epfd (conn_fd inconn) n
                (installed (add_events w [EvEpollCreate]) inconn outconn)
                Hk Hr Hw)
      as (es & _ & Hh).
    eexists. split.
    + rewrite Hrun. unfold with_defer. rewrite Hh. reflexivity.
    + reflexivity.
Qed.

(** C7.  When the peer-closed event is reported, the handler deletes the
    key of the client connection and the key of the backend connection,
    then closes the client and the backend connection, and returns.  No
    connection is closed before both deletions, neither key is in the map
    afterwards, and the two deletions come back normally from every state
    of the map, also one in which a key is absent. *)
Theorem HandleConn_peer_closed_teardown (env : Env)
  (inconn outconn : TCPConn) (epfd : Z) (n : nat) (w : World) :
  set_up env epfd →
  paired env inconn outconn →
  accepts_pair (hashMap w) inconn outconn →
  ktls_ok env → registers env → peer_closes env n →
  (∃ w' before,
     HandleConn env inconn w = (Ok tt, w')
     ∧ trace w'
       = trace w ++ before
         ++ [EvConnClose (conn_fd inconn); EvConnClose (conn_fd outconn);
             EvSyscallClose epfd]
     ∧ Forall (λ e, not_close e = true) before
     ∧ (∃ e1 e2 mid front,
          before = front ++ [EvMapDelete (conn_key inconn) e1] ++ mid
                   ++ [EvMapDelete (conn_key outconn) e2])
     ∧ entries w' !! conn_key inconn = None
     ∧ entries w' !! conn_key outconn = None)
  ∧ ∀ w0, ∃ w1,
      teardown inconn outconn w0 = (Ok tt, w1)
      ∧ entries w1
        = delete (conn_key outconn) (delete (conn_key inconn) (entries w0)).
Proof.
  intros Hs Hp Ha Hk Hr Hw. split.
  - pose proof (HandleConn_reaches_handoff env inconn outconn epfd w Hs Hp Ha)
      as Hrun.
    destruct (handoff_closed env inconn outconn epfd (conn_fd inconn) n
                (installed (add_events w [EvEpollCreate]) inconn outconn)
                Hk Hr Hw)
      as (es & Hcalm & Hh).
    rewrite teardown_run in Hh.
    set (wi := installed (add_events w [EvEpollCreate]) inconn outconn) in *.
    set (w0 := add_events (add_events wi es) (getKey_log inconn)) in *.
    set (w1 := add_events (deleted w0 (conn_key inconn)) (getKey_log outconn))
      in *.
    set (front := [EvEpollCreate] ++ [EvHandshake (conn_fd inconn); EvDial]
                  ++ getKey_log outconn
                  ++ [EvMapUpdate (conn_key outconn)
                        (GoInt.to_uint32 (conn_fd inconn)) None]
                  ++ getKey_log inconn
                  ++ [EvMapUpdate (conn_key inconn)
                        (GoInt.to_uint32 (conn_fd outconn)) None]
                  ++ es ++ getKey_log inconn).
    exists (add_events
              (add_events (deleted w1 (conn_key outconn))
                 [EvConnClose (conn_fd inconn); EvConnClose (conn_fd outconn)])
              [EvSyscallClose epfd]).
    exists (front
            ++ [EvMapDelete (conn_key inconn)
                  (delete_error w0 (conn_key inconn))]
            ++ getKey_log outconn
            ++ [EvMapDelete (conn_key outconn)
                  (delete_error w1 (conn_key outconn))]).
    split.
    { rewrite Hrun. unfold with_defer. rewrite Hh. reflexivity. }
    split.
    { unfold front, w1, w0, wi.
      cbn [trace add_events updated deleted installed].
      rewrite <- !app_assoc. reflexivity. }
    split.
    { unfold front.
      repeat (apply Forall_app; split);
        try (apply calm_not_close; first [assumption | apply getKey_log_calm]);
        repeat constructor. }
    split.
    { exists (delete_error w0 (conn_key inconn)),
             (delete_error w1 (conn_key outconn)),
             (getKey_log outconn), front. reflexivity. }
    unfold w1, w0, wi.
    cbn [entries hashMap map_entries add_events updated deleted installed].
    split.
    + destruct (decide (conn_key outconn = conn_key inconn)) as [-> | Hne].
      * apply lookup_delete_eq.
      * rewrite lookup_delete_ne by assumption. apply lookup_delete_eq.
    + apply lookup_delete_eq.
  - intros w0. eexists. split; [apply teardown_run | reflexivity].
Qed.

End Handler.

(** ** The handler on the sample data *)

(** Discharges the conditions of the theorems on closed data. *)
Ltac on_sample :=
  lazymatch goal with
  | |- set_up _ _ => split; reflexivity
  | |- paired _ _ _ => repeat split; reflexivity
  | |- accepts_pair _ _ _ => split; reflexivity
  | |- ktls_ok _ => split; reflexivity
  | |- registers _ => exists 0%nat; split; [lia | reflexivity]
  | |- peer_closes _ _ => exists []; reflexivity
  | |- peer_stays _ _ => reflexivity
  | |- established _ =>
      split; [cbv [conn_fd Sample.inconn Sample.outconn]; lia |];
      eexists; eexists; unfold Spec.valid_port;
      split; [vm_compute; reflexivity | split; lia]
  | |- _ ≠ _ => vm_compute; discriminate
  | |- _ = _ => reflexivity
  end.

Lemma HandleConn_installs_pair_witness :
  ∃ w',
    HandleConn (L := GoNet.lib) Sample.env Sample.inconn Sample.world
    = with_defer (emit (EvSyscallClose 5))
        (HandleConn_handoff (L := GoNet.lib) Sample.env Sample.inconn
           Sample.outconn 5 (conn_fd Sample.inconn)) w'
    ∧ conn_key (L := GoNet.lib) Sample.inconn
      ≠ conn_key (L := GoNet.lib) Sample.outconn
    ∧ entries w' !! conn_key (L := GoNet.lib) Sample.outconn
      = Some (conn_fd Sample.inconn)
    ∧ entries w' !! conn_key (L := GoNet.lib) Sample.inconn
      = Some (conn_fd Sample.outconn)
    ∧ (∀ k, k ≠ conn_key (L := GoNet.lib) Sample.inconn →
            k ≠ conn_key (L := GoNet.lib) Sample.outconn →
            entries w' !! k = entries Sample.world !! k)
    ∧ entries w' !! conn_key (L := GoNet.lib) Sample.outconn
      ≠ Some (conn_fd Sample.outconn)
    ∧ entries w' !! conn_key (L := GoNet.lib) Sample.inconn
      ≠ Some (conn_fd Sample.inconn).
Proof.
  apply (HandleConn_installs_pair (L := GoNet.lib) Sample.env Sample.inconn
           Sample.outconn 5 Sample.world); on_sample.
Defined.

Lemma HandleConn_handshake_failure_witness :
  HandleConn (L := GoNet.lib)
    (Sample.with_Handshake Sample.env (Some "remote error: tls: bad certificate"))
    Sample.inconn Sample.world
  = (Returned,
     add_events Sample.world
       [EvEpollCreate; EvHandshake (conn_fd Sample.inconn);
        EvLog ["Handshake"; "remote error: tls: bad certificate"];
        EvSyscallClose 5]).
Proof.
  apply (HandleConn_handshake_failure (L := GoNet.lib)
           (Sample.with_Handshake Sample.env
              (Some "remote error: tls: bad certificate"))
           Sample.inconn 5 "remote error: tls: bad certificate" Sample.world);
    on_sample.
Defined.

Lemma HandleConn_dial_failure_witness :
  HandleConn (L := GoNet.lib)
    (Sample.with_DialTCP Sample.env (inl "connect: connection refused"))
    Sample.inconn Sample.world
  = (Fatal,
     add_events Sample.world
       [EvEpollCreate; EvHandshake (conn_fd Sample.inconn); EvDial;
        EvLog ["connect: connection refused"]]).
Proof.
  apply (HandleConn_dial_failure (L := GoNet.lib)
           (Sample.with_DialTCP Sample.env (inl "connect: connection refused"))
           Sample.inconn 5 "connect: connection refused" Sample.world);
    on_sample.
Defined.

(** C4 (the claim fails).  A refused dial ends the whole process, and the
    client connection has not been closed by then. *)
Lemma dial_failure_exits_process :
  let r := HandleConn (L := GoNet.lib)
             (Sample.with_DialTCP Sample.env (inl "connect: connection refused"))
             Sample.inconn Sample.world in
  fst r = Fatal
  ∧ closed_conns (trace (snd r)) = []
  ∧ map_to_list (entries (snd r)) = [].
Proof. vm_compute. repeat split; reflexivity. Qed.

Lemma HandleConn_second_insert_failure_witness :
  ∃ w',
    HandleConn (L := GoNet.lib) Sample.env Sample.inconn
      (Sample.world_rejecting 1903623077888)
    = (Fatal, w')
    ∧ entries w'
      = <[conn_key (L := GoNet.lib) Sample.outconn
          := GoInt.to_uint32 (conn_fd Sample.inconn)]>
          (entries (Sample.world_rejecting 1903623077888))
    ∧ ∃ es, trace w' = trace (Sample.world_rejecting 1903623077888) ++ es
            ∧ Forall (λ e, ∀ k err, e ≠ EvMapDelete k err) es.
Proof.
  apply (HandleConn_second_insert_failure (L := GoNet.lib) Sample.env
           Sample.inconn Sample.outconn 5
           (Sample.world_rejecting 1903623077888)); on_sample.
Defined.

(** C1 (the claim fails).  The map rejects the key of the client
    connection: the first insertion succeeds, the second fails, the process
    exits, and the map holds the first entry alone. *)
Lemma second_insert_failure_keeps_first_entry :
  let r := HandleConn (L := GoNet.lib) Sample.env Sample.inconn
             (Sample.world_rejecting 1903623077888) in
  fst r = Fatal
  ∧ trace (snd r)
    = [EvEpollCreate; EvHandshake 7; EvDial;
       EvMapUpdate 171801109790720 7 None;
       EvMapUpdate 1903623077888 8 (Some ErrUpdate);
       EvLog [ErrUpdate]]
  ∧ map_to_list (entries (snd r)) = [(171801109790720, 7)].
Proof. vm_compute. repeat split; reflexivity. Qed.

Lemma HandleConn_ktls_or_buffer_failure_witness :
  (∃ w', HandleConn (L := GoNet.lib) Sample.env_no_ktls Sample.inconn
           Sample.world
         = (Fatal, w')
         ∧ entries w'
           = entries (installed (L := GoNet.lib) Sample.world
                        Sample.inconn Sample.outconn))
  ∧ (∃ w', HandleConn (L := GoNet.lib) Sample.env_no_buffers Sample.inconn
             Sample.world
           = (Blocked, w')
           ∧ entries w'
             = entries (installed (L := GoNet.lib) Sample.world
                          Sample.inconn Sample.outconn)).
Proof.
  split.
  - apply (proj1 (HandleConn_ktls_or_buffer_failure (L := GoNet.lib)
                    Sample.env_no_ktls Sample.inconn Sample.outconn 5
                    Sample.world ltac:(on_sample) ltac:(on_sample)
                    ltac:(on_sample)) "ENOENT").
    left. reflexivity.
  - apply (proj2 (HandleConn_ktls_or_buffer_failure (L := GoNet.lib)
                    Sample.env_no_buffers Sample.inconn Sample.outconn 5
                    Sample.world ltac:(on_sample) ltac:(on_sample)
                    ltac:(on_sample)) 0%nat); on_sample.
Defined.

(** C5 (the claim fails).  Kernel TLS cannot be enabled: the process
    exits, and both entries of the pair are still in the map. *)
Lemma ktls_failure_exits_with_entries :
  let r := HandleConn (L := GoNet.lib) Sample.env_no_ktls Sample.inconn
             Sample.world in
  fst r = Fatal
  ∧ map_to_list (entries (snd r))
    = [(171801109790720, 7); (1903623077888, 8)].
Proof. vm_compute. repeat split; reflexivity. Qed.

Lemma HandleConn_peer_closed_teardown_witness :
  (∃ w' before,
     HandleConn (L := GoNet.lib) Sample.env Sample.inconn Sample.world
     = (Ok tt, w')
     ∧ trace w'
       = trace Sample.world ++ before
         ++ [EvConnClose (conn_fd Sample.inconn);
             EvConnClose (conn_fd Sample.outconn); EvSyscallClose 5]
     ∧ Forall (λ e, not_close e = true) before
     ∧ (∃ e1 e2 mid front,
          before
          = front
            ++ [EvMapDelete (conn_key (L := GoNet.lib) Sample.inconn) e1]
            ++ mid
            ++ [EvMapDelete (conn_key (L := GoNet.lib) Sample.outconn) e2])
     ∧ entries w' !! conn_key (L := GoNet.lib) Sample.inconn = None
     ∧ entries w' !! conn_key (L := GoNet.lib) Sample.outconn = None)
  ∧ ∀ w0, ∃ w1,
      teardown (L := GoNet.lib) Sample.inconn Sample.outconn w0 = (Ok tt, w1)
      ∧ entries w1
        = delete (conn_key (L := GoNet.lib) Sample.outconn)
            (delete (conn_key (L := GoNet.lib) Sample.inconn) (entries w0)).
Proof.
  apply (HandleConn_peer_closed_teardown (L := GoNet.lib) Sample.env
           Sample.inconn Sample.outconn 5 1 Sample.world); on_sample.
Defined.

(** ** The peek-and-replay wrapper *)

Section PeekWrapper.
Context {C : Type} {Rd : IoReader C}.

Local Open Scope nat_scope.

(** A [Read] while bytes are peeked is answered from them alone. *)
Lemma Conn_Read_peeked (c : Conn C) (n : nat) (pk : list byte) :
  Peeked c = Some pk → pk ≠ [] →
  Conn_Read c n
  = (take n pk, None,
     {| Peeked := if decide (n < length pk) then Some (drop n pk) else None;
        Conn_inner := Conn_inner c |}).
Proof.
  intros Hpk Hne. unfold Conn_Read. rewrite Hpk. cbn [slice_len default].
  unfold id.
  assert (0 < length pk) by (destruct pk; [congruence | simpl; lia]).
  rewrite decide_True by assumption.
  rewrite length_drop.
  destruct (decide (n < length pk)) as [Hlt | Hge].
  - rewrite Nat.min_l by lia. rewrite decide_False by lia. reflexivity.
  - rewrite Nat.min_r by lia. rewrite decide_True by lia.
    rewrite !take_ge by lia. reflexivity.
Qed.

(** A [Read] with nothing peeked is the [Read] of the connection below,
    and [Peeked] stays as it is. *)
Lemma Conn_Read_delegates (c : Conn C) (n : nat) :
  slice_len (Peeked c) = 0 →
  Conn_Read c n
  = let '(data, err, inner) := io_Read (Conn_inner c) n in
    (data, err, {| Peeked := Peeked c; Conn_inner := inner |}).
Proof.
  intros Hlen. unfold Conn_Read. rewrite decide_False by lia. reflexivity.
Qed.

Lemma Conn_Reads_peeked (sizes : list nat) :
  ∀ (c : Conn C) (pk : list byte),
    Peeked c = Some pk → pk ≠ [] →
    Forall (λ n, 0 < n) sizes →
    sum_list sizes ≤ length pk →
    Conn_Reads c sizes
    = (take (sum_list sizes) pk,
       {| Peeked := if decide (sum_list sizes < length pk)
                    then Some (drop (sum_list sizes) pk) else None;
          Conn_inner := Conn_inner c |}).
Proof.
  induction sizes as [| n sizes IH]; intros c pk Hpk Hne Hpos Hsum.
  - cbn [Conn_Reads sum_list]. rewrite take_0, drop_0.
    assert (0 < length pk) by (destruct pk; [congruence | simpl; lia]).
    rewrite decide_True by assumption. destruct c. simpl in Hpk.
    now subst.
  - cbn [Conn_Reads sum_list] in *. unfold id in *.
    apply Forall_cons in Hpos as [Hn Hpos].
    rewrite (Conn_Read_peeked c n pk) by assumption.
    destruct (decide (n < length pk)) as [Hlt | Hge].
    + rewrite (IH _ (drop n pk)); cbn [Peeked Conn_inner]; try easy.
      * rewrite take_take_drop, drop_drop, length_drop.
        repeat case_decide; solve [reflexivity | lia].
      * intros Hnil. apply (f_equal length) in Hnil.
        rewrite length_drop in Hnil. simpl in Hnil. lia.
      * rewrite length_drop. lia.
    + destruct sizes as [| m sizes].
      * cbn [Conn_Reads sum_list]. rewrite Nat.add_0_r, app_nil_r.
        rewrite decide_False by lia. reflexivity.
      * apply Forall_cons in Hpos as [Hm _]. cbn [sum_list] in Hsum.
        unfold id in Hsum. lia.
Qed.

(** C9.  While [Peeked] holds bytes, a [Read] returns bytes of [Peeked]
    only, with a nil error, and leaves the connection below as it was;
    what is left of [Peeked] is kept, and [Peeked] is nil as soon as the
    last byte is handed out.  The same holds for a run of non-empty
    reads that stays within the peeked bytes.  With nothing peeked, a
    [Read] is the [Read] of the connection below and [Peeked] is not
    touched. *)
Theorem Conn_Read_drains_peeked (c : Conn C) (n : nat) :
  (∀ pk, Peeked c = Some pk → pk ≠ [] →
         Conn_Read c n
         = (take n pk, None,
            {| Peeked := if decide (n < length pk)
                         then Some (drop n pk) else None;
               Conn_inner := Conn_inner c |}))
  ∧ (∀ pk sizes, Peeked c = Some pk → pk ≠ [] →
                 Forall (λ n, 0 < n) sizes →
                 sum_list sizes ≤ length pk →
                 Conn_Reads c sizes
                 = (take (sum_list sizes) pk,
                    {| Peeked := if decide (sum_list sizes < length pk)
                                 then Some (drop (sum_list sizes) pk)
                                 else None;
                       Conn_inner := Conn_inner c |}))
  ∧ (slice_len (Peeked c) = 0 →
     Conn_Read c n
     = let '(data, err, inner) := io_Read (Conn_inner c) n in
       (data, err, {| Peeked := Peeked c; Conn_inner := inner |})).
Proof.
  split; [| split].
  - intros pk. apply Conn_Read_peeked.
  - intros pk sizes. now apply Conn_Reads_peeked.
  - apply Conn_Read_delegates.
Qed.

End PeekWrapper.

(** ** bufio.Reader and the SNI sniffer *)

Section ScriptSourceLaws.

Lemma ScriptSource_Read_fits (s : ScriptSource) (n : nat) data err s' :
  io_Read s n = (data, err, s') → (length data ≤ n)%nat.
Proof.
  unfold io_Read, ScriptSource_IoReader.
  destruct (src_chunks s) as [| c rest]; intros [= <- _ _].
  - simpl. lia.
  - rewrite length_take. lia.
Qed.

Lemma ScriptSource_Read_pending (s : ScriptSource) (n : nat) data err s' :
  io_Read s n = (data, err, s') →
  concat (src_chunks s) = data ++ concat (src_chunks s').
Proof.
  unfold io_Read, ScriptSource_IoReader.
  destruct (src_chunks s) as [| c rest] eqn:Hs; intros [= <- _ <-].
  - now rewrite Hs.
  - cbn [src_chunks concat].
    rewrite <- (take_drop n c) at 1. rewrite <- app_assoc. f_equal.
    now destruct (drop n c).
Qed.

End ScriptSourceLaws.

#[export] Instance ScriptSource_laws : IoReaderLaws ScriptSource :=
  {| io_pending := λ s, concat (src_chunks s);
     io_Read_fits := ScriptSource_Read_fits;
     io_Read_pending := ScriptSource_Read_pending |}.

Section BufioFacts.
Context {R : Type} {Rd : IoReader R} {Laws : IoReaderLaws R}.

Local Open Scope nat_scope.

Lemma extends_refl (b : Reader R) : reader_wf b → extends b b.
Proof. intros Hwf. now repeat split. Qed.

Lemma extends_trans (b1 b2 b3 : Reader R) :
  extends b1 b2 → extends b2 b3 → extends b1 b3.
Proof.
  intros (Hs1 & _ & Hp1 & He1) (Hs2 & Hwf & Hp2 & He2).
  repeat split; try congruence. now transitivity (rd_buffered b2).
Qed.

Lemma fill_loop_extends (i : nat) :
  ∀ b, reader_wf b → extends b (fill_loop i b).
Proof.
  induction i as [| i IH]; intros b Hwf.
  - cbn [fill_loop]. now repeat split.
  - cbn [fill_loop].
    destruct (io_Read (rd_src b) (rd_size b - length (rd_buffered b)))
      as [[data err] src] eqn:Hread.
    pose proof (io_Read_fits _ _ _ _ _ Hread) as Hfits.
    pose proof (io_Read_pending _ _ _ _ _ Hread) as Hpend.
    unfold reader_wf in Hwf.
    assert (Hstep : extends b {| rd_size := rd_size b;
                                 rd_buffered := rd_buffered b ++ data;
                                 rd_err := rd_err b; rd_src := src |}).
    { repeat split; cbn.
      - unfold reader_wf. cbn. rewrite length_app. lia.
      - now apply prefix_app_r.
      - unfold reader_pending. cbn. rewrite Hpend. now rewrite app_assoc. }
    destruct err as [e |]; [exact Hstep |].
    case_decide; [exact Hstep |].
    eapply extends_trans; [exact Hstep |]. apply IH.
    now destruct Hstep as (_ & Hwf' & _).
Qed.

(** A [fill] never comes back empty-handed: it has set [b.err] or added
    a byte. *)
Lemma fill_loop_progress (i : nat) :
  ∀ b, rd_err (fill_loop i b) ≠ None
       ∨ length (rd_buffered b) < length (rd_buffered (fill_loop i b)).
Proof.
  induction i as [| i IH]; intros b.
  - left. cbn. discriminate.
  - cbn [fill_loop].
    destruct (io_Read (rd_src b) (rd_size b - length (rd_buffered b)))
      as [[data err] src].
    destruct err as [e |]; [left; cbn; discriminate |].
    case_decide.
    + right. cbn. rewrite length_app. lia.
    + match goal with |- context [fill_loop i ?b'] =>
        destruct (IH b') as [Herr | Hlen]; [now left | right]
      end.
      cbn in Hlen. rewrite length_app in Hlen. lia.
Qed.

Lemma fill_extends (b : Reader R) : reader_wf b → extends b (fill b).
Proof. apply fill_loop_extends. Qed.

Lemma fill_progress (b : Reader R) :
  rd_err (fill b) ≠ None ∨ Buffered b < Buffered (fill b).
Proof. apply fill_loop_progress. Qed.

Lemma peek_loop_stop (fuel n : nat) (b : Reader R) :
  peek_more n b = false → peek_loop fuel n b = b.
Proof.
  intros Hm. destruct fuel; [reflexivity |]. cbn [peek_loop]. now rewrite Hm.
Qed.

Lemma peek_loop_extends (fuel n : nat) :
  ∀ b, reader_wf b → extends b (peek_loop fuel n b).
Proof.
  induction fuel as [| fuel IH]; intros b Hwf; cbn [peek_loop].
  - now apply extends_refl.
  - destruct (peek_more n b); [| now apply extends_refl].
    pose proof (fill_extends b Hwf) as Hfill.
    apply (extends_trans b (fill b)); [exact Hfill |].
    apply (IH (fill b)). exact (proj1 (proj2 Hfill)).
Qed.

(** The loop of [Peek] is over after at most [n] rounds. *)
Lemma peek_loop_done (fuel n : nat) :
  ∀ b, n ≤ fuel + Buffered b → peek_more n (peek_loop fuel n b) = false.
Proof.
  induction fuel as [| fuel IH]; intros b Hfuel; cbn [peek_loop].
  - unfold peek_more. rewrite bool_decide_eq_false_2 by lia. reflexivity.
  - destruct (peek_more n b) eqn:Hmore; [| assumption].
    destruct (fill_progress b) as [Herr | Hlen].
    + rewrite peek_loop_stop; unfold peek_more.
      all: rewrite (bool_decide_eq_false_2 (rd_err (fill b) = None))
        by assumption.
      all: apply andb_false_r.
    + apply (IH (fill b)). lia.
Qed.

(** [Peek] consumes nothing: it only moves input into the buffer, and
    what it returns is the front of the buffer. *)
Lemma bufio_Peek_extends (b : Reader R) (n : nat) data err b' :
  reader_wf b → bufio_Peek b n = (data, err, b') →
  extends b b'
  ∧ data `prefix_of` rd_buffered b'
  ∧ (err = None → length data = n).
Proof.
  intros Hwf. unfold bufio_Peek.
  pose proof (peek_loop_extends n n b Hwf) as Hext.
  set (b1 := peek_loop n n b) in *.
  destruct (decide (rd_size b1 < n)).
  { intros [= <- <- <-]. repeat split; try apply Hext; try easy. }
  destruct (decide (Buffered b1 < n)).
  { cbn. intros [= <- <- <-]. split; [| split].
    - destruct Hext as (Hs & Hw & Hp & He). now repeat split.
    - reflexivity.
    - now destruct (rd_err b1). }
  intros [= <- <- <-]. split; [exact Hext | split].
  - apply prefix_take.
  - intros _. rewrite length_take. unfold Buffered in *. lia.
Qed.

(** [getPeeked] on a well-formed reader: the whole buffer, and the
    reader as it was. *)
Lemma getPeeked_buffered (b : Reader R) :
  reader_wf b →
  getPeeked b = (String.string_of_list_byte (rd_buffered b), b).
Proof.
  intros Hwf. unfold getPeeked, bufio_Peek.
  rewrite peek_loop_stop.
  2:{ unfold peek_more. rewrite bool_decide_eq_false_2 by lia. reflexivity. }
  unfold reader_wf, Buffered in *.
  rewrite decide_False by lia. rewrite decide_False by lia.
  now rewrite take_ge by lia.
Qed.

End BufioFacts.

Section Sniffer.
Context {R : Type} {Rd : IoReader R} {Laws : IoReaderLaws R} {Sn : SniffLib}.

(** C8.  Let the first [Peek] of the sniffer return the byte [b], with
    the reader then being [br1], and let [b] not be the handshake record
    type.  Then the sniffer reports no server name and no error, and
    "TLS" exactly when [b] is 0x80; nothing is written to the log.  The
    reader it leaves behind is [br1]: nothing was consumed, the input
    seen through it is the input seen through [br] before.  The bytes
    reported as peeked are, byte for byte, everything the reader holds;
    they begin with [b] and are a prefix of the input. *)
Theorem clientHelloServerName_not_handshake (br br1 : Reader R) (b : byte) :
  reader_wf br →
  bufio_Peek br 1 = ([b], None, br1) →
  b ≠ recordTypeHandshake →
  clientHelloServerName br
  = ({| res_sni := ""; res_isTLS := Byte.eqb b recordTypeSSLv2;
        res_peeked := String.string_of_list_byte (rd_buffered br1);
        res_err := None |}, br1, [])
  ∧ (b = x80 → Byte.eqb b recordTypeSSLv2 = true)
  ∧ (b ≠ x80 → Byte.eqb b recordTypeSSLv2 = false)
  ∧ String.list_byte_of_string
      (String.string_of_list_byte (rd_buffered br1))
    = rd_buffered br1
  ∧ reader_pending br1 = reader_pending br
  ∧ (∃ rest, rd_buffered br1 = b :: rest)
  ∧ rd_buffered br1 `prefix_of` reader_pending br.
Proof.
  intros Hwf Hpeek Hb.
  destruct (bufio_Peek_extends br 1 _ _ _ Hwf Hpeek)
    as ((Hsize & Hwf1 & Hpre & Hpend) & Hdata & _).
  split; [| split; [| split; [| split; [| split; [| split]]]]].
  - unfold clientHelloServerName. rewrite Hpeek. cbn [index nth].
    assert (Hne : Byte.eqb b recordTypeHandshake = false).
    { destruct (Byte.eqb b recordTypeHandshake) eqn:Heq; [| reflexivity].
      apply Byte.byte_dec_bl in Heq. contradiction. }
    rewrite Hne. cbn [negb].
    rewrite (getPeeked_buffered br1 Hwf1).
    now destruct (Byte.eqb b recordTypeSSLv2).
  - intros ->. reflexivity.
  - intros Hne. destruct (Byte.eqb b recordTypeSSLv2) eqn:Heq; [| reflexivity].
    apply Byte.byte_dec_bl in Heq. contradiction.
  - apply String.list_byte_of_string_of_list_byte.
  - exact Hpend.
  - destruct Hdata as [rest Hrest]. now exists rest.
  - rewrite <- Hpend. unfold reader_pending. now apply prefix_app_r.
Qed.

End Sniffer.

Lemma clientHelloServerName_not_handshake_witness :
  clientHelloServerName (Sn := no_sniff) (Sample.reader_over Sample.sslv2_source)
  = ({| res_sni := ""; res_isTLS := Byte.eqb x80 recordTypeSSLv2;
        res_peeked :=
          String.string_of_list_byte (rd_buffered Sample.sslv2_buffered);
        res_err := None |}, Sample.sslv2_buffered, [])
  ∧ (x80 = x80 → Byte.eqb x80 recordTypeSSLv2 = true)
  ∧ (x80 ≠ x80 → Byte.eqb x80 recordTypeSSLv2 = false)
  ∧ String.list_byte_of_string
      (String.string_of_list_byte (rd_buffered Sample.sslv2_buffered))
    = rd_buffered Sample.sslv2_buffered
  ∧ reader_pending Sample.sslv2_buffered
    = reader_pending (Sample.reader_over Sample.sslv2_source)
  ∧ (∃ rest, rd_buffered Sample.sslv2_buffered = x80 :: rest)
  ∧ rd_buffered Sample.sslv2_buffered
    `prefix_of` reader_pending (Sample.reader_over Sample.sslv2_source).
Proof.
  apply (clientHelloServerName_not_handshake (Sn := no_sniff)
           (Sample.reader_over Sample.sslv2_source) Sample.sslv2_buffered x80).
  - unfold reader_wf. simpl. lia.
  - vm_compute. reflexivity.
  - discriminate.
Defined.

(** ** The tls.go definitions on the sample data *)

Example clientHelloServerName_plain :
  clientHelloServerName (Sn := no_sniff) (Sample.reader_over Sample.plain_source)
  = ({| res_sni := ""; res_isTLS := false;
        res_peeked := String.string_of_list_byte [x00; x47; x45; x54];
        res_err := None |}, Sample.plain_buffered, []).
Proof. vm_compute. reflexivity. Qed.

Example clientHelloServerName_no_input :
  clientHelloServerName (Sn := no_sniff)
    (Sample.reader_over {| src_chunks := []; src_err := EOF |})
  = ({| res_sni := ""; res_isTLS := false; res_peeked := "";
        res_err := Some EOF |},
     Sample.reader_over {| src_chunks := []; src_err := EOF |}, []).
Proof. vm_compute. reflexivity. Qed.

Example Conn_Read_wrapped_two :
  Conn_Read Sample.wrapped 2
  = ([x16; x03], None,
     {| Peeked := Some [x01]; Conn_inner := Conn_inner Sample.wrapped |}).
Proof. reflexivity. Qed.

Example Conn_Reads_wrapped :
  Conn_Reads Sample.wrapped [2; 4; 4]%nat
  = ([x16; x03; x01; x00; x2a],
     {| Peeked := None;
        Conn_inner := {| src_chunks := []; src_err := EOF |} |}).
Proof. reflexivity. Qed.

(** * Further properties *)

(** ** The key on arbitrary integers *)

Section KeyOnIntegers.

Lemma digit_step (a t : Z) :
  0 <= a < 256 → (a + 256 * t) mod 256 = a ∧ (a + 256 * t) / 256 = t.
Proof.
  intros Ha. split.
  - rewrite (Z.mul_comm 256 t), Z.mod_add by lia. now apply Z.mod_small.
  - rewrite (Z.mul_comm 256 t), Z.div_add by lia.
    rewrite Z.div_small by lia. lia.
Qed.

(** The four bytes of a 32-bit number put it together again. *)
Lemma bytes_of_uint32 (v : Z) :
  0 <= v < 2 ^ 32 →
  v = v mod 256
      + 256 * ((v / 2 ^ 8) mod 256
               + 256 * ((v / 2 ^ 16) mod 256 + 256 * ((v / 2 ^ 24) mod 256))).
Proof.
  intros Hv.
  change (2 ^ 16) with (2 ^ 8 * 2 ^ 8). change (2 ^ 24) with (2 ^ 8 * 2 ^ 8 * 2 ^ 8).
  rewrite <- !Z.div_div by lia. change (2 ^ 8) with 256.
  pose proof (Z.div_mod v 256 ltac:(lia)).
  pose proof (Z.div_mod (v / 256) 256 ltac:(lia)).
  pose proof (Z.div_mod (v / 256 / 256) 256 ltac:(lia)).
  assert (0 <= v / 256 / 256 / 256 < 256).
  { rewrite !Z.div_div by lia. split; [apply Z.div_pos; lia |].
    apply Z.div_lt_upper_bound; lia. }
  rewrite (Z.mod_small (v / 256 / 256 / 256)) by assumption. lia.
Qed.

Lemma be32_sum (n : Z) :
  be32 n
  = ((n mod 2 ^ 32) / 2 ^ 24) mod 256
    + 256 * (((n mod 2 ^ 32) / 2 ^ 16) mod 256
             + 256 * (((n mod 2 ^ 32) / 2 ^ 8) mod 256
                      + 256 * ((n mod 2 ^ 32) mod 256))).
Proof.
  assert (Hr : 0 <= n mod 2 ^ 32 < 2 ^ 32) by (apply Z.mod_pos_bound; lia).
  assert (Hb : be32 n = be32 (n mod 2 ^ 32)).
  { unfold be32, GoInt.to_uint32. now rewrite Z.mod_mod by lia. }
  rewrite Hb, be32_value by assumption.
  unfold Spec.big_endian_bytes. cbn [Spec.little_endian_value]. lia.
Qed.

Lemma be32_range (n : Z) : 0 <= be32 n < 2 ^ 32.
Proof.
  rewrite be32_sum.
  pose proof (Z.mod_pos_bound (n mod 2 ^ 32 / 2 ^ 24) 256 ltac:(lia)).
  pose proof (Z.mod_pos_bound (n mod 2 ^ 32 / 2 ^ 16) 256 ltac:(lia)).
  pose proof (Z.mod_pos_bound (n mod 2 ^ 32 / 2 ^ 8) 256 ltac:(lia)).
  pose proof (Z.mod_pos_bound (n mod 2 ^ 32) 256 ltac:(lia)).
  lia.
Qed.

Lemma be32_involutive (n : Z) : be32 (be32 n) = n mod 2 ^ 32.
Proof.
  assert (Hr : 0 <= n mod 2 ^ 32 < 2 ^ 32) by (apply Z.mod_pos_bound; lia).
  rewrite (be32_sum (be32 n)). rewrite (Z.mod_small (be32 n)) by apply be32_range.
  rewrite (be32_sum n).
  set (v := n mod 2 ^ 32) in *.
  pose proof (Z.mod_pos_bound (v / 2 ^ 24) 256 ltac:(lia)) as Ha.
  pose proof (Z.mod_pos_bound (v / 2 ^ 16) 256 ltac:(lia)) as Hb.
  pose proof (Z.mod_pos_bound (v / 2 ^ 8) 256 ltac:(lia)) as Hc.
  pose proof (Z.mod_pos_bound v 256 ltac:(lia)) as Hd.
  set (a := (v / 2 ^ 24) mod 256) in *. set (b := (v / 2 ^ 16) mod 256) in *.
  set (c := (v / 2 ^ 8) mod 256) in *. set (d := v mod 256) in *.
  set (s := a + 256 * (b + 256 * (c + 256 * d))).
  change (2 ^ 16) with (2 ^ 8 * 2 ^ 8). change (2 ^ 24) with (2 ^ 8 * 2 ^ 8 * 2 ^ 8).
  rewrite <- !Z.div_div by lia. change (2 ^ 8) with 256.
  destruct (digit_step a (b + 256 * (c + 256 * d)) Ha) as [Hm0 Hq0].
  destruct (digit_step b (c + 256 * d) Hb) as [Hm1 Hq1].
  destruct (digit_step c d Hc) as [Hm2 Hq2].
  fold s in Hm0, Hq0. rewrite Hq0, Hm0, Hq1, Hm1, Hq2, Hm2.
  rewrite (Z.mod_small d) by assumption.
  rewrite (bytes_of_uint32 v Hr). fold a b c d. lia.
Qed.

Lemma be32_mod (n : Z) : be32 (n mod 2 ^ 32) = be32 n.
Proof. unfold be32, GoInt.to_uint32. now rewrite Z.mod_mod by lia. Qed.

(** X1.  [be32] swaps the four bytes of the low 32 bits of its argument:
    its result is a 32-bit number, applying it twice gives the low 32 bits
    back, and it does not look at the higher bits. *)
Theorem be32_swaps_back (n : Z) :
  0 <= be32 n < 2 ^ 32
  ∧ be32 (be32 n) = n mod 2 ^ 32
  ∧ be32 (n mod 2 ^ 32) = be32 n.
Proof.
  split; [apply be32_range |]. split; [apply be32_involutive | apply be32_mod].
Qed.

Lemma to_uint64_int_shl (l : Z) :
  GoInt.to_uint64 (GoInt.int_shl l 32) = (l mod 2 ^ 32) * 2 ^ 32.
Proof.
  unfold GoInt.to_uint64, GoInt.int_shl, GoInt.to_int.
  rewrite Z.shiftl_mul_pow2 by lia.
  rewrite Zminus_mod_idemp_l.
  replace (l * 2 ^ 32 + 2 ^ 63 - 2 ^ 63) with (l * 2 ^ 32) by lia.
  change (2 ^ 64) with (2 ^ 32 * 2 ^ 32).
  now rewrite Z.mul_mod_distr_r by lia.
Qed.

(** The key expression of line 230 on any two integers. *)
Lemma key_of_ports_sum (l r : Z) :
  key_of_ports l r = (l mod 2 ^ 32) * 2 ^ 32 + be32 r.
Proof.
  unfold key_of_ports. rewrite to_uint64_int_shl.
  pose proof (be32_range r) as Hr.
  unfold GoInt.to_uint64. rewrite (Z.mod_small (be32 r)) by lia.
  rewrite lor_mul_add_l by lia. lia.
Qed.

Lemma be32_eq_iff (r r' : Z) :
  be32 r = be32 r' ↔ r mod 2 ^ 32 = r' mod 2 ^ 32.
Proof.
  split; intros Heq.
  - rewrite <- (be32_involutive r), <- (be32_involutive r'). now rewrite Heq.
  - rewrite <- (be32_mod r), <- (be32_mod r'). now rewrite Heq.
Qed.

Lemma key_of_ports_eq_iff (l r l' r' : Z) :
  key_of_ports l r = key_of_ports l' r'
  ↔ l mod 2 ^ 32 = l' mod 2 ^ 32 ∧ r mod 2 ^ 32 = r' mod 2 ^ 32.
Proof.
  rewrite !key_of_ports_sum, <- (be32_eq_iff r r').
  pose proof (be32_range r). pose proof (be32_range r').
  pose proof (Z.mod_pos_bound l (2 ^ 32) ltac:(lia)).
  pose proof (Z.mod_pos_bound l' (2 ^ 32) ltac:(lia)).
  generalize dependent (l mod 2 ^ 32). generalize dependent (l' mod 2 ^ 32).
  generalize dependent (be32 r). generalize dependent (be32 r').
  intros b' Hb' b Hb a' Ha' a Ha.
  split; [intros Heq; split; lia | intros [-> ->]; reflexivity].
Qed.

End KeyOnIntegers.

Section KeyOfAnyPorts.
Context {L : NetLib}.

(** X2.  For a connection whose two ports parse as integers [l] and [r],
    of any size, [getKey] returns [(l mod 2^32) * 2^32 + be32 r] and has no
    effect.  The key is a 64-bit number, and two such connections get the
    same key exactly when their local ports agree modulo 2^32 and their
    remote ports agree modulo 2^32. *)
Theorem getKey_low_bits (conn : TCPConn) (l r : Z) (w : World) :
  port_pair conn = Some (l, r) →
  getKey conn w = (Ok ((l mod 2 ^ 32) * 2 ^ 32 + be32 r), w)
  ∧ 0 <= (l mod 2 ^ 32) * 2 ^ 32 + be32 r < 2 ^ 64
  ∧ ∀ conn' l' r' w',
      port_pair conn' = Some (l', r') →
      ((getKey conn' w').1 = (getKey conn w).1
       ↔ l' mod 2 ^ 32 = l mod 2 ^ 32 ∧ r' mod 2 ^ 32 = r mod 2 ^ 32).
Proof.
  intros Hp. split; [| split].
  - rewrite getKey_run, (getKey_log_port_pair _ _ Hp), add_events_nil.
    unfold conn_key. now rewrite Hp, key_of_ports_sum.
  - pose proof (be32_range r).
    pose proof (Z.mod_pos_bound l (2 ^ 32) ltac:(lia)). lia.
  - intros conn' l' r' w' Hp'. rewrite !getKey_run. cbn [fst].
    unfold conn_key. rewrite Hp, Hp', <- key_of_ports_eq_iff.
    split; [now intros [= ->] | now intros ->].
Qed.

End KeyOfAnyPorts.

Lemma getKey_low_bits_witness :
  getKey (L := GoNet.lib) Sample.far_port Sample.world
  = (Ok ((4294967739 mod 2 ^ 32) * 2 ^ 32 + be32 51000), Sample.world)
  ∧ 0 <= (4294967739 mod 2 ^ 32) * 2 ^ 32 + be32 51000 < 2 ^ 64
  ∧ ∀ conn' l' r' w',
      port_pair (L := GoNet.lib) conn' = Some (l', r') →
      ((getKey (L := GoNet.lib) conn' w').1
       = (getKey (L := GoNet.lib) Sample.far_port Sample.world).1
       ↔ l' mod 2 ^ 32 = 4294967739 mod 2 ^ 32
         ∧ r' mod 2 ^ 32 = 51000 mod 2 ^ 32).
Proof.
  apply (getKey_low_bits (L := GoNet.lib) Sample.far_port 4294967739 51000
           Sample.world).
  vm_compute. reflexivity.
Defined.

(** The printed port 443 + 2^32 gives the key of port 443. *)
Example far_port_collides :
  (getKey (L := GoNet.lib) Sample.far_port Sample.world).1
  = (getKey (L := GoNet.lib) Sample.inconn Sample.world).1.
Proof. vm_compute. reflexivity. Qed.

(** ** What a handler keeps, whatever its environment *)

Section Keeping.
Context {L : NetLib}.

Lemma keeps_ext {A : Type} P K (V : A → Prop) (m m' : M A) :
  (∀ w, m w = m' w) → keeps P K V m' → keeps P K V m.
Proof. intros Heq Hm w. rewrite Heq. apply Hm. Qed.

Lemma keeps_weaken {A : Type} (P P' : Event → Prop) (K K' : Z → Prop)
  (V V' : A → Prop) (m : M A) :
  (∀ e, P e → P' e) → (∀ k, K k → K' k) → (∀ a, V a → V' a) →
  keeps P K V m → keeps P' K' V' m.
Proof.
  intros HP HK HV Hm w. destruct (Hm w) as (es & Ht & Hes & Hr & Hk & Hv).
  exists es. repeat split; try assumption.
  - eapply Forall_impl; [exact Hes | exact HP].
  - intros k Hk'. apply Hk. intros Hin. apply Hk'. now apply HK.
  - intros a Ha. apply HV. now apply Hv.
Qed.

Lemma keeps_ret {A : Type} P K (V : A → Prop) (a : A) :
  V a → keeps P K V (mret a).
Proof.
  intros Ha w. exists []. cbn. rewrite app_nil_r.
  repeat split; try constructor. now intros a' [= <-].
Qed.

Lemma keeps_bind {A B : Type} P K (V : A → Prop) (V' : B → Prop)
  (m : M A) (f : A → M B) :
  keeps P K V m → (∀ a, V a → keeps P K V' (f a)) →
  keeps P K V' (m ≫= f).
Proof.
  intros Hm Hf w. destruct (Hm w) as (es & Ht & Hes & Hr & Hk & Hv).
  rewrite bind_run. destruct (m w) as [[a | | |] w1]; cbn [fst snd] in *.
  2-4: exists es; repeat split; try assumption; discriminate.
  destruct (Hf a (Hv a eq_refl) w1) as (es' & Ht' & Hes' & Hr' & Hk' & Hv').
  exists (es ++ es'). repeat split.
  - now rewrite Ht', Ht, app_assoc.
  - now apply Forall_app.
  - congruence.
  - intros k Hk0. rewrite Hk' by assumption. now apply Hk.
  - assumption.
Qed.

(** A step that only appends one event. *)
Lemma keeps_event {A : Type} (P : Event → Prop) K (V : A → Prop)
  (e : Event) (o : Outcome A) :
  P e → (∀ a, o = Ok a → V a) →
  keeps P K V (λ w, (o, add_events w [e])).
Proof.
  intros He Ho w. exists [e]. cbn. repeat split; try assumption.
  now repeat constructor.
Qed.

Lemma keeps_emit P K (e : Event) : P e → keeps P K (λ _, True) (emit e).
Proof. intros He. now apply (keeps_event P K _ e (Ok tt)). Qed.

Lemma keeps_log_Println P K (args : list string) :
  P (EvLog args) → keeps P K (λ _, True) (log_Println args).
Proof. apply keeps_emit. Qed.

Lemma keeps_log_Fatal {A : Type} P K (V : A → Prop) (args : list string) :
  P (EvLog args) → keeps P K V (log_Fatal args).
Proof. intros He. now apply (keeps_event P K V _ Fatal). Qed.

Lemma keeps_stop {A : Type} P K (V : A → Prop) (o : Outcome A) :
  (∀ a, o ≠ Ok a) → keeps P K V (λ w, (o, w)).
Proof.
  intros Ho w. exists []. cbn. rewrite app_nil_r.
  repeat split; try constructor. intros a Ha. now destruct (Ho a).
Qed.

Lemma keeps_fatal_on P K (err : option error) :
  (∀ args, P (EvLog args)) → keeps P K (λ _, True) (fatal_on err).
Proof.
  intros Hlog. destruct err as [e |]; [now apply keeps_log_Fatal |].
  now apply keeps_ret.
Qed.

Lemma keeps_getKey P K (conn : TCPConn) :
  (∀ args, P (EvLog args)) →
  keeps P K (λ k, k = conn_key conn) (getKey conn).
Proof.
  intros Hlog w. rewrite getKey_run. exists (getKey_log conn). cbn.
  repeat split; try (now intros ? [= <-]).
  unfold getKey_log. repeat case_match; repeat constructor; apply Hlog.
Qed.

Lemma keeps_Update P (K : Z → Prop) (key value : Z) :
  K key → (∀ err, P (EvMapUpdate key value err)) →
  keeps P K (λ _, True) (hashMap_Update key value).
Proof.
  intros HK HP w. unfold hashMap_Update, Map_Update.
  destruct (map_rejects (hashMap w) key); eexists [_]; cbn;
    repeat split; try reflexivity; try (repeat constructor; apply HP).
  intros k Hk. unfold entries. cbn. apply lookup_insert_ne. congruence.
Qed.

Lemma keeps_Delete P (K : Z → Prop) (key : Z) :
  K key → (∀ err, P (EvMapDelete key err)) →
  keeps P K (λ _, True) (hashMap_Delete key).
Proof.
  intros HK HP w. rewrite hashMap_Delete_run. eexists [_]. cbn.
  repeat split; try reflexivity; try (repeat constructor; apply HP).
  intros k Hk. unfold entries. cbn. apply lookup_delete_ne. congruence.
Qed.

Lemma keeps_with_defer P K (d body : M unit) :
  keeps P K (λ _, True) d → keeps P K (λ _, True) body →
  keeps P K (λ _, True) (with_defer d body).
Proof.
  intros Hd Hb w. destruct (Hb w) as (es & Ht & Hes & Hr & Hk & _).
  unfold with_defer. destruct (body w) as [[[] | | |] w1]; cbn [fst snd] in *.
  3-4: exists es; repeat split; assumption.
  all: destruct (Hd w1) as (es' & Ht' & Hes' & Hr' & Hk' & _).
  all: exists (es ++ es').
  all: destruct (d w1) as [[[] | | |] w2]; cbn [fst snd] in *.
  all: repeat split; try (now apply Forall_app); try congruence.
  all: try (now rewrite Ht', Ht, app_assoc).
  all: intros k Hk0; rewrite Hk' by assumption; now apply Hk.
Qed.

End Keeping.

(** Closes a [keeps] goal about one primitive step. *)
Ltac keeps_leaf :=
  first
    [ apply keeps_emit; reflexivity
    | apply keeps_log_Println; reflexivity
    | apply keeps_log_Fatal; reflexivity
    | apply keeps_fatal_on; intros; reflexivity
    | apply keeps_getKey; intros; reflexivity
    | apply keeps_stop; discriminate
    | apply keeps_ret; try exact I; try reflexivity ].

(** Splits a [keeps] goal about [m ≫= f] whose first step is primitive. *)
Ltac keeps_seq :=
  eapply keeps_bind; [keeps_leaf | cbn beta; intros ? ?].

Section KeepingStages.
Context {L : NetLib} (env : Env) (inconn : TCPConn).

Lemma keeps_getFD (K : Z → Prop) (conn : TCPConn) :
  keeps (λ e, setup_event e = true) K (λ fd, fd = conn_fd conn)
    (getFD env conn).
Proof. unfold getFD. do 2 keeps_seq. keeps_leaf. Qed.

Lemma keeps_handshake_gate (K : Z → Prop) :
  keeps (λ e, setup_event e = true) K (λ _, True) (handshake_gate env inconn).
Proof.
  unfold handshake_gate. do 2 keeps_seq.
  destruct (env_Handshake env); [keeps_seq |]; keeps_leaf.
Qed.

Lemma keeps_backend_pairing (K : Z → Prop) :
  keeps (λ e, setup_event e = true) K (λ oc, env_DialTCP env = inr oc)
    (backend_pairing env).
Proof.
  unfold backend_pairing. do 2 keeps_seq.
  destruct (env_DialTCP env); [keeps_leaf | now apply keeps_ret].
Qed.

Lemma keeps_install_redirect (K : Z → Prop) (outconn : TCPConn) :
  K (conn_key inconn) → K (conn_key outconn) →
  keeps (λ e, setup_event e = true) K
    (λ fds, fds = (conn_fd inconn, conn_fd outconn))
    (install_redirect env inconn outconn).
Proof.
  intros Hin Hout. unfold install_redirect.
  eapply keeps_bind; [apply keeps_getFD | cbn beta; intros ofd ->].
  eapply keeps_bind; [apply keeps_getFD | cbn beta; intros ifd ->].
  eapply keeps_bind; [keeps_leaf | cbn beta; intros kout ->].
  eapply keeps_bind; [apply keeps_Update; [assumption | reflexivity] |].
  cbn beta; intros err _. keeps_seq.
  eapply keeps_bind; [keeps_leaf | cbn beta; intros kin ->].
  eapply keeps_bind; [apply keeps_Update; [assumption | reflexivity] |].
  cbn beta; intros err' _. keeps_seq. now apply keeps_ret.
Qed.

(** Lines 86-121 in any environment. *)
Lemma keeps_setup :
  keeps (λ e, setup_event e = true) (pair_keys env inconn)
    (λ x, env_DialTCP env = inr x.1.1
          ∧ x.1.2 = conn_fd inconn ∧ x.2 = conn_fd x.1.1)
    (HandleConn_setup env inconn).
Proof.
  unfold HandleConn_setup.
  eapply keeps_bind; [apply keeps_handshake_gate | cbn beta; intros _ _].
  eapply keeps_bind; [apply keeps_backend_pairing | cbn beta; intros oc Hoc].
  eapply keeps_bind.
  { apply keeps_install_redirect; [now left | right; now exists oc]. }
  cbn beta. intros [ifd ofd] [= -> ->]. now apply keeps_ret.
Qed.

Lemma keeps_enable_ktls (K : Z → Prop) (ifd : Z) :
  keeps (λ e, handoff_event e = true) K (λ _, True) (enable_ktls env ifd).
Proof.
  unfold enable_ktls. keeps_seq.
  eapply (keeps_bind _ _ (λ _, True));
    [destruct (env_SetsockoptString env); keeps_leaf | cbn beta; intros _ _].
  keeps_seq.
  eapply (keeps_bind _ _ (λ _, True));
    [destruct (env_kTLSEnable env TLS_TX); keeps_leaf | cbn beta; intros _ _].
  keeps_seq. destruct (env_kTLSEnable env TLS_RX); keeps_leaf.
Qed.

Lemma keeps_tune_buffers (K : Z → Prop) (ifd : Z) :
  keeps (λ e, handoff_event e = true) K (λ _, True) (tune_buffers env ifd).
Proof.
  unfold tune_buffers. keeps_seq.
  eapply (keeps_bind _ _ (λ _, True));
    [destruct (env_SetsockoptInt env SO_SNDBUF); keeps_leaf
    | cbn beta; intros _ _].
  keeps_seq.
  eapply (keeps_bind _ _ (λ _, True));
    [destruct (env_SetsockoptInt env SO_RCVBUF); keeps_leaf
    | cbn beta; intros _ _].
  keeps_leaf.
Qed.

Lemma keeps_epoll_ctl_loop (K : Z → Prop) (epfd ifd : Z) (n : nat) :
  ∀ i err,
    keeps (λ e, handoff_event e = true) K (λ _, True)
      (epoll_ctl_loop env epfd ifd n i err).
Proof.
  induction n as [| n IH]; intros i err; cbn [epoll_ctl_loop].
  - keeps_leaf.
  - keeps_seq. destruct (env_EpollCtl env i); [apply IH | keeps_leaf].
Qed.

Lemma keeps_register_rdhup (K : Z → Prop) (epfd ifd : Z) err :
  keeps (λ e, handoff_event e = true) K (λ _, True)
    (register_rdhup env epfd ifd err).
Proof.
  unfold register_rdhup.
  eapply keeps_bind; [apply keeps_epoll_ctl_loop | cbn beta; intros ? _].
  keeps_leaf.
Qed.

Lemma keeps_epoll_wait_loop (K : Z → Prop) (epfd : Z)
  (script : list WaitResult) :
  keeps (λ e, handoff_event e = true) K (λ _, True)
    (epoll_wait_loop epfd script).
Proof.
  induction script as [| r rest IH]; cbn [epoll_wait_loop].
  - keeps_seq. keeps_leaf.
  - keeps_seq. destruct r as [| errno | err]; try keeps_leaf.
    destruct (errno =? EINTR); [keeps_seq; apply IH | keeps_leaf].
Qed.

(** Lines 123-183 in any environment. *)
Lemma keeps_handoff_wait (K : Z → Prop) (epfd ifd : Z) :
  keeps (λ e, handoff_event e = true) K (λ _, True)
    (handoff_wait env inconn epfd ifd).
Proof.
  unfold handoff_wait.
  eapply keeps_bind; [apply keeps_enable_ktls | cbn beta; intros _ _].
  eapply keeps_bind; [apply keeps_tune_buffers | cbn beta; intros err _].
  keeps_seq.
  eapply keeps_bind; [apply keeps_register_rdhup | cbn beta; intros _ _].
  apply keeps_epoll_wait_loop.
Qed.

(** Lines 187-190 in any environment. *)
Lemma keeps_teardown (K : Z → Prop) (outconn : TCPConn) :
  K (conn_key inconn) → K (conn_key outconn) →
  keeps (λ e, teardown_event e = true) K (λ _, True)
    (teardown inconn outconn).
Proof.
  intros Hin Hout. unfold teardown.
  eapply keeps_bind; [keeps_leaf | cbn beta; intros kin ->].
  eapply keeps_bind;
    [apply keeps_Delete; [assumption | reflexivity] | cbn beta; intros ? _].
  eapply keeps_bind; [keeps_leaf | cbn beta; intros kout ->].
  eapply keeps_bind;
    [apply keeps_Delete; [assumption | reflexivity] | cbn beta; intros ? _].
  keeps_seq. keeps_leaf.
Qed.

(** Lines 86-183 in any environment: nothing is closed, and a value that
    comes out is the connection the dial returned. *)
Lemma keeps_until_close (epfd : Z) :
  keeps (λ e, closing e = false) (pair_keys env inconn)
    (λ oc, env_DialTCP env = inr oc)
    (HandleConn_until_close env inconn epfd).
Proof.
  unfold HandleConn_until_close.
  eapply (keeps_bind _ _ (λ x, env_DialTCP env = inr x.1.1)).
  { eapply keeps_weaken; [| | | apply keeps_setup].
    - now intros [].
    - easy.
    - now intros x (Hx & _). }
  cbn beta. intros [[oc ifd] ofd] Hoc. cbn in Hoc.
  eapply (keeps_bind _ _ (λ _, True)).
  { eapply keeps_weaken;
      [| | | apply (keeps_handoff_wait (pair_keys env inconn) epfd ifd)].
    - now intros [].
    - easy.
    - easy. }
  cbn beta. intros _ _. now apply keeps_ret.
Qed.

(** The body of the handler is the part up to the teardown, followed by
    the teardown. *)
Lemma HandleConn_body_split (epfd : Z) (w : World) :
  HandleConn_body env inconn epfd w
  = (HandleConn_until_close env inconn epfd
     ≫= λ outconn, teardown inconn outconn) w.
Proof.
  unfold HandleConn_body, HandleConn_until_close, HandleConn_handoff,
    handoff_wait, mbind, M_bind.
  destruct (HandleConn_setup env inconn w) as [[[[oc ifd] ofd] | | |] w1];
    try reflexivity.
  destruct (enable_ktls env ifd w1) as [[[] | | |] w2]; try reflexivity.
  destruct (tune_buffers env ifd w2) as [[err | | |] w3]; try reflexivity.
  cbn [emit].
  destruct (register_rdhup env epfd ifd err _) as [[[] | | |] w4];
    try reflexivity.
  destruct (epoll_wait_loop epfd (env_EpollWait env) w4) as [[[] | | |] w5];
    reflexivity.
Qed.

End KeepingStages.

Section WholeRuns.
Context {L : NetLib}.

Lemma keeps_HandleConn_body (env : Env) (inconn : TCPConn) (epfd : Z) :
  keeps (λ _, True) (pair_keys env inconn) (λ _, True)
    (HandleConn_body env inconn epfd).
Proof.
  eapply keeps_ext; [apply HandleConn_body_split |].
  eapply (keeps_bind _ _ (λ oc, env_DialTCP env = inr oc)).
  - eapply keeps_weaken; [| | | apply keeps_until_close]; easy.
  - cbn beta. intros oc Hoc.
    eapply keeps_weaken; [| | | apply (keeps_teardown inconn (pair_keys env inconn) oc)];
      try easy.
    + now left.
    + right. now exists oc.
Qed.

Lemma keeps_HandleConn (env : Env) (inconn : TCPConn) :
  keeps (λ _, True) (pair_keys env inconn) (λ _, True) (HandleConn env inconn).
Proof.
  unfold HandleConn.
  eapply (keeps_bind _ _ (λ _, True)); [now apply keeps_emit |].
  cbn beta. intros _ _. destruct (env_EpollCreate1 env) as [err | epfd].
  - now apply keeps_log_Fatal.
  - apply keeps_with_defer; [now apply keeps_emit |].
    apply keeps_HandleConn_body.
Qed.

Lemma getKey_log_not_closing (conn : TCPConn) :
  Forall (λ e, closing e = false) (getKey_log conn).
Proof. unfold getKey_log. repeat case_match; now repeat constructor. Qed.

(** X3.  In every environment and whatever way it ends, a handler leaves
    each key of the map alone that is neither the key of its client
    connection nor the key of the connection its dial returned; it does
    not change which keys the map rejects, and it only adds to the
    history. *)
Theorem HandleConn_frame (env : Env) (inconn : TCPConn) (w : World) (k : Z) :
  ¬ pair_keys env inconn k →
  entries (HandleConn env inconn w).2 !! k = entries w !! k
  ∧ map_rejects (hashMap (HandleConn env inconn w).2) = map_rejects (hashMap w)
  ∧ trace w `prefix_of` trace (HandleConn env inconn w).2.
Proof.
  intros Hk.
  destruct (keeps_HandleConn env inconn w) as (es & Ht & _ & Hr & Hf & _).
  split; [now apply Hf |]. split; [exact Hr |].
  rewrite Ht. now apply prefix_app_r.
Qed.

(** X4.  In every environment a handler closes descriptors only as its
    very last actions.  If it runs to its end, its last three events are
    the close of the client connection, the close of the connection the
    dial returned and the deferred close of the epoll descriptor; if it
    returns early, the deferred close is its last and only close; if it
    ends in [log.Fatal] or stays blocked, it has closed nothing. *)
Theorem HandleConn_closes_last (env : Env) (inconn : TCPConn) (w : World) :
  ∃ es,
    trace (HandleConn env inconn w).2 = trace w ++ es
    ∧ match (HandleConn env inconn w).1 with
      | Ok _ =>
          ∃ outconn epfd before,
            env_DialTCP env = inr outconn
            ∧ env_EpollCreate1 env = inr epfd
            ∧ es = before ++ [EvConnClose (conn_fd inconn);
                              EvConnClose (conn_fd outconn);
                              EvSyscallClose epfd]
            ∧ Forall (λ e, closing e = false) before
      | Returned =>
          ∃ epfd before,
            env_EpollCreate1 env = inr epfd
            ∧ es = before ++ [EvSyscallClose epfd]
            ∧ Forall (λ e, closing e = false) before
      | Fatal | Blocked => Forall (λ e, closing e = false) es
      end.
Proof.
  unfold HandleConn. rewrite bind_run, emit_run. cbn beta iota.
  destruct (env_EpollCreate1 env) as [err | epfd] eqn:Hep.
  { eexists. split; [cbn; now rewrite <- app_assoc |]. cbn.
    now repeat constructor. }
  unfold with_defer. rewrite HandleConn_body_split, bind_run.
  destruct (keeps_until_close env inconn epfd (add_events w [EvEpollCreate]))
    as (es & Ht & Hes & _ & _ & Hv).
  destruct (HandleConn_until_close env inconn epfd
              (add_events w [EvEpollCreate])) as [[oc | | |] w1];
    cbn [fst snd trace add_events] in *.
  - rewrite teardown_run. cbn [fst snd].
    exists ([EvEpollCreate] ++ es ++ getKey_log inconn
            ++ [EvMapDelete (conn_key inconn)
                  (delete_error (add_events w1 (getKey_log inconn))
                     (conn_key inconn))]
            ++ getKey_log oc
            ++ [EvMapDelete (conn_key oc)
                  (delete_error
                     (add_events
                        (deleted (add_events w1 (getKey_log inconn))
                           (conn_key inconn)) (getKey_log oc))
                     (conn_key oc))]
            ++ [EvConnClose (conn_fd inconn); EvConnClose (conn_fd oc);
                EvSyscallClose epfd]).
    split.
    { cbn [trace emit add_events deleted snd]. rewrite Ht.
      rewrite <- !app_assoc. reflexivity. }
    exists oc, epfd.
    exists ([EvEpollCreate] ++ es ++ getKey_log inconn
            ++ [EvMapDelete (conn_key inconn)
                  (delete_error (add_events w1 (getKey_log inconn))
                     (conn_key inconn))]
            ++ getKey_log oc
            ++ [EvMapDelete (conn_key oc)
                  (delete_error
                     (add_events
                        (deleted (add_events w1 (getKey_log inconn))
                           (conn_key inconn)) (getKey_log oc))
                     (conn_key oc))]).
    split; [now apply Hv |]. split; [reflexivity |].
    split.
    { rewrite <- !app_assoc. reflexivity. }
    repeat (apply Forall_app; split); try assumption;
      try apply getKey_log_not_closing; now repeat constructor.
  - exists ([EvEpollCreate] ++ es ++ [EvSyscallClose epfd]). split.
    { cbn [trace emit add_events snd]. rewrite Ht.
      rewrite <- !app_assoc. reflexivity. }
    exists epfd, ([EvEpollCreate] ++ es). split; [reflexivity |].
    split; [now rewrite <- app_assoc |].
    apply Forall_app. split; [now repeat constructor | assumption].
  - exists ([EvEpollCreate] ++ es). split.
    { rewrite Ht, <- !app_assoc. reflexivity. }
    apply Forall_app. split; [now repeat constructor | assumption].
  - exists ([EvEpollCreate] ++ es). split.
    { rewrite Ht, <- !app_assoc. reflexivity. }
    apply Forall_app. split; [now repeat constructor | assumption].
Qed.

End WholeRuns.

Lemma HandleConn_frame_witness :
  entries (HandleConn (L := GoNet.lib) Sample.env Sample.inconn
             (updated Sample.world 5 6)).2 !! 5
  = entries (updated Sample.world 5 6) !! 5
  ∧ map_rejects
      (hashMap (HandleConn (L := GoNet.lib) Sample.env Sample.inconn
                  (updated Sample.world 5 6)).2)
    = map_rejects (hashMap (updated Sample.world 5 6))
  ∧ trace (updated Sample.world 5 6)
    `prefix_of` trace (HandleConn (L := GoNet.lib) Sample.env Sample.inconn
                         (updated Sample.world 5 6)).2.
Proof.
  apply (HandleConn_frame (L := GoNet.lib) Sample.env Sample.inconn
           (updated Sample.world 5 6) 5).
  intros [Hk | (oc & Hoc & Hk)].
  - vm_compute in Hk. discriminate.
  - injection Hoc as <-. vm_compute in Hk. discriminate.
Defined.

(** ** How the set-up can succeed *)

Section SetupInversion.
Context {L : NetLib}.

Lemma bind_Ok_inv {A B : Type} (m : M A) (f : A → M B) (w w' : World) (b : B) :
  (m ≫= f) w = (Ok b, w') →
  ∃ a w1, m w = (Ok a, w1) ∧ f a w1 = (Ok b, w').
Proof.
  rewrite bind_run. destruct (m w) as [[a | | |] w1]; try discriminate.
  intros Hf. now exists a, w1.
Qed.

Lemma fatal_on_Ok_inv (err : option error) (w w' : World) (u : unit) :
  fatal_on err w = (Ok u, w') → err = None ∧ w' = w.
Proof. destruct err; [discriminate |]. now intros [= _ <-]. Qed.

Lemma handshake_gate_Ok_inv (env : Env) (inconn : TCPConn) (w w' : World)
  (u : unit) :
  handshake_gate env inconn w = (Ok u, w') →
  env_LoadX509KeyPair env = None ∧ env_Handshake env = None
  ∧ w' = add_events w [EvHandshake (conn_fd inconn)].
Proof.
  unfold handshake_gate. intros Hrun.
  apply bind_Ok_inv in Hrun as (? & w1 & Hc & Hrun).
  apply fatal_on_Ok_inv in Hc as [Hc ->].
  apply bind_Ok_inv in Hrun as (? & w2 & He & Hrun).
  rewrite emit_run in He. injection He as _ <-.
  destruct (env_Handshake env); [| now injection Hrun as _ <-].
  apply bind_Ok_inv in Hrun as (? & w3 & _ & Hrun). discriminate.
Qed.

Lemma backend_pairing_Ok_inv (env : Env) (w w' : World) (oc : TCPConn) :
  backend_pairing env w = (Ok oc, w') →
  env_ResolveTCPAddr env = None ∧ env_DialTCP env = inr oc
  ∧ w' = add_events w [EvDial].
Proof.
  unfold backend_pairing. intros Hrun.
  apply bind_Ok_inv in Hrun as (? & w1 & Hc & Hrun).
  apply fatal_on_Ok_inv in Hc as [Hc ->].
  apply bind_Ok_inv in Hrun as (? & w2 & He & Hrun).
  rewrite emit_run in He. injection He as _ <-.
  destruct (env_DialTCP env); [discriminate |]. now injection Hrun as -> <-.
Qed.

Lemma getFD_Ok_inv (env : Env) (conn : TCPConn) (w w' : World) (fd : Z) :
  getFD env conn w = (Ok fd, w') →
  env_SyscallConn env conn = None ∧ env_Control env conn = None
  ∧ fd = conn_fd conn ∧ w' = w.
Proof.
  unfold getFD. intros Hrun.
  apply bind_Ok_inv in Hrun as (? & w1 & Hc & Hrun).
  apply fatal_on_Ok_inv in Hc as [Hc ->].
  apply bind_Ok_inv in Hrun as (? & w2 & Hd & Hrun).
  apply fatal_on_Ok_inv in Hd as [Hd ->].
  now injection Hrun as <- <-.
Qed.

Lemma hashMap_Update_inv (key value : Z) (w w' : World) (err : option error) :
  hashMap_Update key value w = (Ok err, w') →
  (err = None ∧ map_rejects (hashMap w) key = false
   ∧ w' = updated w key value)
  ∨ (err = Some ErrUpdate ∧ map_rejects (hashMap w) key = true).
Proof.
  unfold hashMap_Update, Map_Update.
  destruct (map_rejects (hashMap w) key); intros [= <- <-]; [now right |].
  now left.
Qed.

Lemma install_redirect_Ok_inv (env : Env) (inconn outconn : TCPConn)
  (w w' : World) (fds : Z * Z) :
  install_redirect env inconn outconn w = (Ok fds, w') →
  env_SyscallConn env outconn = None ∧ env_Control env outconn = None
  ∧ env_SyscallConn env inconn = None ∧ env_Control env inconn = None
  ∧ accepts_pair (hashMap w) inconn outconn
  ∧ fds = (conn_fd inconn, conn_fd outconn)
  ∧ w' = updated
           (add_events
              (updated (add_events w (getKey_log outconn))
                 (conn_key outconn) (GoInt.to_uint32 (conn_fd inconn)))
              (getKey_log inconn))
           (conn_key inconn) (GoInt.to_uint32 (conn_fd outconn)).
Proof.
  unfold install_redirect. intros Hrun.
  apply bind_Ok_inv in Hrun as (ofd & w1 & Ho & Hrun).
  apply getFD_Ok_inv in Ho as (Ho1 & Ho2 & -> & ->).
  apply bind_Ok_inv in Hrun as (ifd & w2 & Hi & Hrun).
  apply getFD_Ok_inv in Hi as (Hi1 & Hi2 & -> & ->).
  apply bind_Ok_inv in Hrun as (kout & w3 & Hk & Hrun).
  rewrite getKey_run in Hk. injection Hk as <- <-.
  apply bind_Ok_inv in Hrun as (err & w4 & Hu & Hrun).
  apply bind_Ok_inv in Hrun as (? & w5 & Hf & Hrun).
  apply fatal_on_Ok_inv in Hf as [-> ->].
  apply hashMap_Update_inv in Hu as [(_ & Hao & ->) | [[=] _]].
  apply bind_Ok_inv in Hrun as (kin & w6 & Hk & Hrun).
  rewrite getKey_run in Hk. injection Hk as <- <-.
  apply bind_Ok_inv in Hrun as (err & w7 & Hu & Hrun).
  apply bind_Ok_inv in Hrun as (? & w8 & Hf & Hrun).
  apply fatal_on_Ok_inv in Hf as [-> ->].
  apply hashMap_Update_inv in Hu as [(_ & Hai & ->) | [[=] _]].
  injection Hrun as <- <-. now repeat split.
Qed.

(** Lines 86-121 fall through in one way only. *)
Lemma HandleConn_setup_Ok_inv (env : Env) (inconn : TCPConn) (w w' : World)
  (x : TCPConn * Z * Z) :
  HandleConn_setup env inconn w = (Ok x, w') →
  ∃ outconn,
    x = (outconn, conn_fd inconn, conn_fd outconn)
    ∧ env_LoadX509KeyPair env = None
    ∧ paired env inconn outconn
    ∧ accepts_pair (hashMap w) inconn outconn
    ∧ w' = installed w inconn outconn.
Proof.
  unfold HandleConn_setup. intros Hrun.
  apply bind_Ok_inv in Hrun as (? & w1 & Hg & Hrun).
  apply handshake_gate_Ok_inv in Hg as (Hc & Hh & ->).
  apply bind_Ok_inv in Hrun as (oc & w2 & Hb & Hrun).
  apply backend_pairing_Ok_inv in Hb as (Hr & Hd & ->).
  apply bind_Ok_inv in Hrun as ([ifd ofd] & w3 & Hi & Hrun).
  apply install_redirect_Ok_inv in Hi as (Ho1 & Ho2 & Hi1 & Hi2 & Ha & Hfds & ->).
  injection Hfds as -> ->. injection Hrun as <- <-.
  exists oc. repeat split; try assumption; try apply Ha.
  unfold installed. now rewrite (add_events_app w [_] [_]).
Qed.

End SetupInversion.

Section Ordering.
Context {L : NetLib}.

Lemma keeps_HandleConn_handoff (env : Env) (inconn outconn : TCPConn)
  (epfd ifd : Z) :
  keeps (λ _, True) (λ _, True) (λ _, True)
    (HandleConn_handoff env inconn outconn epfd ifd).
Proof.
  unfold HandleConn_handoff.
  eapply (keeps_bind _ _ (λ _, True)).
  { eapply keeps_weaken; [| | | apply (keeps_enable_ktls env (λ _, True))];
      easy. }
  cbn beta. intros _ _. eapply (keeps_bind _ _ (λ _, True)).
  { eapply keeps_weaken; [| | | apply (keeps_tune_buffers env (λ _, True))];
      easy. }
  cbn beta. intros err _.
  eapply (keeps_bind _ _ (λ _, True)); [now apply keeps_emit |].
  cbn beta. intros _ _. eapply (keeps_bind _ _ (λ _, True)).
  { eapply keeps_weaken;
      [| | | apply (keeps_register_rdhup env (λ _, True))]; easy. }
  cbn beta. intros _ _. eapply (keeps_bind _ _ (λ _, True)).
  { eapply keeps_weaken;
      [| | | apply (keeps_epoll_wait_loop (λ _, True))]; easy. }
  cbn beta. intros _ _.
  eapply keeps_weaken;
    [| | | apply (keeps_teardown inconn (λ _, True) outconn)]; easy.
Qed.

Lemma setup_event_not_ktls (es : list Event) :
  Forall (λ e, setup_event e = true) es → Forall (λ e, is_ktls e = false) es.
Proof. intros Hes. eapply Forall_impl; [exact Hes |]. now intros []. Qed.

Lemma getKey_log_not_ktls (conn : TCPConn) :
  Forall (λ e, is_ktls e = false) (getKey_log conn).
Proof. unfold getKey_log. repeat case_match; now repeat constructor. Qed.

(** X5.  In every environment, if a handler gets as far as enabling
    kernel TLS, both insertions have been made and accepted before: the
    events of the run split into a front part without any kernel-TLS
    event, holding the accepted insertion for the key of the dialed
    connection and the accepted insertion for the key of the client
    connection, and the rest. *)
Theorem kTLS_after_insertions (env : Env) (inconn : TCPConn) (w : World)
  (es : list Event) (fd : Z) (dir : Direction) :
  trace (HandleConn env inconn w).2 = trace w ++ es →
  EvKTLSEnable fd dir ∈ es →
  ∃ outconn front back,
    env_DialTCP env = inr outconn
    ∧ es = front ++ back
    ∧ Forall (λ e, is_ktls e = false) front
    ∧ EvMapUpdate (conn_key outconn) (GoInt.to_uint32 (conn_fd inconn)) None
      ∈ front
    ∧ EvMapUpdate (conn_key inconn) (GoInt.to_uint32 (conn_fd outconn)) None
      ∈ front.
Proof.
  unfold HandleConn. rewrite bind_run, emit_run. cbn beta iota.
  destruct (env_EpollCreate1 env) as [err | epfd].
  { cbn. rewrite <- app_assoc. intros Hes%app_inv_head. subst es.
    intros Hin. repeat (apply elem_of_cons in Hin as [[=] | Hin]).
    now apply elem_of_nil in Hin. }
  set (w0 := add_events w [EvEpollCreate]).
  destruct (keeps_setup env inconn w0) as (ess & Hts & Hess & _).
  apply setup_event_not_ktls in Hess.
  assert (Hstop : ∀ es',
             trace w ++ es = (trace w0 ++ ess) ++ es' →
             Forall (λ e, is_ktls e = false) es' →
             EvKTLSEnable fd dir ∈ es → False).
  { intros es' Heq Hes' Hin. unfold w0 in Heq. cbn in Heq.
    rewrite <- !app_assoc in Heq. apply app_inv_head in Heq. subst es.
    cbn in Hin. apply elem_of_cons in Hin as [[=] | Hin].
    apply elem_of_app in Hin as [Hin | Hin].
    - rewrite Forall_forall in Hess. now specialize (Hess _ Hin).
    - rewrite Forall_forall in Hes'. now specialize (Hes' _ Hin). }
  unfold with_defer, HandleConn_body. rewrite bind_run.
  destruct (HandleConn_setup env inconn w0) as [[x | | |] w1] eqn:Hsetup;
    cbn [snd] in Hts.
  - clear Hstop. apply HandleConn_setup_Ok_inv in Hsetup
      as (oc & -> & Hc & Hp & Ha & ->).
    destruct (keeps_with_defer (λ _, True) (λ _, True)
                (emit (EvSyscallClose epfd))
                (HandleConn_handoff env inconn oc epfd (conn_fd inconn))
                ltac:(now apply keeps_emit)
                (keeps_HandleConn_handoff env inconn oc epfd (conn_fd inconn))
                (installed w0 inconn oc))
      as (rest & Hrest & _).
    unfold with_defer in Hrest. rewrite Hrest.
    set (front := [EvEpollCreate; EvHandshake (conn_fd inconn); EvDial]
                  ++ getKey_log oc
                  ++ [EvMapUpdate (conn_key oc)
                        (GoInt.to_uint32 (conn_fd inconn)) None]
                  ++ getKey_log inconn
                  ++ [EvMapUpdate (conn_key inconn)
                        (GoInt.to_uint32 (conn_fd oc)) None]).
    assert (Hfront : trace (installed w0 inconn oc) = trace w ++ front).
    { unfold front, w0. cbn [trace installed updated add_events].
      rewrite <- !app_assoc. reflexivity. }
    rewrite Hfront, <- app_assoc. intros Hes%app_inv_head _. subst es.
    exists oc, front, rest. split; [apply Hp |]. split; [reflexivity |].
    unfold front. split; [| split].
    + repeat (apply Forall_app; split); try apply getKey_log_not_ktls;
        now repeat constructor.
    + apply elem_of_app. right. apply elem_of_app. right.
      apply elem_of_app. left. apply list_elem_of_singleton. reflexivity.
    + do 4 (apply elem_of_app; right). apply list_elem_of_singleton.
      reflexivity.
  - rewrite emit_run. cbn [snd trace add_events]. rewrite Hts.
    intros Heq Hin. exfalso.
    apply (Hstop [EvSyscallClose epfd]); [now symmetry | | assumption].
    now repeat constructor.
  - cbn [snd]. rewrite Hts. intros Heq Hin. exfalso.
    apply (Hstop []); [rewrite app_nil_r; now symmetry | constructor | assumption].
  - cbn [snd]. rewrite Hts. intros Heq Hin. exfalso.
    apply (Hstop []); [rewrite app_nil_r; now symmetry | constructor | assumption].
Qed.

End Ordering.

Lemma kTLS_after_insertions_witness :
  ∃ outconn front back,
    env_DialTCP Sample.env = inr outconn
    ∧ Sample.full_trace = front ++ back
    ∧ Forall (λ e, is_ktls e = false) front
    ∧ EvMapUpdate (conn_key (L := GoNet.lib) outconn)
        (GoInt.to_uint32 (conn_fd Sample.inconn)) None ∈ front
    ∧ EvMapUpdate (conn_key (L := GoNet.lib) Sample.inconn)
        (GoInt.to_uint32 (conn_fd outconn)) None ∈ front.
Proof.
  apply (kTLS_after_insertions (L := GoNet.lib) Sample.env Sample.inconn
           Sample.world Sample.full_trace 7 TLS_TX).
  - vm_compute. reflexivity.
  - unfold Sample.full_trace.
    repeat (apply elem_of_cons; first [left; reflexivity | right]).
Defined.

(** ** Failures after the insertions, and the way back *)

Lemma getKey_log_only_logs {L : NetLib} (P : Event → Prop) (conn : TCPConn) :
  (∀ args, P (EvLog args)) → Forall P (getKey_log conn).
Proof.
  intros Hlog. unfold getKey_log. repeat case_match; repeat constructor;
    apply Hlog.
Qed.

(** Takes a [Forall] over a list of events apart, down to its events and
    to the lists that are not given. *)
Ltac each_event :=
  repeat match goal with
         | |- Forall _ [] => constructor
         | |- Forall _ (_ :: _) => constructor
         | |- Forall _ (_ ++ _) => apply Forall_app; split
         | |- Forall _ (getKey_log _) => apply getKey_log_only_logs
         end.

(** Brings both sides of an equation between lists to one shape. *)
Ltac same_list :=
  cbn [app replicate trace add_events installed updated deleted];
  repeat (repeat rewrite <- app_assoc; cbn [app]);
  reflexivity.

Section AfterInsertions.
Context {L : NetLib}.

(** The retry loop when every attempt fails: [n] attempts, and the error
    of the last one. *)
Lemma epoll_ctl_loop_exhausted (env : Env) (epfd ifd : Z) (n : nat) :
  ∀ (i0 : nat) (err : option error) (w : World),
    (∀ i, (i0 ≤ i < i0 + n)%nat → env_EpollCtl env i ≠ None) →
    epoll_ctl_loop env epfd ifd n i0 err w
    = (Ok (match n with
           | O => err
           | S n' => env_EpollCtl env (i0 + n')%nat
           end),
       add_events w (replicate n (EvEpollCtl epfd ifd))).
Proof.
  induction n as [| n IH]; intros i0 err w Hfail.
  - cbn. now rewrite add_events_nil.
  - cbn [epoll_ctl_loop replicate]. rewrite bind_run, emit_run.
    cbn beta iota.
    destruct (env_EpollCtl env i0) as [e |] eqn:Hi0.
    2:{ exfalso. apply (Hfail i0); [lia | assumption]. }
    rewrite IH by (intros i Hi; apply Hfail; lia).
    rewrite add_events_app. cbn [app]. f_equal. f_equal.
    destruct n as [| n'].
    + now rewrite Nat.add_0_r.
    + f_equal. lia.
Qed.

(** The retry loop when attempt [i] is the first to succeed. *)
Lemma epoll_ctl_loop_first_success (env : Env) (epfd ifd : Z) (n i : nat) :
  ∀ (i0 : nat) (err : option error) (w : World),
    (i < n)%nat →
    (∀ j, (i0 ≤ j < i0 + i)%nat → env_EpollCtl env j ≠ None) →
    env_EpollCtl env (i0 + i)%nat = None →
    epoll_ctl_loop env epfd ifd n i0 err w
    = (Ok None, add_events w (replicate (S i) (EvEpollCtl epfd ifd))).
Proof.
  revert n. induction i as [| i IH]; intros n i0 err w Hlt Hfail Hok.
  - destruct n as [| n]; [lia |]. cbn [epoll_ctl_loop replicate].
    rewrite bind_run, emit_run. cbn beta iota.
    rewrite Nat.add_0_r in Hok. now rewrite Hok.
  - destruct n as [| n]; [lia |]. cbn [epoll_ctl_loop].
    rewrite bind_run, emit_run. cbn beta iota.
    destruct (env_EpollCtl env i0) as [e |] eqn:Hi0.
    2:{ exfalso. apply (Hfail i0); [lia | assumption]. }
    rewrite (IH n (S i0)); [| lia | intros j Hj; apply Hfail; lia
                            | now replace (S i0 + i)%nat with (i0 + S i)%nat by lia].
    now rewrite add_events_app.
Qed.

(** The wait when it fails after [n] interruptions. *)
Lemma epoll_wait_loop_fails (epfd : Z) (n : nat) (r : WaitResult)
  (rest : list WaitResult) :
  match r with
  | WaitNil => False
  | WaitErrno errno => errno ≠ EINTR
  | WaitOther _ => True
  end →
  ∀ w, epoll_wait_loop epfd (replicate n (WaitErrno EINTR) ++ r :: rest) w
       = (Fatal,
          add_events w
            (concat (replicate n [EvEpollWait epfd;
                                  EvLog ["interrupted syscall, retry"]])
             ++ [EvEpollWait epfd; EvLog (wait_error_text r)])).
Proof.
  intros Hr. induction n as [| n IH]; intros w.
  - cbn [replicate app concat epoll_wait_loop].
    rewrite bind_run, emit_run. cbn beta iota.
    destruct r as [| errno | err]; [contradiction | |].
    + rewrite (proj2 (Z.eqb_neq errno EINTR)) by assumption.
      rewrite log_Fatal_run. now rewrite add_events_app.
    + rewrite log_Fatal_run. now rewrite add_events_app.
  - cbn [replicate app concat epoll_wait_loop].
    rewrite bind_run, emit_run. cbn beta iota.
    change (EINTR =? EINTR) with true. cbn beta iota.
    rewrite bind_run, log_Println_run. cbn beta iota.
    rewrite IH, !add_events_app. reflexivity.
Qed.

(** From the installed pair to the registration, when kernel TLS can be
    enabled. *)
Lemma handoff_before_register (env : Env) (inconn : TCPConn) (ifd : Z)
  (w : World) :
  ktls_ok env →
  ∃ es, Forall (λ e, calm_event e = true ∧ ∀ a b, e ≠ EvEpollCtl a b) es
        ∧ (enable_ktls env ifd;;
           err ← tune_buffers env ifd;
           emit (EvSpawnDrain (conn_fd inconn));;
           mret err) w
          = (Ok (env_SetsockoptInt env SO_RCVBUF), add_events w es).
Proof.
  intros [Htx Hrx]. unfold enable_ktls, tune_buffers. rewrite Htx, Hrx.
  destruct (env_SetsockoptString env);
    destruct (env_SetsockoptInt env SO_SNDBUF);
    destruct (env_SetsockoptInt env SO_RCVBUF);
    run_steps; (eexists; split; [| reflexivity]);
    repeat constructor; discriminate.
Qed.

Lemma handoff_at_register (env : Env) (inconn outconn : TCPConn)
  (epfd ifd : Z) (w : World) :
  HandleConn_handoff env inconn outconn epfd ifd w
  = match (enable_ktls env ifd;;
           err ← tune_buffers env ifd;
           emit (EvSpawnDrain (conn_fd inconn));;
           mret err) w with
    | (Ok err, w') =>
        (register_rdhup env epfd ifd err;;
         epoll_wait_loop epfd (env_EpollWait env);;
         teardown inconn outconn) w'
    | (Returned, w') => (Returned, w')
    | (Fatal, w') => (Fatal, w')
    | (Blocked, w') => (Blocked, w')
    end.
Proof.
  unfold HandleConn_handoff, mbind, M_bind.
  destruct (enable_ktls env ifd w) as [[[] | | |] w1]; try reflexivity.
  destruct (tune_buffers env ifd w1) as [[err | | |] w2]; reflexivity.
Qed.

(** X6.  With the pair installed and kernel TLS enabled, the registration
    for the peer-closed event is tried until it succeeds, five times at
    most.  When all five attempts fail the handler ends in [log.Fatal]
    with the error of the fifth: its last events are the five attempts
    and that log line, and both entries of the pair are still in the
    map. *)
Theorem HandleConn_registration_exhausted (env : Env)
  (inconn outconn : TCPConn) (epfd : Z) (w : World) :
  set_up env epfd →
  paired env inconn outconn →
  accepts_pair (hashMap w) inconn outconn →
  ktls_ok env →
  never_registers env →
  ∃ e before,
    env_EpollCtl env 4 = Some e
    ∧ (HandleConn env inconn w).1 = Fatal
    ∧ trace (HandleConn env inconn w).2
      = trace w ++ before
        ++ replicate 5 (EvEpollCtl epfd (conn_fd inconn)) ++ [EvLog [e]]
    ∧ Forall (λ e, ∀ a b, e ≠ EvEpollCtl a b) before
    ∧ entries (HandleConn env inconn w).2
      = entries (installed w inconn outconn).
Proof.
  intros Hs Hp Ha Hk Hnever.
  rewrite (HandleConn_reaches_handoff env inconn outconn epfd w Hs Hp Ha).
  set (wi := installed (add_events w [EvEpollCreate]) inconn outconn).
  destruct (handoff_before_register env inconn (conn_fd inconn) wi Hk)
    as (es & Hcalm & Hrun).
  destruct (env_EpollCtl env 4) as [e |] eqn:H4.
  2:{ exfalso. apply (Hnever 4%nat); [lia | assumption]. }
  exists e.
  exists ([EvEpollCreate; EvHandshake (conn_fd inconn); EvDial]
          ++ getKey_log outconn
          ++ [EvMapUpdate (conn_key outconn)
                (GoInt.to_uint32 (conn_fd inconn)) None]
          ++ getKey_log inconn
          ++ [EvMapUpdate (conn_key inconn)
                (GoInt.to_uint32 (conn_fd outconn)) None]
          ++ es).
  unfold with_defer. rewrite handoff_at_register, Hrun.
  unfold register_rdhup. rewrite !bind_run.
  rewrite epoll_ctl_loop_exhausted by (intros i Hi; apply Hnever; lia).
  cbn beta iota. cbn [Nat.add]. rewrite H4, fatal_on_Some.
  cbn [fst snd]. split; [reflexivity |]. split; [reflexivity |].
  split; [| split].
  - unfold wi. cbn [trace add_events installed updated].
    rewrite <- !app_assoc. reflexivity.
  - each_event; try easy.
    eapply Forall_impl; [exact Hcalm |]. now intros ? [_ ?].
  - reflexivity.
Qed.

(** Lines 123-171 when they succeed: only hand-off events. *)
Lemma handoff_registered_events (env : Env) (inconn : TCPConn)
  (epfd ifd : Z) (w : World) :
  ktls_ok env → registers env →
  ∃ es, Forall (λ e, handoff_event e = true) es
        ∧ (enable_ktls env ifd;;
           err ← tune_buffers env ifd;
           emit (EvSpawnDrain (conn_fd inconn));;
           register_rdhup env epfd ifd err) w
          = (Ok tt, add_events w es).
Proof.
  intros Hk Hr.
  destruct (handoff_registered env inconn epfd ifd w Hk Hr)
    as (es & _ & Hrun).
  exists es. split; [| exact Hrun].
  assert (Hkeeps : keeps (λ e, handoff_event e = true) (λ _, True) (λ _, True)
                     (enable_ktls env ifd;;
                      err ← tune_buffers env ifd;
                      emit (EvSpawnDrain (conn_fd inconn));;
                      register_rdhup env epfd ifd err)).
  { eapply (keeps_bind _ _ (λ _, True)); [apply keeps_enable_ktls |].
    cbn beta. intros _ _.
    eapply (keeps_bind _ _ (λ _, True)); [apply keeps_tune_buffers |].
    cbn beta. intros err _.
    eapply (keeps_bind _ _ (λ _, True)); [now apply keeps_emit |].
    cbn beta. intros _ _. apply keeps_register_rdhup. }
  destruct (Hkeeps w) as (es' & Ht & Hes' & _).
  rewrite Hrun in Ht. cbn in Ht. apply app_inv_head in Ht. now subst es'.
Qed.

(** X7.  With the pair installed and kernel TLS enabled, if attempt
    number [i] (counted from 0, below five) is the first registration
    attempt to succeed, the handler makes exactly [i + 1] attempts and then
    waits; here the wait never returns, so the handler stays blocked with
    both entries in the map. *)
Theorem HandleConn_registration_retries (env : Env)
  (inconn outconn : TCPConn) (epfd : Z) (i : nat) (w : World) :
  set_up env epfd →
  paired env inconn outconn →
  accepts_pair (hashMap w) inconn outconn →
  ktls_ok env →
  (i < 5)%nat →
  (∀ j, (j < i)%nat → env_EpollCtl env j ≠ None) →
  env_EpollCtl env i = None →
  peer_stays env 0 →
  ∃ before,
    (HandleConn env inconn w).1 = Blocked
    ∧ trace (HandleConn env inconn w).2
      = trace w ++ before
        ++ replicate (S i) (EvEpollCtl epfd (conn_fd inconn))
        ++ [EvEpollWait epfd]
    ∧ Forall (λ e, ∀ a b, e ≠ EvEpollCtl a b) before
    ∧ entries (HandleConn env inconn w).2
      = entries (installed w inconn outconn).
Proof.
  intros Hs Hp Ha Hk Hi Hfail Hok Hstay.
  rewrite (HandleConn_reaches_handoff env inconn outconn epfd w Hs Hp Ha).
  set (wi := installed (add_events w [EvEpollCreate]) inconn outconn).
  destruct (handoff_before_register env inconn (conn_fd inconn) wi Hk)
    as (es & Hcalm & Hrun).
  exists ([EvEpollCreate; EvHandshake (conn_fd inconn); EvDial]
          ++ getKey_log outconn
          ++ [EvMapUpdate (conn_key outconn)
                (GoInt.to_uint32 (conn_fd inconn)) None]
          ++ getKey_log inconn
          ++ [EvMapUpdate (conn_key inconn)
                (GoInt.to_uint32 (conn_fd outconn)) None]
          ++ es).
  unfold with_defer. rewrite handoff_at_register, Hrun.
  unfold register_rdhup. rewrite !bind_run.
  rewrite (epoll_ctl_loop_first_success env epfd (conn_fd inconn) 5 i 0);
    [| assumption | intros j Hj; apply Hfail; lia | assumption].
  cbn beta iota. unfold peer_stays in Hstay. rewrite Hstay.
  cbn [replicate epoll_wait_loop]. run_steps.
  cbn [fst snd]. split; [reflexivity |]. split; [| split].
  - unfold wi. same_list.
  - each_event; try easy.
    eapply Forall_impl; [exact Hcalm |]. now intros ? [_ ?].
  - reflexivity.
Qed.

(** X8.  With the pair installed, kernel TLS enabled and the registration
    made, a wait that is interrupted [n] times and then fails with
    anything but an interruption ends the handler in [log.Fatal]: each
    interruption was logged and retried, the failure is the last thing
    logged, nothing is deleted or closed, and both entries of the pair are
    still in the map. *)
Theorem HandleConn_wait_failure (env : Env) (inconn outconn : TCPConn)
  (epfd : Z) (n : nat) (r : WaitResult) (w : World) :
  set_up env epfd →
  paired env inconn outconn →
  accepts_pair (hashMap w) inconn outconn →
  ktls_ok env → registers env →
  wait_fails env n r →
  ∃ before,
    (HandleConn env inconn w).1 = Fatal
    ∧ trace (HandleConn env inconn w).2
      = trace w ++ before
        ++ concat (replicate n [EvEpollWait epfd;
                                EvLog ["interrupted syscall, retry"]])
        ++ [EvEpollWait epfd; EvLog (wait_error_text r)]
    ∧ Forall (λ e, closing e = false ∧ ∀ k err, e ≠ EvMapDelete k err) before
    ∧ entries (HandleConn env inconn w).2
      = entries (installed w inconn outconn).
Proof.
  intros Hs Hp Ha Hk Hr [(rest & Hscript) Hbad].
  rewrite (HandleConn_reaches_handoff env inconn outconn epfd w Hs Hp Ha).
  set (wi := installed (add_events w [EvEpollCreate]) inconn outconn).
  destruct (handoff_registered_events env inconn epfd (conn_fd inconn) wi
              Hk Hr)
    as (es & Hcalm & Hrun).
  exists ([EvEpollCreate; EvHandshake (conn_fd inconn); EvDial]
          ++ getKey_log outconn
          ++ [EvMapUpdate (conn_key outconn)
                (GoInt.to_uint32 (conn_fd inconn)) None]
          ++ getKey_log inconn
          ++ [EvMapUpdate (conn_key inconn)
                (GoInt.to_uint32 (conn_fd outconn)) None]
          ++ es).
  unfold with_defer. rewrite handoff_split, Hrun, bind_run, Hscript.
  rewrite (epoll_wait_loop_fails epfd n r rest Hbad).
  cbn [fst snd]. split; [reflexivity |]. split; [| split].
  - unfold wi. same_list.
  - each_event; try easy.
    eapply Forall_impl; [exact Hcalm |]. now intros [].
  - reflexivity.
Qed.

Lemma entries_add_events (w : World) (es : list Event) :
  entries (add_events w es) = entries w.
Proof. reflexivity. Qed.

Lemma entries_deleted (w : World) (k : Z) :
  entries (deleted w k) = delete k (entries w).
Proof. reflexivity. Qed.

Lemma delete_pair_insert_pair (m : gmap Z Z) (kin kout vin vout : Z) :
  m !! kin = None → m !! kout = None →
  delete kout (delete kin (<[kin := vin]> (<[kout := vout]> m))) = m.
Proof.
  intros Hin Hout. apply map_eq. intros k.
  destruct (decide (k = kout)) as [-> | Hk1].
  { now rewrite lookup_delete_eq. }
  rewrite lookup_delete_ne by congruence.
  destruct (decide (k = kin)) as [-> | Hk2].
  { now rewrite lookup_delete_eq. }
  rewrite lookup_delete_ne by congruence.
  now rewrite !lookup_insert_ne by congruence.
Qed.

(** X9.  A handler that installs its pair under two keys that were not in
    the map, and then sees the peer close, leaves the map exactly as it
    found it. *)
Theorem HandleConn_restores_map (env : Env) (inconn outconn : TCPConn)
  (epfd : Z) (n : nat) (w : World) :
  set_up env epfd →
  paired env inconn outconn →
  accepts_pair (hashMap w) inconn outconn →
  ktls_ok env → registers env → peer_closes env n →
  entries w !! conn_key inconn = None →
  entries w !! conn_key outconn = None →
  (HandleConn env inconn w).1 = Ok tt
  ∧ entries (HandleConn env inconn w).2 = entries w.
Proof.
  intros Hs Hp Ha Hk Hr Hw Hin Hout.
  rewrite (HandleConn_reaches_handoff env inconn outconn epfd w Hs Hp Ha).
  destruct (handoff_closed env inconn outconn epfd (conn_fd inconn) n
              (installed (add_events w [EvEpollCreate]) inconn outconn)
              Hk Hr Hw)
    as (es & _ & Hh).
  unfold with_defer. rewrite Hh, teardown_run. cbn [fst snd emit].
  split; [reflexivity |].
  cbn [entries hashMap map_entries add_events updated deleted installed].
  now apply delete_pair_insert_pair.
Qed.

(** X10.  The teardown can be run again from the world it leaves: it
    comes back normally, both deletions now report a missing key, which
    is dropped, both closes are issued once more, and the map is not
    changed. *)
Theorem teardown_twice (inconn outconn : TCPConn) (w : World) :
  let w1 := (teardown inconn outconn w).2 in
  (teardown inconn outconn w1).1 = Ok tt
  ∧ entries (teardown inconn outconn w1).2 = entries w1
  ∧ trace (teardown inconn outconn w1).2
    = trace w1 ++ getKey_log inconn
      ++ [EvMapDelete (conn_key inconn) (Some ErrKeyNotExist)]
      ++ getKey_log outconn
      ++ [EvMapDelete (conn_key outconn) (Some ErrKeyNotExist);
          EvConnClose (conn_fd inconn); EvConnClose (conn_fd outconn)].
Proof.
  set (w1 := (teardown inconn outconn w).2).
  assert (Hin : entries w1 !! conn_key inconn = None).
  { unfold w1. rewrite teardown_run.
    cbn [snd entries hashMap map_entries add_events deleted].
    destruct (decide (conn_key outconn = conn_key inconn)) as [-> | Hne].
    - apply lookup_delete_eq.
    - rewrite lookup_delete_ne by assumption. apply lookup_delete_eq. }
  assert (Hout : entries w1 !! conn_key outconn = None).
  { unfold w1. rewrite teardown_run.
    cbn [snd entries hashMap map_entries add_events deleted].
    apply lookup_delete_eq. }
  clearbody w1. cbn zeta. rewrite teardown_run. cbn [fst snd].
  split; [reflexivity |]. split.
  - repeat first [rewrite entries_add_events | rewrite entries_deleted].
    rewrite (delete_id (entries w1) (conn_key inconn)) by assumption.
    now apply delete_id.
  - cbn [trace add_events deleted]. rewrite <- !app_assoc.
    unfold delete_error.
    repeat first [rewrite entries_add_events | rewrite entries_deleted].
    rewrite Hin.
    rewrite (delete_id (entries w1) (conn_key inconn)) by assumption.
    rewrite Hout. reflexivity.
Qed.

(** X11.  If, after handshake and dial, one of the four descriptor
    look-ups of [getFD] fails, the handler ends in [log.Fatal] with that
    error before it has written anything to the map. *)
Theorem HandleConn_getFD_failure (env : Env) (inconn outconn : TCPConn)
  (epfd : Z) (e : error) (w : World) :
  set_up env epfd →
  env_Handshake env = None →
  env_ResolveTCPAddr env = None →
  env_DialTCP env = inr outconn →
  getFD_error env inconn outconn = Some e →
  HandleConn env inconn w
  = (Fatal,
     add_events w [EvEpollCreate; EvHandshake (conn_fd inconn); EvDial;
                   EvLog [e]]).
Proof.
  intros Hs Hh Hr Hd Hfd. rewrite (HandleConn_run _ _ epfd) by assumption.
  destruct Hs as [_ Hc].
  unfold with_defer, HandleConn_body, HandleConn_setup.
  rewrite !bind_run, handshake_gate_ok by assumption. cbn beta iota.
  rewrite !bind_run, (backend_pairing_ok _ outconn) by assumption.
  cbn beta iota. unfold install_redirect, getFD.
  unfold getFD_error in Hfd.
  destruct (env_SyscallConn env outconn) as [e1 |].
  { injection Hfd as ->. now run_steps. }
  destruct (env_Control env outconn) as [e2 |].
  { injection Hfd as ->. now run_steps. }
  destruct (env_SyscallConn env inconn) as [e3 |].
  { injection Hfd as ->. now run_steps. }
  rewrite Hfd. now run_steps.
Qed.

End AfterInsertions.

(** Discharges the further conditions on closed data. *)
Ltac on_sample_more :=
  lazymatch goal with
  | |- never_registers _ => intros ? _; discriminate
  | |- wait_fails _ _ _ =>
      split; [exists []; reflexivity | vm_compute; discriminate]
  | |- (_ < _)%nat => lia
  | |- _ !! _ = None => vm_compute; reflexivity
  | |- _ => on_sample
  end.

Lemma HandleConn_registration_exhausted_witness :
  ∃ e before,
    env_EpollCtl Sample.env_no_register 4 = Some e
    ∧ (HandleConn (L := GoNet.lib) Sample.env_no_register Sample.inconn
         Sample.world).1 = Fatal
    ∧ trace (HandleConn (L := GoNet.lib) Sample.env_no_register Sample.inconn
               Sample.world).2
      = trace Sample.world ++ before
        ++ replicate 5 (EvEpollCtl 5 (conn_fd Sample.inconn)) ++ [EvLog [e]]
    ∧ Forall (λ e, ∀ a b, e ≠ EvEpollCtl a b) before
    ∧ entries (HandleConn (L := GoNet.lib) Sample.env_no_register
                 Sample.inconn Sample.world).2
      = entries (installed (L := GoNet.lib) Sample.world Sample.inconn
                   Sample.outconn).
Proof.
  apply (HandleConn_registration_exhausted (L := GoNet.lib)
           Sample.env_no_register Sample.inconn Sample.outconn 5 Sample.world);
    on_sample_more.
Defined.

Lemma HandleConn_registration_retries_witness :
  ∃ before,
    (HandleConn (L := GoNet.lib) Sample.env_third_attempt Sample.inconn
       Sample.world).1 = Blocked
    ∧ trace (HandleConn (L := GoNet.lib) Sample.env_third_attempt
               Sample.inconn Sample.world).2
      = trace Sample.world ++ before
        ++ replicate 3 (EvEpollCtl 5 (conn_fd Sample.inconn))
        ++ [EvEpollWait 5]
    ∧ Forall (λ e, ∀ a b, e ≠ EvEpollCtl a b) before
    ∧ entries (HandleConn (L := GoNet.lib) Sample.env_third_attempt
                 Sample.inconn Sample.world).2
      = entries (installed (L := GoNet.lib) Sample.world Sample.inconn
                   Sample.outconn).
Proof.
  apply (HandleConn_registration_retries (L := GoNet.lib)
           Sample.env_third_attempt Sample.inconn Sample.outconn 5 2
           Sample.world); try on_sample_more.
  intros [| [| j]] Hj; cbn; try discriminate. lia.
Defined.

Lemma HandleConn_wait_failure_witness :
  ∃ before,
    (HandleConn (L := GoNet.lib) Sample.env_wait_fails Sample.inconn
       Sample.world).1 = Fatal
    ∧ trace (HandleConn (L := GoNet.lib) Sample.env_wait_fails Sample.inconn
               Sample.world).2
      = trace Sample.world ++ before
        ++ concat (replicate 1 [EvEpollWait 5;
                                EvLog ["interrupted syscall, retry"]])
        ++ [EvEpollWait 5; EvLog (wait_error_text (WaitErrno 9))]
    ∧ Forall (λ e, closing e = false ∧ ∀ k err, e ≠ EvMapDelete k err) before
    ∧ entries (HandleConn (L := GoNet.lib) Sample.env_wait_fails
                 Sample.inconn Sample.world).2
      = entries (installed (L := GoNet.lib) Sample.world Sample.inconn
                   Sample.outconn).
Proof.
  apply (HandleConn_wait_failure (L := GoNet.lib) Sample.env_wait_fails
           Sample.inconn Sample.outconn 5 1 (WaitErrno 9) Sample.world);
    on_sample_more.
Defined.

Lemma HandleConn_restores_map_witness :
  (HandleConn (L := GoNet.lib) Sample.env Sample.inconn Sample.world).1
  = Ok tt
  ∧ entries (HandleConn (L := GoNet.lib) Sample.env Sample.inconn
               Sample.world).2
    = entries Sample.world.
Proof.
  apply (HandleConn_restores_map (L := GoNet.lib) Sample.env Sample.inconn
           Sample.outconn 5 1 Sample.world); on_sample_more.
Defined.

Lemma HandleConn_getFD_failure_witness :
  HandleConn (L := GoNet.lib) Sample.env_no_fd Sample.inconn Sample.world
  = (Fatal,
     add_events Sample.world
       [EvEpollCreate; EvHandshake (conn_fd Sample.inconn); EvDial;
        EvLog ["use of closed network connection"]]).
Proof.
  apply (HandleConn_getFD_failure (L := GoNet.lib) Sample.env_no_fd
           Sample.inconn Sample.outconn 5 "use of closed network connection"
           Sample.world); on_sample_more.
Defined.

(** ** The wrapper as a reader *)

Section WrapperStream.
Context {C : Type} {Rd : IoReader C} {Laws : IoReaderLaws C}.

Lemma Conn_Read_stream (c : Conn C) (n : nat) :
  (length (Conn_Read c n).1.1 ≤ n)%nat
  ∧ conn_pending c = (Conn_Read c n).1.1 ++ conn_pending (Conn_Read c n).2.
Proof.
  unfold Conn_Read, conn_pending.
  destruct (decide (0 < slice_len (Peeked c))%nat) as [Hpos | Hzero].
  - cbn [fst snd Peeked Conn_inner].
    destruct (Peeked c) as [pk |]; cbn [slice_len default] in *; [| lia].
    unfold id. split; [rewrite length_take; lia |].
    rewrite app_assoc. f_equal.
    set (k := Nat.min n (length pk)).
    case_decide as Hrest; cbn [default]; unfold id.
    + apply nil_length_inv in Hrest.
      rewrite <- (take_drop k pk) at 1. now rewrite Hrest.
    + now rewrite take_drop.
  - destruct (io_Read (Conn_inner c) n) as [[data err] inner] eqn:Hread.
    cbn [fst snd Peeked Conn_inner].
    split; [exact (io_Read_fits _ _ _ _ _ Hread) |].
    rewrite (io_Read_pending _ _ _ _ _ Hread).
    destruct (Peeked c) as [[| b pk] |]; cbn [slice_len default length] in *;
      try lia; unfold id; cbn [app]; now rewrite ?app_nil_r.
Qed.

(** X12.  A wrapped connection is a reader of the stream "peeked bytes,
    then the bytes of the connection below": every [Read] stores at most
    [len(p)] bytes, those bytes are the next bytes of that stream, and
    what is left is the stream of the wrapper afterwards.  So any run of
    [Read] calls, with buffers of any lengths, delivers a prefix of that
    stream with nothing lost, repeated or reordered. *)
Theorem Conn_Read_replays_stream (c : Conn C) (n : nat) (sizes : list nat) :
  (length (Conn_Read c n).1.1 ≤ n)%nat
  ∧ conn_pending c = (Conn_Read c n).1.1 ++ conn_pending (Conn_Read c n).2
  ∧ conn_pending c
    = (Conn_Reads c sizes).1 ++ conn_pending (Conn_Reads c sizes).2.
Proof.
  split; [apply Conn_Read_stream |]. split; [apply Conn_Read_stream |].
  revert c. induction sizes as [| m sizes IH]; intros c.
  - reflexivity.
  - cbn [Conn_Reads].
    destruct (Conn_Read_stream c m) as [_ Hone].
    destruct (Conn_Read c m) as [[data err] c1]. cbn [fst snd] in Hone.
    specialize (IH c1).
    destruct (Conn_Reads c1 sizes) as [more c2]. cbn [fst snd] in *.
    now rewrite Hone, IH, app_assoc.
Qed.

End WrapperStream.

(** ** A buffered reader as the source of another *)

Section ReaderOfReader.
Context {R : Type} {Rd : IoReader R} {Laws : IoReaderLaws R}.

Local Open Scope nat_scope.

Lemma bufio_Read_fits (b : Reader R) (n : nat) data err b' :
  bufio_Read b n = (data, err, b') → length data ≤ n.
Proof.
  unfold bufio_Read, readErr.
  repeat case_decide; repeat case_match; intros [= <- _ _];
    rewrite ?length_take; cbn [length]; try lia.
  eapply io_Read_fits; eassumption.
Qed.

Lemma bufio_Read_pending (b : Reader R) (n : nat) data err b' :
  bufio_Read b n = (data, err, b') →
  reader_pending b = data ++ reader_pending b'.
Proof.
  unfold bufio_Read, readErr, reader_pending, Buffered.
  repeat case_decide; repeat case_match; intros [= <- _ <-];
    cbn [rd_buffered rd_src app]; try reflexivity.
  all: try (rewrite app_assoc, take_drop; reflexivity).
  all: match goal with
       | H : length (rd_buffered _) = 0 |- _ =>
           apply nil_length_inv in H; rewrite H
       end; cbn [app].
  all: match goal with
       | H : io_Read _ _ = _ |- _ => rewrite (io_Read_pending _ _ _ _ _ H)
       end.
  all: now rewrite ?app_assoc, ?take_drop.
Qed.

End ReaderOfReader.

#[export] Instance Reader_laws {R : Type} {Rd : IoReader R}
  {Laws : IoReaderLaws R} : IoReaderLaws (Reader R) :=
  {| io_pending := reader_pending;
     io_Read_fits := bufio_Read_fits;
     io_Read_pending := bufio_Read_pending |}.

(** ** The sniffer beyond the first byte *)

Section SniffHello.
Context {R : Type} {Rd : IoReader R} {Laws : IoReaderLaws R} {Sn : SniffLib}.

Lemma byte_to_int_range (b : byte) : 0 <= byte_to_int b < 256.
Proof.
  unfold byte_to_int. pose proof (Byte.to_N_bounded b). lia.
Qed.

(** The length the sniffer reads off a record header. *)
Lemma record_total_code (hdr : list byte) :
  (recordHeaderLen
   + Z.to_nat (Z.lor (Z.shiftl (byte_to_int (index hdr 3)) 8)
                     (byte_to_int (index hdr 4))))%nat
  = record_total hdr.
Proof.
  pose proof (byte_to_int_range (index hdr 3)) as H3.
  pose proof (byte_to_int_range (index hdr 4)) as H4.
  rewrite Z.lor_comm, lor_shiftl_add by lia.
  unfold record_total, recordHeaderLen, byte_to_int in *. lia.
Qed.

(** Lines 52-66 in terms of the [Peek] they start with. *)
Lemma sniff_hello_Peek (br br1 : Reader R) (total : nat) hello err :
  reader_wf br →
  bufio_Peek br total = (hello, err, br1) →
  sniff_hello br total
  = ({| res_sni := match err with
                   | None => tls_ServerName hello
                   | Some _ => ""
                   end;
        res_isTLS := true;
        res_peeked := String.string_of_list_byte (rd_buffered br1);
        res_err := None |}, br1).
Proof.
  intros Hwf Hpeek.
  destruct (bufio_Peek_extends br total _ _ _ Hwf Hpeek)
    as ((_ & Hwf1 & _) & _).
  unfold sniff_hello. rewrite Hpeek.
  destruct err; now rewrite (getPeeked_buffered br1 Hwf1).
Qed.

Lemma sniff_hello_extends (br br' : Reader R) (total : nat) res :
  reader_wf br →
  sniff_hello br total = (res, br') →
  extends br br'
  ∧ res_peeked res = String.string_of_list_byte (rd_buffered br').
Proof.
  intros Hwf.
  destruct (bufio_Peek br total) as [[hello err] br1] eqn:Hpeek.
  rewrite (sniff_hello_Peek br br1 total hello err Hwf Hpeek).
  intros [= <- <-]. split; [| reflexivity].
  exact (proj1 (bufio_Peek_extends br total _ _ _ Hwf Hpeek)).
Qed.

Lemma sniff_hello_flags (br : Reader R) (total : nat) :
  res_isTLS (sniff_hello br total).1 = true
  ∧ res_err (sniff_hello br total).1 = None.
Proof.
  unfold sniff_hello. repeat case_match; now subst.
Qed.

Lemma buffered_prefix_pending (b b' : Reader R) :
  extends b b' → rd_buffered b' `prefix_of` reader_pending b.
Proof.
  intros (_ & _ & _ & <-). unfold reader_pending. now apply prefix_app_r.
Qed.

End SniffHello.

Section SnifferRecords.
Context {R : Type} {Rd : IoReader R} {Laws : IoReaderLaws R} {Sn : SniffLib}.

Local Open Scope nat_scope.

(** X13.  The sniffer returns an error exactly when its first [Peek(1)]
    fails, and then it is that error, with no name, "not TLS", no peeked
    bytes, and the reader as that [Peek] left it.  A failure of any later
    [Peek] is never returned.  A server name is reported only together
    with "TLS" and without an error. *)
Theorem clientHelloServerName_error_is_first_peek (br : Reader R) :
  res_err (clientHelloServerName br).1.1 = (bufio_Peek br 1).1.2
  ∧ (∀ e, (bufio_Peek br 1).1.2 = Some e →
       (clientHelloServerName br).1
       = ({| res_sni := ""; res_isTLS := false; res_peeked := "";
             res_err := Some e |}, (bufio_Peek br 1).2))
  ∧ (res_sni (clientHelloServerName br).1.1 ≠ "" →
       res_isTLS (clientHelloServerName br).1.1 = true
       ∧ res_err (clientHelloServerName br).1.1 = None).
Proof.
  unfold clientHelloServerName.
  destruct (bufio_Peek br 1) as [[hdr err] br1]. cbn [fst snd].
  destruct err as [e |]; cbn [fst snd res_err res_sni res_isTLS].
  { split; [reflexivity | split]; [now intros ? [= <-] | easy]. }
  split; [| split]; [| discriminate |].
  - repeat case_match; subst; cbn [fst snd res_err]; try reflexivity.
    all: first
      [ apply sniff_hello_flags
      | match goal with
        | H : sniff_hello ?b ?t = _ |- _ =>
            pose proof (proj2 (sniff_hello_flags b t)) as Hflag;
            rewrite H in Hflag; exact Hflag
        end ].
  - repeat case_match; subst; cbn [fst snd res_err res_sni res_isTLS];
      try easy.
    all: intros _.
    all: first
      [ apply sniff_hello_flags
      | match goal with
        | H : sniff_hello ?b ?t = _ |- _ =>
            pose proof (sniff_hello_flags b t) as Hflag;
            rewrite H in Hflag; exact Hflag
        end ].
Qed.

(** X14.  The first byte is the handshake record type, but the five bytes
    of a record header cannot be had: [Peek(5)] fails with [e].  Then the
    sniffer answers "not TLS" with no name and no error; [e] is written
    to the log and dropped.  Nothing is consumed, and the bytes reported
    as peeked are everything the reader holds, a prefix of the input
    that begins with the handshake byte. *)
Theorem clientHelloServerName_short_header (br br1 br2 : Reader R) hdr (e : error) :
  reader_wf br →
  bufio_Peek br 1 = ([recordTypeHandshake], None, br1) →
  bufio_Peek br1 recordHeaderLen = (hdr, Some e, br2) →
  clientHelloServerName br
  = ({| res_sni := ""; res_isTLS := false;
        res_peeked := String.string_of_list_byte (rd_buffered br2);
        res_err := None |}, br2, [["Error while Peeking hello:"; e]])
  ∧ reader_pending br2 = reader_pending br
  ∧ rd_buffered br2 `prefix_of` reader_pending br
  ∧ (∃ rest, rd_buffered br2 = recordTypeHandshake :: rest).
Proof.
  intros Hwf Hpeek1 Hpeek5.
  destruct (bufio_Peek_extends br 1 _ _ _ Hwf Hpeek1)
    as (Hext1 & Hdata & _).
  pose proof Hext1 as (_ & Hwf1 & _).
  destruct (bufio_Peek_extends br1 _ _ _ _ Hwf1 Hpeek5) as (Hext2 & _).
  pose proof (extends_trans _ _ _ Hext1 Hext2) as Hext.
  pose proof Hext2 as (_ & Hwf2 & Hpre2 & _).
  split; [| split; [| split]].
  - unfold clientHelloServerName. rewrite Hpeek1. cbn [index nth].
    cbn [negb Byte.eqb recordTypeHandshake].
    replace (Byte.eqb x16 x16) with true by reflexivity. cbn [negb].
    rewrite Hpeek5. now rewrite (getPeeked_buffered br2 Hwf2).
  - apply Hext.
  - now apply buffered_prefix_pending.
  - destruct Hdata as [r1 Hr1]. destruct Hpre2 as [r2 Hr2].
    exists (r1 ++ r2). rewrite Hr2, Hr1. reflexivity.
Qed.

(** X15.  A handshake record whose header could be peeked, and whose
    length fits the buffer at hand, so that no larger reader is put in
    front.  The sniffer asks for header and body together,
    [5 + 256 * hdr[3] + hdr[4]] bytes: if they can be had, the name is
    what crypto/tls finds in exactly these bytes, the first of the
    input; if not, the name is empty.  Either way the answer is "TLS"
    without an error and without a line in the log, nothing is consumed,
    and the bytes reported as peeked are everything the reader holds. *)
Theorem clientHelloServerName_record (br br1 br2 br3 : Reader R) hdr hello err :
  reader_wf br →
  bufio_Peek br 1 = ([recordTypeHandshake], None, br1) →
  bufio_Peek br1 recordHeaderLen = (hdr, None, br2) →
  record_total hdr ≤ Nat.max defaultBufSize (rd_size br) →
  bufio_Peek br2 (record_total hdr) = (hello, err, br3) →
  clientHelloServerName br
  = ({| res_sni := match err with
                   | None => tls_ServerName hello
                   | Some _ => ""
                   end;
        res_isTLS := true;
        res_peeked := String.string_of_list_byte (rd_buffered br3);
        res_err := None |}, br3, [])
  ∧ reader_pending br3 = reader_pending br
  ∧ rd_buffered br3 `prefix_of` reader_pending br
  ∧ (err = None → hello = take (record_total hdr) (reader_pending br)
                  ∧ length hello = record_total hdr).
Proof.
  intros Hwf Hpeek1 Hpeek5 Hfits Hpeek.
  destruct (bufio_Peek_extends br 1 _ _ _ Hwf Hpeek1) as (Hext1 & _).
  pose proof Hext1 as (Hsize1 & Hwf1 & _).
  destruct (bufio_Peek_extends br1 _ _ _ _ Hwf1 Hpeek5) as (Hext2 & _).
  pose proof Hext2 as (Hsize2 & Hwf2 & _).
  destruct (bufio_Peek_extends br2 _ _ _ _ Hwf2 Hpeek)
    as (Hext3 & Hhello & Hlen).
  pose proof (extends_trans _ _ _ (extends_trans _ _ _ Hext1 Hext2) Hext3)
    as Hext.
  split; [| split; [| split]].
  - unfold clientHelloServerName. rewrite Hpeek1. cbn [index nth].
    replace (Byte.eqb x16 recordTypeHandshake) with true by reflexivity.
    cbn [negb]. rewrite Hpeek5, record_total_code.
    rewrite (sniff_hello_Peek br2 br3 _ hello err Hwf2 Hpeek).
    repeat case_decide; try reflexivity. lia.
  - apply Hext.
  - now apply buffered_prefix_pending.
  - intros Hnone. specialize (Hlen Hnone). split; [| exact Hlen].
    pose proof (buffered_prefix_pending _ _ Hext) as Hpre.
    destruct (transitivity Hhello Hpre) as [rest ->].
    rewrite take_app_length'; [reflexivity | now symmetry].
Qed.

(** X16.  Whatever the input and whichever way the sniffer takes, no
    byte is lost between what it reports as peeked and what its reader
    still delivers.  The peeked bytes are a prefix of the input, and the
    reader afterwards either delivers the whole input again, or, when a
    larger reader had to be put in front for a long record, the input
    without exactly the peeked bytes. *)
Theorem clientHelloServerName_loses_nothing (br br' : Reader R) res logs :
  reader_wf br →
  clientHelloServerName br = (res, br', logs) →
  String.list_byte_of_string (res_peeked res) `prefix_of` reader_pending br
  ∧ (reader_pending br' = reader_pending br
     ∨ String.list_byte_of_string (res_peeked res) ++ reader_pending br'
       = reader_pending br).
Proof.
  intros Hwf. unfold clientHelloServerName.
  destruct (bufio_Peek br 1) as [[hdr1 err1] br1] eqn:Hpeek1.
  destruct (bufio_Peek_extends br 1 _ _ _ Hwf Hpeek1) as (Hext1 & _).
  pose proof Hext1 as (Hsize1 & Hwf1 & _ & Hpend1).
  destruct err1 as [e1 |].
  { intros [= <- <- _]. cbn [res_peeked String.list_byte_of_string].
    split; [apply prefix_nil | now left]. }
  assert (Hplain : ∀ sni tls,
    (let '(peeked, b) := getPeeked br1 in
     ({| res_sni := sni; res_isTLS := tls; res_peeked := peeked;
         res_err := None |}, b, @nil (list string))) = (res, br', logs) →
    String.list_byte_of_string (res_peeked res) `prefix_of` reader_pending br
    ∧ (reader_pending br' = reader_pending br
       ∨ String.list_byte_of_string (res_peeked res) ++ reader_pending br'
         = reader_pending br)).
  { intros sni tls. rewrite (getPeeked_buffered br1 Hwf1).
    intros [= <- <- _]. cbn [res_peeked].
    rewrite String.list_byte_of_string_of_list_byte.
    split; [now apply buffered_prefix_pending | now left]. }
  destruct (negb (Byte.eqb (index hdr1 0) recordTypeHandshake)).
  { destruct (Byte.eqb (index hdr1 0) recordTypeSSLv2); apply Hplain. }
  clear Hplain.
  destruct (bufio_Peek br1 recordHeaderLen) as [[hdr err5] br2] eqn:Hpeek5.
  destruct (bufio_Peek_extends br1 _ _ _ _ Hwf1 Hpeek5) as (Hext2 & _).
  pose proof (extends_trans _ _ _ Hext1 Hext2) as Hext12.
  pose proof Hext2 as (Hsize2 & Hwf2 & _ & Hpend2).
  destruct err5 as [e5 |].
  { rewrite (getPeeked_buffered br2 Hwf2).
    intros [= <- <- _]. cbn [res_peeked].
    rewrite String.list_byte_of_string_of_list_byte.
    split; [now apply buffered_prefix_pending | left; apply Hext12]. }
  rewrite record_total_code.
  assert (Hsame : ∀ r b, sniff_hello br2 (record_total hdr) = (r, b) →
    String.list_byte_of_string (res_peeked r) `prefix_of` reader_pending br
    ∧ (reader_pending b = reader_pending br
       ∨ String.list_byte_of_string (res_peeked r) ++ reader_pending b
         = reader_pending br)).
  { intros r b Hsniff.
    destruct (sniff_hello_extends br2 b _ r Hwf2 Hsniff) as (Hext3 & ->).
    pose proof (extends_trans _ _ _ Hext12 Hext3) as Hext.
    rewrite String.list_byte_of_string_of_list_byte.
    split; [now apply buffered_prefix_pending | left; apply Hext]. }
  repeat case_decide.
  - destruct (sniff_hello br2 (record_total hdr)) as [r b] eqn:Hsniff.
    intros [= <- <- _]. now apply Hsame.
  - destruct (sniff_hello (new_Reader (record_total hdr) br2)
                (record_total hdr)) as [r outer] eqn:Hsniff.
    intros [= <- <- _].
    assert (Hwfn : reader_wf (new_Reader (record_total hdr) br2)).
    { unfold reader_wf, new_Reader. cbn. lia. }
    destruct (sniff_hello_extends _ outer _ r Hwfn Hsniff)
      as ((_ & _ & _ & Hpend) & ->).
    rewrite String.list_byte_of_string_of_list_byte.
    assert (Hall : rd_buffered outer ++ reader_pending (rd_src outer)
                   = reader_pending br).
    { transitivity (reader_pending br2); [exact Hpend | apply Hext12]. }
    split; [| now right].
    rewrite <- Hall. now apply prefix_app_r.
  - destruct (sniff_hello br2 (record_total hdr)) as [r b] eqn:Hsniff.
    intros [= <- <- _]. now apply Hsame.
Qed.

End SnifferRecords.

Lemma clientHelloServerName_short_header_witness :
  clientHelloServerName (Sn := no_sniff) (Sample.reader_over Sample.short_source)
  = ({| res_sni := ""; res_isTLS := false;
        res_peeked :=
          String.string_of_list_byte (rd_buffered Sample.short_buffered);
        res_err := None |}, Sample.short_buffered,
     [["Error while Peeking hello:"; EOF]])
  ∧ reader_pending Sample.short_buffered
    = reader_pending (Sample.reader_over Sample.short_source)
  ∧ rd_buffered Sample.short_buffered
    `prefix_of` reader_pending (Sample.reader_over Sample.short_source)
  ∧ (∃ rest, rd_buffered Sample.short_buffered = recordTypeHandshake :: rest).
Proof.
  apply (clientHelloServerName_short_header (Sn := no_sniff)
           (Sample.reader_over Sample.short_source)
           Sample.short_buffered Sample.short_buffered [x16; x03] EOF).
  - unfold reader_wf. simpl. lia.
  - vm_compute. reflexivity.
  - vm_compute. reflexivity.
Defined.

Lemma clientHelloServerName_record_witness :
  clientHelloServerName (Sn := Sample.one_name)
    (Sample.reader_over Sample.record_source)
  = ({| res_sni := match @None error with
                   | None => tls_ServerName (SniffLib := Sample.one_name)
                               Sample.small_record
                   | Some _ => ""
                   end;
        res_isTLS := true;
        res_peeked :=
          String.string_of_list_byte (rd_buffered Sample.record_buffered);
        res_err := None |}, Sample.record_buffered, [])
  ∧ reader_pending Sample.record_buffered
    = reader_pending (Sample.reader_over Sample.record_source)
  ∧ rd_buffered Sample.record_buffered
    `prefix_of` reader_pending (Sample.reader_over Sample.record_source)
  ∧ (@None error = None →
     Sample.small_record
     = take (record_total [x16; x03; x01; x00; x02])
         (reader_pending (Sample.reader_over Sample.record_source))
     ∧ length Sample.small_record = record_total [x16; x03; x01; x00; x02]).
Proof.
  apply (clientHelloServerName_record (Sn := Sample.one_name)
           (Sample.reader_over Sample.record_source)
           Sample.record_buffered_one Sample.record_buffered_one
           Sample.record_buffered [x16; x03; x01; x00; x02]
           Sample.small_record None).
  - unfold reader_wf. simpl. lia.
  - vm_compute. reflexivity.
  - vm_compute. reflexivity.
  - apply Nat.leb_le. vm_compute. reflexivity.
  - vm_compute. reflexivity.
Defined.

Lemma clientHelloServerName_loses_nothing_witness :
  String.list_byte_of_string
    (res_peeked
       {| res_sni := ""; res_isTLS := true;
          res_peeked := String.string_of_list_byte Sample.large_peeked;
          res_err := None |})
  `prefix_of` reader_pending (Sample.reader_over Sample.large_source)
  ∧ (reader_pending Sample.large_drained
     = reader_pending (Sample.reader_over Sample.large_source)
     ∨ String.list_byte_of_string
         (res_peeked
            {| res_sni := ""; res_isTLS := true;
               res_peeked := String.string_of_list_byte Sample.large_peeked;
               res_err := None |})
       ++ reader_pending Sample.large_drained
       = reader_pending (Sample.reader_over Sample.large_source)).
Proof.
  apply (clientHelloServerName_loses_nothing (Sn := Sample.one_name)
           (Sample.reader_over Sample.large_source) Sample.large_drained
           _ []).
  - unfold reader_wf. simpl. lia.
  - vm_compute. reflexivity.
Defined.

(** A record longer than the buffer: the sniffer reads through a larger
    reader of its own, and the bytes it peeked are gone from the reader
    of its caller. *)
Example clientHelloServerName_large_record :
  clientHelloServerName (Sn := Sample.one_name)
    (Sample.reader_over Sample.large_source)
  = ({| res_sni := ""; res_isTLS := true;
        res_peeked := String.string_of_list_byte Sample.large_peeked;
        res_err := None |}, Sample.large_drained, [])
  ∧ reader_pending (Sample.reader_over Sample.large_source)
    = Sample.large_peeked
  ∧ reader_pending Sample.large_drained = [].
Proof. vm_compute. repeat split. Qed.

(** ** The process *)

Section Process.

(** Membership in a list that is written out. *)
Local Ltac not_listed H :=
  repeat (apply elem_of_cons in H as [H | H]; [discriminate H |]);
  first [apply elem_of_nil in H; contradiction | contradiction].

Local Ltac listed :=
  solve
    [ match goal with H : _ ∈ _ |- _ => not_listed H end
    | let H := fresh in intros H; not_listed H
    | intros;
      repeat first [apply list_elem_of_here | apply list_elem_of_further] ].

Lemma proc_bind_act {B : Type} (a : Action) (k : Proc B) (t : list Action) :
  proc_bind (act a) (λ _, k) t = k (t ++ [a]).
Proof. reflexivity. Qed.

Lemma handlers_app (t1 t2 : list Action) :
  handlers (t1 ++ t2) = handlers t1 ++ handlers t2.
Proof. apply omap_app. Qed.

Lemma readers_app (t1 t2 : list Action) :
  readers (t1 ++ t2) = readers t1 ++ readers t2.
Proof. apply omap_app. Qed.

(** The loop of [main] ends only by [log.Fatal]. *)
Lemma accept_loop_runs (answers : list (TCPConn + error)) :
  ∀ t, ∃ acts,
    (accept_loop answers t).2 = t ++ acts
    ∧ (accept_loop answers t).1
      = (if accept_fails answers then Fatal else Blocked)
    ∧ Forall (λ a, is_close a = false) acts
    ∧ (AcGoNc ∉ acts)
    ∧ handlers acts = accepted answers.
Proof.
  induction answers as [| [inconn | err] answers IH]; intros t;
    cbn [accept_loop]; rewrite proc_bind_act.
  - exists [AcAcceptTCP]. cbn. repeat split; try reflexivity.
    + now repeat constructor.
    + listed.
  - rewrite proc_bind_act.
    destruct (IH ((t ++ [AcAcceptTCP]) ++ [AcGoHandleConn inconn]))
      as (acts & Htrace & Hout & Hclose & Hnc & Hhandlers).
    exists (AcAcceptTCP :: AcGoHandleConn inconn :: acts).
    rewrite Htrace, Hout. cbn [accept_fails existsb orb].
    repeat split.
    + now rewrite <- !app_assoc.
    + now repeat constructor.
    + listed.
    + cbn. now rewrite <- Hhandlers.
  - exists [AcAcceptTCP; AcLog [err]]. cbn. repeat split; try reflexivity.
    + now rewrite <- app_assoc.
    + now repeat constructor.
    + listed.
Qed.

(** X17.  [main] never returns: whatever its calls answer, it ends in
    [log.Fatal], or it sits in [AcceptTCP]; the latter exactly if every
    call before the loop succeeded and no [AcceptTCP] fails.  So neither
    of its deferred calls, [objs.Close()] and [listener.Close()], is ever
    made.  [nc] is started exactly if the programs were loaded and
    attached.  A handler is started for every connection accepted before
    the first failure of [AcceptTCP], in that order, and for nothing
    else; none is started unless every call before the loop succeeded. *)
Theorem main_never_returns (env : MainEnv) (t : list Action) :
  ∃ acts,
    (main env t).2 = t ++ acts
    ∧ ((main env t).1 = Fatal ∨ (main env t).1 = Blocked)
    ∧ ((main env t).1 = Blocked
       ↔ listening env ∧ accept_fails (menv_AcceptTCP env) = false)
    ∧ Forall (λ a, is_close a = false) acts
    ∧ (AcGoNc ∈ acts ↔ attached env)
    ∧ (listening env → handlers acts = accepted (menv_AcceptTCP env))
    ∧ (¬ listening env → handlers acts = []).
Proof.
  destruct (main env t) as [out t'] eqn:Hmain. cbn [fst snd].
  unfold listening, attached.
  destruct env as [memlock load attach resolve listen answers].
  unfold main, proc_defer, proc_bind, proc_fatal_on, proc_Fatal, proc_ret,
    act in Hmain.
  cbn [menv_RemoveMemlock menv_loadBpfObjects menv_RawAttachProgram
       menv_ResolveTCPAddr menv_ListenTCP menv_AcceptTCP] in *.
  destruct memlock as [e |];
    [| destruct load as [e |];
       [| destruct (attach ProgVerdict) as [e |];
          [| destruct (attach ProgParser) as [e |];
             [| destruct resolve as [e |];
                [| destruct listen as [e |]]]]]].
  1-6: rewrite <- ?app_assoc in Hmain; cbn [app] in Hmain;
    injection Hmain as <- <-; eexists; split; [reflexivity |].
  1-6: cbn; repeat split; try (now left); try easy;
    try (now repeat constructor); try listed.
  destruct (accept_loop_runs answers
              (((((((t ++ [AcRemoveMemlock]) ++ [AcLoadBpfObjects])
                   ++ [AcRawAttachProgram ProgVerdict])
                  ++ [AcRawAttachProgram ProgParser]) ++ [AcGoNc])
                ++ [AcResolveTCPAddr ":443"]) ++ [AcListenTCP]))
    as (acts & Htrace & Hout & Hclose & Hnc & Hhandlers).
  destruct (accept_loop answers _) as [out1 t1].
  cbn [fst snd] in Htrace, Hout. subst out1 t1.
  exists ([AcRemoveMemlock; AcLoadBpfObjects; AcRawAttachProgram ProgVerdict;
           AcRawAttachProgram ProgParser; AcGoNc; AcResolveTCPAddr ":443";
           AcListenTCP] ++ acts).
  destruct (accept_fails answers); injection Hmain as <- <-.
  all: repeat split; try (now rewrite <- !app_assoc);
    try (now left); try (now right); try easy.
  all: try (apply Forall_app; split; [now repeat constructor | exact Hclose]).
  all: try listed.
  all: try (intros _; rewrite handlers_app; exact Hhandlers).
  all: try (intros Hno; exfalso; now apply Hno).
Qed.

(** The loop of [nc] ends only by [return]. *)
Lemma nc_loop_runs (answers : list (option error)) :
  ∀ nth t, ∃ acts,
    (nc_loop answers nth t).2 = t ++ acts
    ∧ (nc_loop answers nth t).1
      = (if nc_accept_fails answers then Returned else Blocked)
    ∧ readers acts = seq nth (nc_accepted answers).
Proof.
  induction answers as [| [err |] answers IH]; intros nth t;
    cbn [nc_loop]; rewrite proc_bind_act.
  - now exists [AcAccept].
  - exists [AcAccept; AcLog [err]]. cbn. now rewrite <- app_assoc.
  - rewrite proc_bind_act.
    destruct (IH (S nth) ((t ++ [AcAccept]) ++ [AcGoReader nth]))
      as (acts & Htrace & Hout & Hreaders).
    exists (AcAccept :: AcGoReader nth :: acts).
    rewrite Htrace, Hout. cbn [nc_accept_fails existsb orb].
    repeat split.
    + now rewrite <- !app_assoc.
    + cbn. now rewrite <- Hreaders.
Qed.

(** X18.  [nc] ends in [log.Fatal] exactly if it cannot listen on port
    8080.  Once it listens, the first failing [Accept] makes it return,
    and without one it sits in [Accept]; it starts one reader for every
    connection accepted before that failure, numbered in order, and no
    other. *)
Theorem nc_stops_at_accept_failure (listen : option error)
    (answers : list (option error)) (t : list Action) :
  ∃ acts,
    (nc listen answers t).2 = t ++ acts
    ∧ (nc listen answers t).1
      = match listen with
        | Some _ => Fatal
        | None => if nc_accept_fails answers then Returned else Blocked
        end
    ∧ readers acts
      = match listen with
        | Some _ => []
        | None => seq 0 (nc_accepted answers)
        end.
Proof.
  destruct (nc listen answers t) as [out t'] eqn:Hnc. cbn [fst snd].
  unfold nc, proc_bind, proc_fatal_on, proc_Fatal, proc_ret, act in Hnc.
  destruct listen as [e |].
  - injection Hnc as <- <-. exists [AcListen ":8080"; AcLog [e]].
    now rewrite <- app_assoc.
  - destruct (nc_loop_runs answers 0%nat (t ++ [AcListen ":8080"]))
      as (acts & Htrace & Hout & Hreaders).
    rewrite (surjective_pairing (nc_loop answers 0 _)) in Hnc.
    rewrite Htrace, Hout in Hnc. injection Hnc as <- <-.
    exists (AcListen ":8080" :: acts).
    repeat split; [now rewrite <- app_assoc | exact Hreaders].
Qed.

End Process.

Section NcReader.
Context {C : Type} {Rd : IoReader C} {Laws : IoReaderLaws C}.

(** X19.  What a reader of [nc] logs of a connection is the front of
    what the connection delivers: the bytes shown in its lines, put end
    to end, then the bytes it dropped, then what the connection still
    holds, are the input it started with.  Bytes are dropped only with
    the one [Read] that fails, which may still have stored some; that
    failure is the last line and the reader returns.  Every other line
    shows at most 1024 bytes, with their number. *)
Theorem nc_reader_logs_stream (rounds : nat) (conn : C) :
  ∃ dropped,
    io_pending conn
    = logged_bytes (nc_reader rounds conn).1.1 ++ dropped
        ++ io_pending (nc_reader rounds conn).2
    ∧ ((nc_reader rounds conn).1.2 = false →
       dropped = []
       ∧ length (nc_reader rounds conn).1.1 = rounds
       ∧ Forall read_line (nc_reader rounds conn).1.1)
    ∧ ((nc_reader rounds conn).1.2 = true →
       ∃ lines e,
         (nc_reader rounds conn).1.1 = lines ++ [AcLog [e]]
         ∧ Forall read_line lines
         ∧ (length lines < rounds)%nat).
Proof.
  revert conn. induction rounds as [| rounds IH]; intros conn.
  - exists []. cbn. split; [reflexivity | split; [| discriminate]].
    intros _. split; [reflexivity | split; [reflexivity | constructor]].
  - cbn [nc_reader].
    destruct (io_Read conn 1024) as [[bytes err] conn1] eqn:Hread.
    pose proof (io_Read_fits _ _ _ _ _ Hread) as Hfits.
    pose proof (io_Read_pending _ _ _ _ _ Hread) as Hpending.
    destruct err as [e |].
    + exists bytes. cbn [fst snd]. split; [exact Hpending | split].
      * discriminate.
      * intros _. exists [], e.
        split; [reflexivity | split; [constructor | cbn; lia]].
    + destruct (IH conn1) as (dropped & Hstream & Hrunning & Hreturned).
      destruct (nc_reader rounds conn1) as [[lines returned] conn2].
      cbn [fst snd] in *. exists dropped. split; [| split].
      * change (logged_bytes (AcLogRead (length bytes) bytes :: lines))
          with (bytes ++ logged_bytes lines).
        rewrite Hpending, Hstream. now rewrite <- app_assoc.
      * intros Hfalse. destruct (Hrunning Hfalse) as (-> & Hlen & Hall).
        split; [reflexivity | split; [cbn; now rewrite Hlen |]].
        constructor; [now split | exact Hall].
      * intros Htrue.
        destruct (Hreturned Htrue) as (ls & e & -> & Hall & Hlen).
        exists (AcLogRead (length bytes) bytes :: ls), e.
        split; [reflexivity | split; [| cbn; lia]].
        constructor; [now split | exact Hall].
Qed.

End NcReader.

(** [main] on the sample data: two handlers, then the failure. *)
Example main_two_connections :
  main Sample.main_env []
  = (Fatal,
     [AcRemoveMemlock; AcLoadBpfObjects; AcRawAttachProgram ProgVerdict;
      AcRawAttachProgram ProgParser; AcGoNc; AcResolveTCPAddr ":443";
      AcListenTCP; AcAcceptTCP; AcGoHandleConn Sample.inconn; AcAcceptTCP;
      AcGoHandleConn Sample.far_port; AcAcceptTCP; AcLog ["EMFILE"]]).
Proof. reflexivity. Qed.

(** A reader of [nc] on a connection that delivers five bytes in two
    segments and is then closed. *)
Example nc_reader_two_segments :
  nc_reader 5 (Conn_inner Sample.wrapped)
  = ([AcLogRead 2 [x00; x2a]; AcLog [EOF]], true,
     {| src_chunks := []; src_err := EOF |}).
Proof. reflexivity. Qed.
